(** * webhook-saas: the dispatcher of [src/index.ts], embedded and verified

    The definitions follow [src/index.ts]: the exported types, the
    [WebhookClient] class with its methods, the two signature helpers, and
    the event loop that runs [trigger] and [post].  The lemmas and the
    claims of the specification come after all definitions.

    JavaScript features and how they are rendered here:
    - an optional field or parameter ([events?], [name?], [data?]) is an
      [option]; [None] is [undefined];
    - a method of the class is a function of the receiver [this] that
      returns its result together with the receiver after the call;
    - the host functions the module calls ([uuidv4], [Date.now],
      [JSON.stringify], [crypto.createHmac]) are the fields of a record
      [Host] every function takes: nothing is assumed about what they
      return.  [uuidv4], [Date.now] and [JSON.stringify] take the number
      of earlier calls, so two calls may answer differently;
    - an [async] function runs synchronously up to its first [await]; the
      rest of its body runs when the awaited promise settles.  The promises
      of [fetch] and of the observers are settled by the environment, one
      action of the event loop at a time;
    - a number is an IEEE 754 double, with the operations of the standard
      library's [SpecFloat]; [createSecret] multiplies and rounds as the
      language does.

    What the model leaves out: [data] is a JSON value, so
    [JSON.stringify] returns a string and does not throw; an observer
    does not call back into the client; nobody but the class writes its
    fields or the [hooks] array it was given.  The array shared with the
    caller is modelled apart, in a store, after the event loop.  The
    envelope is kept as [post] built and serialised it: a later write to
    the payload object by the caller, or to the envelope by an observer,
    is not followed, and no property below is about what an observer
    reads in the envelope. *)

From Stdlib Require Import ZArith Bool List Lia.
From Stdlib Require Import SpecFloat.
From stdpp Require Import base option list gmap strings pretty.

Open Scope string_scope.
Open Scope list_scope.

(** ** Exported types *)

Inductive Environment := sandbox | production.

Definition Environment_string (m : Environment) : string :=
  match m with sandbox => "sandbox" | production => "production" end.

Definition EventType := string.

Record Hook := { url : string; events : option (list EventType) }.

(** [data?: unknown]: the value is serialised and never inspected. *)
#[local] Unset Elimination Schemes.
Inductive JSValue :=
| JNull
| JBool (b : bool)
| JNumber (n : Z)
| JString (s : string)
| JArray (xs : list JSValue)
| JObject (fields : list (string * JSValue)).
#[local] Set Elimination Schemes.

Module Body.
Record t := mk {
    id : string;
    type : EventType;
    idempotency_key : string;
    api_version : string;
    created : Z;
    data : option JSValue
}.
End Body.

(** [Omit<Body, 'id' | 'created'>], the argument of [post]. *)
Module OmitBody.
Record t := mk {
    idempotency_key : string;
    api_version : string;
    type : EventType;
    data : option JSValue
}.
End OmitBody.

(** node-fetch's [Response]; the module only passes it on. *)
Record Response := { status : Z; statusText : string }.

(** A thrown value or a rejection reason. *)
Definition Error := string.

(** What a call of an [onDoneCallback] does: it throws, it returns a value
    that is not a promise, or it returns a promise (settled later). *)
Inductive CallbackResult := Throws (e : Error) | ReturnsVoid | ReturnsPromise.

Definition onDoneCallback := string -> Body.t -> Response -> CallbackResult.

Module WebhooksProps.
Record t := mk {
    api_version : string;
    secret : string;
    hooks : option (list Hook);
    mode : option Environment;
    name : option string
}.
End WebhooksProps.

(** ** The class *)

Record WebhookClient := {
  hooks : list Hook;
  secret : string;
  name : option string;
  mode : Environment;
  api_version : string;
  internalEvent : list onDoneCallback
}.

(** Array methods of the host, as the language defines them. *)

(** [arr.filter(f)]: visits the elements in index order and pushes the kept
    ones onto a new array. *)
Definition Array_filter {A} (f : A -> bool) (arr : list A) : list A :=
  fold_left (fun out x => if f x then out ++ [x] else out) arr [].

(** [arr.includes(x)] on strings. *)
Definition Array_includes (arr : list string) (x : string) : bool :=
  existsb (String.eqb x) arr.

(** [arr.push(x)]. *)
Definition Array_push {A} (arr : list A) (x : A) : list A := arr ++ [x].

Definition constructor (props : WebhooksProps.t) : WebhookClient :=
  {| api_version := WebhooksProps.api_version props;
     hooks := default [] (WebhooksProps.hooks props);
     secret := WebhooksProps.secret props;
     mode := default sandbox (WebhooksProps.mode props);
     name := WebhooksProps.name props;
     internalEvent := [] |}.

Definition add (this : WebhookClient) (url : string)
    (events : option (list EventType)) : unit * WebhookClient :=
  let hook := {| url := url; events := events |} in
  (tt, {| hooks := Array_push (hooks this) hook;
          secret := secret this; name := name this; mode := mode this;
          api_version := api_version this;
          internalEvent := internalEvent this |}).

Definition onDone (this : WebhookClient) (callback : onDoneCallback)
    : unit * WebhookClient :=
  (tt, {| hooks := hooks this;
          secret := secret this; name := name this; mode := mode this;
          api_version := api_version this;
          internalEvent := Array_push (internalEvent this) callback |}).

(** The callback of [getWebhooks]: an [events] array, even an empty one, is
    truthy; [undefined] is not. *)
Definition wants (event : EventType) (webhook : Hook) : bool :=
  match events webhook with
  | Some evs => Array_includes evs event
  | None => true
  end.

Definition getWebhooks (this : WebhookClient) (event : EventType)
    : list Hook * WebhookClient :=
  (Array_filter (wants event) (hooks this), this).

(** ** The host *)

(** The functions the module imports.  The first argument of [uuidv4],
    [Date_now] and [JSON_stringify] is the number of calls made before. *)
Record Host := {
  (** [crypto.createHmac('sha256', secret).update(body).digest('hex')] *)
  createHmac_sha256_hex : string -> string -> string;
  uuidv4 : nat -> string;
  Date_now : nat -> Z;
  JSON_stringify : nat -> Body.t -> string
}.

(** ** The signature helpers *)

Definition getSignature (H : Host) (secret body : string) : string :=
  createHmac_sha256_hex H secret body.

Definition verifySignature (H : Host) (secret signature body : string)
    : bool :=
  let hash := getSignature H secret body in
  String.eqb hash signature.

(** ** Promises and the event loop *)

(** The second argument of [fetch]. *)
Record Options := {
  method : string;
  headers : gmap string string;
  body : string
}.

(** How the environment settles a promise. *)
Inductive Settled (A : Type) := Resolves (a : A) | Rejects (e : Error).
Arguments Resolves {A} a.
Arguments Rejects {A} e.

Inductive PromiseState (A : Type) :=
| Pending
| Fulfilled (a : A)
| Rejected (e : Error).
Arguments Pending {A}.
Arguments Fulfilled {A} a.
Arguments Rejected {A} e.

(** Where a call of [post] stands: suspended at [await fetch(...)],
    suspended at [await Promise.all(...)] with the state of each observer's
    result, returned, or ended by an exception. *)
Inductive Continuation :=
| AtFetch
| AtObservers (result : Response) (waiting : list (PromiseState unit))
| Returned (result : Response)
| Threw (e : Error).

Record PostCall := {
  target : string;
  hookData : Body.t;
  point : Continuation
}.

(** The promise [Promise.all] returned in [trigger]: the calls of [post] it
    waits for, by index, and its state. *)
Record PromiseAll := {
  inputs : list nat;
  outcome : PromiseState (list Response)
}.

(** What the process did that is visible outside the class, in order.
    [d] is the index of the call of [post], [k] the index of the observer
    in [internalEvent]. *)
Inductive Event :=
| Fetch (d : nat) (url : string) (options : Options)
| FetchSettled (d : nat) (o : Settled Response)
| Observer (d k : nat) (url : string) (hookData : Body.t) (result : Response)
| ObserverSettled (d k : nat) (o : Settled unit).

Record Runtime := {
  this : WebhookClient;
  uuid_calls : nat;
  now_calls : nat;
  stringify_calls : nat;
  posts : list PostCall;
  alls : list PromiseAll;
  log : list Event
}.

(** Code that runs in the process: a function of the runtime. *)
Definition Run (A : Type) : Type := Runtime -> A * Runtime.

#[export] Instance Run_ret : MRet Run := λ A a rt, (a, rt).
#[export] Instance Run_bind : MBind Run :=
  λ A B f m rt, f (m rt).1 (m rt).2.

(** A method of the class, run on the receiver of the runtime. *)
Definition method_call {A} (m : WebhookClient -> A * WebhookClient) : Run A :=
  λ rt, ((m (this rt)).1,
         {| this := (m (this rt)).2;
            uuid_calls := uuid_calls rt; now_calls := now_calls rt;
            stringify_calls := stringify_calls rt;
            posts := posts rt; alls := alls rt; log := log rt |}).

Definition read {A} (field : WebhookClient -> A) : Run A :=
  λ rt, (field (this rt), rt).

Definition call_uuidv4 (H : Host) : Run string :=
  λ rt, (uuidv4 H (uuid_calls rt),
         {| this := this rt;
            uuid_calls := S (uuid_calls rt); now_calls := now_calls rt;
            stringify_calls := stringify_calls rt;
            posts := posts rt; alls := alls rt; log := log rt |}).

Definition call_Date_now (H : Host) : Run Z :=
  λ rt, (Date_now H (now_calls rt),
         {| this := this rt;
            uuid_calls := uuid_calls rt; now_calls := S (now_calls rt);
            stringify_calls := stringify_calls rt;
            posts := posts rt; alls := alls rt; log := log rt |}).

Definition call_JSON_stringify (H : Host) (value : Body.t) : Run string :=
  λ rt, (JSON_stringify H (stringify_calls rt) value,
         {| this := this rt;
            uuid_calls := uuid_calls rt; now_calls := now_calls rt;
            stringify_calls := S (stringify_calls rt);
            posts := posts rt; alls := alls rt; log := log rt |}).

Definition emit (ev : Event) : Run unit :=
  λ rt, (tt,
         {| this := this rt;
            uuid_calls := uuid_calls rt; now_calls := now_calls rt;
            stringify_calls := stringify_calls rt;
            posts := posts rt; alls := alls rt; log := log rt ++ [ev] |}).

(** [await fetch(url, options)]: the request goes out and the call of
    [post] is suspended; the result is the index of the call, which stands
    for the promise [post] returned. *)
Definition await_fetch (url : string) (options : Options)
    (hookData : Body.t) : Run nat :=
  λ rt, let d := length (posts rt) in
        (d,
         {| this := this rt;
            uuid_calls := uuid_calls rt; now_calls := now_calls rt;
            stringify_calls := stringify_calls rt;
            posts := posts rt ++ [{| target := url; hookData := hookData;
                                     point := AtFetch |}];
            alls := alls rt;
            log := log rt ++ [Fetch d url options] |}).

(** [Promise.all(promises)] of [trigger]: fulfilled at once with [[]] for
    no promise, pending otherwise ([post] never returns a settled promise:
    it always reaches [await fetch]).  The result is the index of the new
    promise. *)
Definition Promise_all (promises : list nat) : Run nat :=
  λ rt, (length (alls rt),
         {| this := this rt;
            uuid_calls := uuid_calls rt; now_calls := now_calls rt;
            stringify_calls := stringify_calls rt;
            posts := posts rt;
            alls := alls rt ++ [{| inputs := promises;
                                   outcome := match promises with
                                              | [] => Fulfilled []
                                              | _ :: _ => Pending
                                              end |}];
            log := log rt |}).

(** ** [post], up to its first [await] *)

(** A string is falsy exactly when it is empty; [undefined] is falsy. *)
Definition truthy (s : option string) : bool :=
  match s with
  | Some (String _ _) => true
  | Some EmptyString | None => false
  end.

(** [`X${this.name ? `-${this.name}` : ''}-Signature`] *)
Definition signature_header (name : option string) : string :=
  "X"
  +:+ (if truthy name then "-" +:+ default EmptyString name
       else EmptyString)
  +:+ "-Signature".

Definition post (H : Host) (url : string) (data : OmitBody.t) : Run nat :=
  id ← call_uuidv4 H;
  created ← call_Date_now H;
  let hookData :=
    {| Body.idempotency_key := OmitBody.idempotency_key data;
       Body.api_version := OmitBody.api_version data;
       Body.type := OmitBody.type data;
       Body.data := OmitBody.data data;
       Body.id := id;
       Body.created := created |} in
  body ← call_JSON_stringify H hookData;
  mode ← read mode;
  name ← read name;
  secret ← read secret;
  let headers : gmap string string :=
    <[signature_header name := getSignature H secret body]>
      (<["X-Environment" := Environment_string mode]>
         (<["Content-Type" := "application/json"]> ∅)) in
  let options :=
    {| method := "POST"; headers := headers; body := body |} in
  await_fetch url options hookData.

(** ** [trigger] *)

(** The arrow function [({url}) => this.post(url, {...})] of [trigger]. *)
Definition trigger_callback (H : Host) (type : EventType)
    (data : option JSValue) (webhook : Hook) : Run nat :=
  idempotency_key ← call_uuidv4 H;
  api_version ← read api_version;
  post H (url webhook)
    {| OmitBody.idempotency_key := idempotency_key;
       OmitBody.api_version := api_version;
       OmitBody.type := type;
       OmitBody.data := data |}.

Definition trigger (H : Host) (type : EventType) (data : option JSValue)
    : Run nat :=
  webhooks ← method_call (λ this, getWebhooks this type);
  promises ← mapM (trigger_callback H type data) webhooks;
  Promise_all promises.

(** ** The rest of [post], run when the awaited promise settles *)

Definition set_point (d : nat) (k : Continuation) : Run unit :=
  λ rt, (tt,
         {| this := this rt;
            uuid_calls := uuid_calls rt; now_calls := now_calls rt;
            stringify_calls := stringify_calls rt;
            posts := alter (λ c, {| target := target c;
                                    hookData := hookData c;
                                    point := k |}) d (posts rt);
            alls := alls rt; log := log rt |}).

Definition returned (c : PostCall) : option Response :=
  match point c with Returned result => Some result | _ => None end.

(** The reaction of a [Promise.all] to the settling of its input [d]: an
    exception rejects it if it is still pending; a return fulfils it when
    every input has returned, with the results in the order of the
    inputs. *)
Definition Promise_all_react (calls : list PostCall) (d : nat)
    (p : PromiseAll) : PromiseAll :=
  if bool_decide (d ∈ inputs p) then
    match outcome p, point <$> calls !! d with
    | Pending, Some (Threw e) =>
        {| inputs := inputs p; outcome := Rejected e |}
    | Pending, Some (Returned _) =>
        match mapM (λ i, calls !! i ≫= returned) (inputs p) with
        | Some results =>
            {| inputs := inputs p; outcome := Fulfilled results |}
        | None => p
        end
    | _, _ => p
    end
  else p.

Definition react (d : nat) : Run unit :=
  λ rt, (tt,
         {| this := this rt;
            uuid_calls := uuid_calls rt; now_calls := now_calls rt;
            stringify_calls := stringify_calls rt;
            posts := posts rt;
            alls := Promise_all_react (posts rt) d <$> alls rt;
            log := log rt |}).

(** The call [d] of [post] ends: [return result] or an exception. *)
Definition finish (d : nat) (k : Continuation) : Run unit :=
  _ ← set_point d k; react d.

(** [this.internalEvent.map(callback => callback(url, hookData, result))]:
    the callbacks are called in index order; an exception ends the [map].
    The result is the exception, or for each callback whether what it
    returned still has to settle. *)
(** [x] in front of the results collected so far, unless a callback
    threw. *)
Definition cons_result {A} (x : A) (r : Error + list A) : Error + list A :=
  match r with inl e => inl e | inr xs => inr (x :: xs) end.

Fixpoint map_callbacks (d : nat) (url : string) (hookData : Body.t)
    (result : Response) (k : nat) (callbacks : list onDoneCallback)
    : Run (Error + list (PromiseState unit)) :=
  match callbacks with
  | [] => mret (inr [])
  | callback :: rest =>
      _ ← emit (Observer d k url hookData result);
      match callback url hookData result with
      | Throws e => mret (inl e)
      | ReturnsVoid =>
          r ← map_callbacks d url hookData result (S k) rest;
          mret (cons_result (Fulfilled tt) r)
      | ReturnsPromise =>
          r ← map_callbacks d url hookData result (S k) rest;
          mret (cons_result Pending r)
      end
  end.

Definition is_fulfilled {A} (p : PromiseState A) : bool :=
  match p with Fulfilled _ => true | _ => false end.

(** [await Promise.all(...)] in [post], then [return result]: the call
    returns when every element is fulfilled, and stays suspended until
    then. *)
Definition await_all (d : nat) (result : Response)
    (waiting : list (PromiseState unit)) : Run unit :=
  if forallb is_fulfilled waiting
  then finish d (Returned result)
  else set_point d (AtObservers result waiting).

(** The promise of [fetch] settles for the call [d] suspended there. *)
Definition resume_fetch (d : nat) (o : Settled Response) : Run unit :=
  λ rt,
    match posts rt !! d with
    | Some c =>
        match point c with
        | AtFetch =>
            (_ ← emit (FetchSettled d o);
             match o with
             | Rejects e => finish d (Threw e)
             | Resolves result =>
                 callbacks ← read internalEvent;
                 r ← map_callbacks d (target c) (hookData c) result 0
                       callbacks;
                 match r with
                 | inl e => finish d (Threw e)
                 | inr waiting => await_all d result waiting
                 end
             end) rt
        | _ => (tt, rt)
        end
    | None => (tt, rt)
    end.

(** The promise observer [k] returned settles for the call [d] suspended
    at [await Promise.all(...)]. *)
Definition resume_observer (d k : nat) (o : Settled unit) : Run unit :=
  λ rt,
    match posts rt !! d with
    | Some c =>
        match point c with
        | AtObservers result waiting =>
            match waiting !! k with
            | Some Pending =>
                (_ ← emit (ObserverSettled d k o);
                 match o with
                 | Rejects e => finish d (Threw e)
                 | Resolves _ =>
                     await_all d result (<[k := Fulfilled tt]> waiting)
                 end) rt
            | _ => (tt, rt)
            end
        | _ => (tt, rt)
        end
    | None => (tt, rt)
    end.

(** ** The event loop *)

(** One turn: the application calls a public method, or the environment
    settles a promise.  Settling a promise that is not pending is no
    turn. *)
Inductive Action :=
| CallAdd (url : string) (events : option (list EventType))
| CallOnDone (callback : onDoneCallback)
| CallTrigger (type : EventType) (data : option JSValue)
| FetchSettles (d : nat) (o : Settled Response)
| ObserverSettles (d k : nat) (o : Settled unit).

Definition step (H : Host) (rt : Runtime) (a : Action) : Runtime :=
  match a with
  | CallAdd url events => (method_call (λ this, add this url events) rt).2
  | CallOnDone callback => (method_call (λ this, onDone this callback) rt).2
  | CallTrigger type data => (trigger H type data rt).2
  | FetchSettles d o => (resume_fetch d o rt).2
  | ObserverSettles d k o => (resume_observer d k o rt).2
  end.

Definition run (H : Host) (rt : Runtime) (actions : list Action) : Runtime :=
  fold_left (step H) actions rt.

(** [new WebhookClient(props)] in a fresh process. *)
Definition start (props : WebhooksProps.t) : Runtime :=
  {| this := constructor props;
     uuid_calls := 0; now_calls := 0; stringify_calls := 0;
     posts := []; alls := []; log := [] |}.

(** The envelopes of the calls of [post] made between two runtimes. *)
Definition envelopes (before after : Runtime) : list Body.t :=
  hookData <$> drop (length (posts before)) (posts after).

(** The requests sent between two runtimes. *)
Definition requests (before after : Runtime)
    : list (nat * string * Options) :=
  omap (λ ev, match ev with
              | Fetch d url options => Some (d, url, options)
              | _ => None
              end) (drop (length (log before)) (log after)).

(** ** What [trigger] builds, in closed form *)

(** The envelope, the request and the suspended call for the [i]-th matched
    subscriber of a [trigger] started in [rt]; [trigger_mapM] below proves
    that these are what the code builds. *)
Definition built_envelope (H : Host) (rt : Runtime) (type : EventType)
    (data : option JSValue) (i : nat) : Body.t :=
  {| Body.id := uuidv4 H (uuid_calls rt + 2 * i + 1);
     Body.type := type;
     Body.idempotency_key := uuidv4 H (uuid_calls rt + 2 * i);
     Body.api_version := api_version (this rt);
     Body.created := Date_now H (now_calls rt + i);
     Body.data := data |}.

Definition built_options (H : Host) (rt : Runtime) (type : EventType)
    (data : option JSValue) (i : nat) : Options :=
  let body :=
    JSON_stringify H (stringify_calls rt + i)
      (built_envelope H rt type data i) in
  {| method := "POST";
     headers :=
       <[signature_header (name (this rt)) :=
           getSignature H (secret (this rt)) body]>
         (<["X-Environment" := Environment_string (mode (this rt))]>
            (<["Content-Type" := "application/json"]> ∅));
     body := body |}.

Definition built_call (H : Host) (rt : Runtime) (type : EventType)
    (data : option JSValue) (i : nat) (webhook : Hook) : PostCall :=
  {| target := url webhook;
     hookData := built_envelope H rt type data i;
     point := AtFetch |}.

Definition built_fetch (H : Host) (rt : Runtime) (type : EventType)
    (data : option JSValue) (i : nat) (webhook : Hook) : Event :=
  Fetch (length (posts rt) + i) (url webhook) (built_options H rt type data i).

(** ** The log, read per delivery *)

Definition delivery (ev : Event) : nat :=
  match ev with
  | Fetch d _ _ | FetchSettled d _ | Observer d _ _ _ _
  | ObserverSettled d _ _ => d
  end.

(** The events of the call [d] of [post], in order. *)
Definition history (d : nat) (l : list Event) : list Event :=
  filter (λ ev, delivery ev = d) l.

(** The calls of the first [n] observers for the call [c] of [post]. *)
Definition invocations (d : nat) (c : PostCall) (result : Response)
    (n : nat) : list Event :=
  (λ k, Observer d k (target c) (hookData c) result) <$> seq 0 n.

(** How many callbacks [map] calls: all of them, or those up to the first
    that throws. *)
Fixpoint invoked (url : string) (hookData : Body.t) (result : Response)
    (callbacks : list onDoneCallback) : nat :=
  match callbacks with
  | [] => 0
  | callback :: rest =>
      match callback url hookData result with
      | Throws _ => 1
      | _ => S (invoked url hookData result rest)
      end
  end.

Definition is_observer_settled (ev : Event) : Prop :=
  match ev with ObserverSettled _ _ _ => True | _ => False end.

Definition suspended (k : Continuation) : Prop :=
  match k with AtFetch | AtObservers _ _ => True | _ => False end.

Definition settled (k : Continuation) : bool :=
  match k with Returned _ | Threw _ => true | _ => false end.

(** The runtime with another instance name. *)
Definition with_name (name : option string) (rt : Runtime) : Runtime :=
  {| this := {| hooks := hooks (this rt); secret := secret (this rt);
                name := name; mode := mode (this rt);
                api_version := api_version (this rt);
                internalEvent := internalEvent (this rt) |};
     uuid_calls := uuid_calls rt; now_calls := now_calls rt;
     stringify_calls := stringify_calls rt;
     posts := posts rt; alls := alls rt; log := log rt |}.

(** ** One turn of a suspended call, in closed form *)

(** What [map] over the callbacks yields. *)
Fixpoint callback_results (url : string) (hookData : Body.t)
    (result : Response) (callbacks : list onDoneCallback)
    : Error + list (PromiseState unit) :=
  match callbacks with
  | [] => inr []
  | callback :: rest =>
      match callback url hookData result with
      | Throws e => inl e
      | ReturnsVoid =>
          cons_result (Fulfilled tt)
            (callback_results url hookData result rest)
      | ReturnsPromise =>
          cons_result Pending (callback_results url hookData result rest)
      end
  end.

(** Where [post] stands once the callbacks have been called. *)
Definition after_callbacks (result : Response)
    (r : Error + list (PromiseState unit)) : Continuation :=
  match r with
  | inl e => Threw e
  | inr waiting =>
      if forallb is_fulfilled waiting
      then Returned result
      else AtObservers result waiting
  end.

Definition after_fetch (this : WebhookClient) (c : PostCall)
    (o : Settled Response) : Continuation :=
  match o with
  | Rejects e => Threw e
  | Resolves result =>
      after_callbacks result
        (callback_results (target c) (hookData c) result
           (internalEvent this))
  end.

Definition fetch_events (this : WebhookClient) (d : nat) (c : PostCall)
    (o : Settled Response) : list Event :=
  FetchSettled d o ::
  match o with
  | Rejects _ => []
  | Resolves result =>
      invocations d c result
        (invoked (target c) (hookData c) result (internalEvent this))
  end.

Definition after_observer (result : Response)
    (waiting : list (PromiseState unit)) (k : nat) (o : Settled unit)
    : Continuation :=
  match o with
  | Rejects e => Threw e
  | Resolves _ => after_callbacks result (inr (<[k := Fulfilled tt]> waiting))
  end.

Definition at_point (k : Continuation) (c : PostCall) : PostCall :=
  {| target := target c; hookData := hookData c; point := k |}.

(** The runtime after the call [d] moved to [k] and [evs] were logged. *)
Definition moved (rt : Runtime) (d : nat) (k : Continuation)
    (evs : list Event) : Runtime :=
  let calls := alter (at_point k) d (posts rt) in
  {| this := this rt;
     uuid_calls := uuid_calls rt; now_calls := now_calls rt;
     stringify_calls := stringify_calls rt;
     posts := calls;
     alls := if settled k then Promise_all_react calls d <$> alls rt
             else alls rt;
     log := log rt ++ evs |}.
(** ** The registry: what [match] is to return, in the spec's words *)

(** An entry is interested in [event] when its filter is absent or lists
    the event. *)
Definition interested (event : EventType) (h : Hook) : Prop :=
  events h = None ∨ ∃ evs, events h = Some evs ∧ event ∈ evs.

(** [selects P reg out]: [out] is [reg] with exactly the entries satisfying
    [P] kept, in the order of [reg]. *)
Inductive selects (P : Hook -> Prop) : list Hook -> list Hook -> Prop :=
| selects_nil : selects P [] []
| selects_keep h reg out :
    P h -> selects P reg out -> selects P (h :: reg) (h :: out)
| selects_skip h reg out :
    ¬ P h -> selects P reg out -> selects P (h :: reg) out.

(** ** Invariants of the event loop *)

(** The state of a [Promise.all] agrees with the calls it waits for. *)
Definition outcome_ok (calls : list PostCall) (p : PromiseAll) : Prop :=
  match outcome p with
  | Pending =>
      (∃ d c, d ∈ inputs p ∧ calls !! d = Some c ∧ suspended (point c))
      ∧ (∀ d c e, d ∈ inputs p -> calls !! d = Some c -> point c ≠ Threw e)
  | Fulfilled results =>
      Forall2 (λ d r, ∃ c, calls !! d = Some c ∧ point c = Returned r)
        (inputs p) results
  | Rejected e =>
      ∃ d c, d ∈ inputs p ∧ calls !! d = Some c ∧ point c = Threw e
  end.

Record AllsInv (rt : Runtime) : Prop := {
  inputs_bound : ∀ t p d,
    alls rt !! t = Some p -> d ∈ inputs p -> d < length (posts rt);
  outcomes_ok : ∀ t p, alls rt !! t = Some p -> outcome_ok (posts rt) p
}.

(** The events of a call after its request, once [fetch] resolved with
    [result]: the settlement, the calls of the first [n] observers, then
    only settlements of what the observers returned. *)
Definition resolved_trail (d : nat) (c : PostCall) (result : Response)
    (tail : list Event) : Prop :=
  ∃ n settles,
    tail = FetchSettled d (Resolves result)
           :: invocations d c result n ++ settles
    ∧ Forall is_observer_settled settles.

Definition trail (d : nat) (c : PostCall) (tail : list Event) : Prop :=
  match point c with
  | AtFetch => tail = []
  | AtObservers result _ | Returned result => resolved_trail d c result tail
  | Threw e =>
      tail = [FetchSettled d (Rejects e)]
      ∨ ∃ result, resolved_trail d c result tail
  end.

Record LogInv (rt : Runtime) : Prop := {
  log_bound : ∀ ev, ev ∈ log rt -> delivery ev < length (posts rt);
  histories : ∀ d c, posts rt !! d = Some c ->
    ∃ options tail,
      history d (log rt) = Fetch d (target c) options :: tail
      ∧ trail d c tail
}.

Definition Inv (rt : Runtime) : Prop := AllsInv rt ∧ LogInv rt.

(** The configuration of the receiver is the same after a turn, and the
    two lists only grow at the end. *)
Definition same_configuration (c1 c2 : WebhookClient) : Prop :=
  api_version c2 = api_version c1 ∧ secret c2 = secret c1
  ∧ mode c2 = mode c1 ∧ name c2 = name c1
  ∧ hooks c1 `prefix_of` hooks c2
  ∧ internalEvent c1 `prefix_of` internalEvent c2.

(** What a call of [post] still waits for, or why it threw: a call
    suspended at [await Promise.all(...)] has a pending element, and each
    pending element is the promise an observer returned and nothing has
    settled yet; a call that threw did so because [fetch] rejected, an
    observer threw, or the promise of an observer rejected. *)
Definition wait_ok (this : WebhookClient) (l : list Event) (d : nat)
    (c : PostCall) : Prop :=
  match point c with
  | AtFetch | Returned _ => True
  | AtObservers result ws =>
      (∃ k, ws !! k = Some Pending)
      ∧ Forall (λ w, w = Pending ∨ w = Fulfilled tt) ws
      ∧ ∀ k, ws !! k = Some Pending ->
             (∀ o, ObserverSettled d k o ∉ l)
             ∧ Observer d k (target c) (hookData c) result ∈ l
             ∧ ∃ cb, internalEvent this !! k = Some cb
                     ∧ cb (target c) (hookData c) result = ReturnsPromise
  | Threw e =>
      FetchSettled d (Rejects e) ∈ l
      ∨ (∃ k cb result,
           internalEvent this !! k = Some cb
           ∧ Observer d k (target c) (hookData c) result ∈ l
           ∧ cb (target c) (hookData c) result = Throws e)
      ∨ (∃ k, ObserverSettled d k (Rejects e) ∈ l)
  end.

Definition WaitInv (rt : Runtime) : Prop :=
  ∀ d c, posts rt !! d = Some c -> wait_ok (this rt) (log rt) d c.

(** What a call of [post] has waited for: for each observer that was
    called for it and returned a promise, the call is still suspended on
    that promise, or the promise was fulfilled, which the log shows, or
    the call ended with an exception.  So a call that returned has seen
    every one of these promises fulfilled. *)
Definition awaited_ok (this : WebhookClient) (l : list Event) (d : nat)
    (c : PostCall) : Prop :=
  ∀ k result cb,
    Observer d k (target c) (hookData c) result ∈ l ->
    internalEvent this !! k = Some cb ->
    cb (target c) (hookData c) result = ReturnsPromise ->
    match point c with
    | AtFetch => False
    | AtObservers _ ws =>
        ws !! k = Some Pending ∨ ObserverSettled d k (Resolves tt) ∈ l
    | Returned _ => ObserverSettled d k (Resolves tt) ∈ l
    | Threw _ => True
    end.

(** Every observer called is registered, a settlement in the log is that
    of the promise of an observer that was called, and every call of
    [post] has waited as above. *)
Record AwaitInv (rt : Runtime) : Prop := {
  observer_bound : ∀ d k u b r,
    Observer d k u b r ∈ log rt -> k < length (internalEvent (this rt));
  settled_called : ∀ d k o,
    ObserverSettled d k o ∈ log rt -> ∃ u b r, Observer d k u b r ∈ log rt;
  awaited : ∀ d c,
    posts rt !! d = Some c -> awaited_ok (this rt) (log rt) d c
}.

(** ** A sample host and sample runs *)

(** A host to run the definitions on: the [n]-th identifier is ["uuid-n"],
    the clock advances by a millisecond per reading, the serialisation
    lists the fields in the order of the object literal, and the digest
    (not HMAC-SHA256, which no proof below relies on) pairs key and
    message. *)
Definition sample_stringify (b : Body.t) : string :=
  "{idempotency_key:" +:+ Body.idempotency_key b
  +:+ ",api_version:" +:+ Body.api_version b
  +:+ ",type:" +:+ Body.type b
  +:+ ",id:" +:+ Body.id b
  +:+ ",created:" +:+ pretty (Body.created b) +:+ "}".

Definition sample_host : Host :=
  {| createHmac_sha256_hex := λ secret body, secret +:+ "/" +:+ body;
     uuidv4 := λ n, "uuid-" +:+ pretty n;
     Date_now := λ n, (1648135876829 + Z.of_nat n)%Z;
     JSON_stringify := λ _ b, sample_stringify b |}.

Definition sample_props (name : option string) : WebhooksProps.t :=
  {| WebhooksProps.api_version := "2020-08-27";
     WebhooksProps.secret := "this-is-a-secret";
     WebhooksProps.hooks :=
       Some [ {| url := "https://a.example"; events := None |};
              {| url := "https://b.example";
                 events := Some ["did_something"] |};
              {| url := "https://c.example";
                 events := Some ["something_else"] |} ];
     WebhooksProps.mode := None;
     WebhooksProps.name := name |}.

(** The client of [test/dispatch.test.ts]: no hook, no name. *)
Definition test_props : WebhooksProps.t :=
  {| WebhooksProps.api_version := "2020-08-27";
     WebhooksProps.secret := "this-is-a-secret";
     WebhooksProps.hooks := None;
     WebhooksProps.mode := None;
     WebhooksProps.name := None |}.

Definition sample_data : OmitBody.t :=
  {| OmitBody.idempotency_key := "key";
     OmitBody.api_version := "2020-08-27";
     OmitBody.type := "did_something";
     OmitBody.data := Some (JObject [("name", JString "John Doe");
                                     ("age", JNumber 42)]) |}.

Definition sample_response : Response := {| status := 200; statusText := "OK" |}.

(** An observer that returns a promise, and one that returns nothing. *)
Definition async_observer : onDoneCallback := λ _ _ _, ReturnsPromise.
Definition plain_observer : onDoneCallback := λ _ _ _, ReturnsVoid.

(** ** [createSecret] *)

(** A number of the language is an IEEE 754 double: 53 bits of precision,
    exponents below 1024.  [valid_binary prec emax] holds of the numbers a
    program can have: the mantissa of a finite one is in canonical form. *)
Definition number := spec_float.
Definition prec : Z := 53.
Definition emax : Z := 1024.

(** The number that an integer literal or an integer-valued property such
    as [chars.length] denotes. *)
Definition number_of_Z (z : Z) : number := binary_normalize prec emax z 0 false.

(** [x * y] *)
Definition multiply (x y : number) : number := SFmul prec emax x y.

(** [Math.floor(x)]: a number without fraction is its own floor; the
    others are shifted, which rounds down also when negative. *)
Definition Math_floor (x : number) : number :=
  match x with
  | S754_finite s m e =>
      if (0 <=? e)%Z then x
      else binary_normalize prec emax
             (Z.shiftr (cond_Zopp s (Zpos m)) (- e)) 0 s
  | _ => x
  end.

(** [ToIntegerOrInfinity(x)], which [charAt] applies to its argument: [NaN]
    and the zeros give 0, a finite number is truncated, and [None] stands
    for the two infinities. *)
Definition ToIntegerOrInfinity (x : number) : option Z :=
  match x with
  | S754_nan | S754_zero _ => Some 0%Z
  | S754_infinity _ => None
  | S754_finite s m e =>
      Some (cond_Zopp s (if (0 <=? e)%Z then Z.shiftl (Zpos m) e
                         else Z.shiftr (Zpos m) (- e)))
  end.

(** [Math.random()]: the [n]-th call returns a number; the host promises
    [0 <= Math.random() < 1]. *)
Definition Random := nat -> number.

Definition in_unit_interval (x : number) : Prop :=
  valid_binary prec emax x = true
  ∧ SFleb (S754_zero false) x = true
  ∧ SFltb x (number_of_Z 1) = true.

(** The constant [chars] of [createSecret]. *)
Definition chars : string :=
  "abcdefghijklmnopqrstuvwxyzABCDEFGHIJKLMNOPQRSTUVWXYZ0123456789".

(** [s.charAt(pos)]: the character at the index [pos] denotes, as a
    string; the empty string when that is no index of [s]. *)
Definition charAt (s : string) (pos : number) : string :=
  match ToIntegerOrInfinity pos with
  | Some i =>
      if (i <? 0)%Z then EmptyString
      else match String.get (Z.to_nat i) s with
           | Some c => String c EmptyString
           | None => EmptyString
           end
  | None => EmptyString
  end.

(** [Math.floor(Math.random() * chars.length)] at the call [calls] of
    [Math.random]. *)
Definition random_index (Math_random : Random) (calls : nat) : number :=
  Math_floor
    (multiply (Math_random calls)
       (number_of_Z (Z.of_nat (String.length chars)))).

(** The counter [i] of the loop takes the values 0, 1, 2, ..., which are
    numbers without rounding up to [2^53]; it is kept as an integer.
    [i < x] compares it with the number [x]; the comparison of two numbers
    is exact, and false when one of them is [NaN]. *)
Definition less_than (i : Z) (x : number) : bool :=
  match x with
  | S754_nan => false
  | S754_infinity s => negb s
  | S754_zero _ => (i <? 0)%Z
  | S754_finite s m e =>
      if (0 <=? e)%Z then (i <? cond_Zopp s (Zpos m) * 2 ^ e)%Z
      else (i * 2 ^ (- e) <? cond_Zopp s (Zpos m))%Z
  end.

(** [i++]: exact below [2^53]; [2^53 + 1] is no number and rounds to
    [2^53], where the counter stays. *)
Definition increment (i : Z) : Z :=
  if (i <? 2 ^ 53)%Z then (i + 1)%Z else i.

(** What a call of [createSecret] comes to: it returns the secret (here
    with the number of calls of [Math.random] made so far), or the
    concatenation throws because the string would be longer than the
    implementation allows, or the loop is still running. *)
Inductive Outcome :=
| Returns (secret : string) (calls : nat)
| RangeError
| Running.

Definition returns_secret (o : Outcome) : Prop :=
  match o with Returns _ _ => True | _ => False end.

(** The [for] loop from the counter [i] and the call [calls] of
    [Math.random] on.  The loop need not end: [fuel] bounds the number of
    tests of [i < length], and [Running] is a loop that has not ended when
    it is spent.  [max_length] is the greatest length of a string in the
    implementation. *)
Fixpoint createSecret_loop (Math_random : Random) (max_length : Z)
    (fuel : nat) (length : number) (i : Z) (calls : nat) (secret : string)
    : Outcome :=
  match fuel with
  | 0 => Running
  | S fuel' =>
      if less_than i length
      then
        let secret' :=
          secret +:+ charAt chars (random_index Math_random calls) in
        if (Z.of_nat (String.length secret') <=? max_length)%Z
        then createSecret_loop Math_random max_length fuel' length
               (increment i) (S calls) secret'
        else RangeError
      else Returns secret calls
  end.

(** [createSecret(length = 32)]: the default stands in for an argument
    that is [undefined]. *)
Definition createSecret (Math_random : Random) (max_length : Z)
    (fuel calls : nat) (length : option number) : Outcome :=
  createSecret_loop Math_random max_length fuel
    (default (number_of_Z 32) length) 0 calls EmptyString.

(** How many integers [i >= 0] are below the number [x]: [x] rounded up for
    a positive finite [x], none for the others but [+Infinity]. *)
Definition iterations (x : number) : Z :=
  match x with
  | S754_finite false m e =>
      if (0 <=? e)%Z then (Zpos m * 2 ^ e)%Z
      else ((Zpos m + 2 ^ (- e) - 1) / 2 ^ (- e))%Z
  | _ => 0%Z
  end.

(** The secret after [count] more draws. *)
Fixpoint drawn (Math_random : Random) (count calls : nat) (secret : string)
    : string :=
  match count with
  | 0 => secret
  | S count' =>
      drawn Math_random count' (S calls)
        (secret +:+ charAt chars (random_index Math_random calls))
  end.

(** Generators to run [createSecret] on: the [n]-th draw is
    [(7 n mod 64) / 64], and the draw [2397077221019780 / 2^52]. *)
Definition sample_random : Random :=
  λ n, binary_normalize prec emax (Z.of_nat ((7 * n) `mod` 64)) (-6) false.

Definition rounding_random : Random :=
  λ _, S754_finite false 4794154442039560 (-53).

(** ** Shifts of a mantissa *)

(** Twice the value a shift record stands for, without the sticky bit. *)
Definition shr_value (mrs : shr_record) : Z :=
  (2 * shr_m mrs + (if shr_r mrs then 1 else 0))%Z.

(** ** The requests of a whole run *)

(** The second argument of [fetch] in the call [d] of [post], for its
    envelope: [JSON.stringify] is at its call [d] then. *)
Definition request_options (H : Host) (this : WebhookClient) (d : nat)
    (envelope : Body.t) : Options :=
  let body := JSON_stringify H d envelope in
  {| method := "POST";
     headers :=
       <[signature_header (name this) := getSignature H (secret this) body]>
         (<["X-Environment" := Environment_string (mode this)]>
            (<["Content-Type" := "application/json"]> ∅));
     body := body |}.

Definition is_request (ev : Event) : bool :=
  match ev with Fetch _ _ _ => true | _ => false end.

Definition is_fetch_settled (ev : Event) : bool :=
  match ev with FetchSettled _ _ => true | _ => false end.

Definition is_observer_call (k : nat) (ev : Event) : bool :=
  match ev with Observer _ j _ _ _ => bool_decide (j = k) | _ => false end.

(** Each call of [post] draws two identifiers (the caller's
    [idempotency_key], then its [id]), reads the clock once and serialises
    once; every request logged is the one of its call. *)
Record SentInv (H : Host) (rt : Runtime) : Prop := {
  calls_per_post :
    uuid_calls rt = 2 * length (posts rt)
    ∧ now_calls rt = length (posts rt)
    ∧ stringify_calls rt = length (posts rt);
  envelope_of_call : ∀ d c,
    posts rt !! d = Some c ->
    Body.idempotency_key (hookData c) = uuidv4 H (2 * d)
    ∧ Body.id (hookData c) = uuidv4 H (2 * d + 1)
    ∧ Body.created (hookData c) = Date_now H d
    ∧ Body.api_version (hookData c) = api_version (this rt);
  request_of_call : ∀ d u o,
    Fetch d u o ∈ log rt ->
    ∃ c, posts rt !! d = Some c ∧ u = target c
         ∧ o = request_options H (this rt) d (hookData c)
}.

(** ** The [hooks] array as an object shared with the caller *)

(** Arrays are objects: the constructor stores the array it is given
    ([this.hooks = hooks]), not a copy, and [add] pushes onto that array.
    Here the arrays of hooks live in a store, by address; the default
    [hooks = []] makes a new array on each call of the constructor. *)
Abbreviation Store := (list (list Hook)).

(** A client whose [hooks] field is the address of its array; the other
    fields are those of [other_fields], whose own [hooks] is not read. *)
Record SharedClient := {
  hooks_ref : nat;
  other_fields : WebhookClient
}.

(** [new WebhookClient({..., hooks})], [hooks] being the address of the
    caller's array or absent. *)
Definition new_WebhookClient (σ : Store) (props : WebhooksProps.t)
    (hooks : option nat) : SharedClient * Store :=
  match hooks with
  | Some a => ({| hooks_ref := a; other_fields := constructor props |}, σ)
  | None =>
      ({| hooks_ref := length σ; other_fields := constructor props |},
       σ ++ [[]])
  end.

(** [this.hooks.push(hook)] *)
Definition shared_add (σ : Store) (this : SharedClient) (url : string)
    (events : option (list EventType)) : Store :=
  let hook := {| url := url; events := events |} in
  alter (λ arr, Array_push arr hook) (hooks_ref this) σ.

(** [this.hooks.filter(...)] *)
Definition shared_getWebhooks (σ : Store) (this : SharedClient)
    (event : EventType) : list Hook :=
  Array_filter (wants event) (default [] (σ !! hooks_ref this)).

(** The client as the class sees it: its fields, with the array read
    from the store. *)
Definition view (σ : Store) (this : SharedClient) : WebhookClient :=
  {| hooks := default [] (σ !! hooks_ref this);
     secret := secret (other_fields this);
     name := name (other_fields this);
     mode := mode (other_fields this);
     api_version := api_version (other_fields this);
     internalEvent := internalEvent (other_fields this) |}.

(** * Lemmas *)

(** ** Properties of the helpers and of the registry *)

Lemma Array_filter_acc {A} (f : A -> bool) (arr acc : list A) :
  fold_left (fun out x => if f x then out ++ [x] else out) arr acc
  = acc ++ Array_filter f arr.
Proof.
  unfold Array_filter. revert acc.
  induction arr as [|x arr IH]; intros acc; simpl.
  - by rewrite app_nil_r.
  - destruct (f x).
    + rewrite (IH (acc ++ [x])), (IH [x]). by rewrite <- app_assoc.
    + apply IH.
Qed.

Lemma Array_filter_cons {A} (f : A -> bool) (x : A) (arr : list A) :
  Array_filter f (x :: arr)
  = if f x then x :: Array_filter f arr else Array_filter f arr.
Proof.
  unfold Array_filter at 1. simpl. destruct (f x).
  - by rewrite Array_filter_acc.
  - done.
Qed.

Lemma Array_includes_spec (arr : list string) (x : string) :
  Array_includes arr x = true ↔ x ∈ arr.
Proof.
  unfold Array_includes. rewrite existsb_exists. split.
  - intros (y & Hin & Heq). apply String.eqb_eq in Heq. subst y.
    by apply list_elem_of_In.
  - intros Hin. exists x. split; [by apply list_elem_of_In|].
    apply String.eqb_refl.
Qed.

Lemma wants_spec (event : EventType) (h : Hook) :
  wants event h = true ↔ interested event h.
Proof.
  unfold wants, interested. destruct (events h) as [evs|] eqn:E.
  - rewrite Array_includes_spec. split.
    + intros Hin. right. by exists evs.
    + intros [Hn | (evs' & Hs & Hin)]; [done|]. by simplify_eq.
  - split; [by left | done].
Qed.

Lemma selects_functional (P : Hook -> Prop) (reg out1 out2 : list Hook) :
  selects P reg out1 -> selects P reg out2 -> out1 = out2.
Proof.
  intros H1. revert out2.
  induction H1 as [|h reg out Hp _ IH|h reg out Hn _ IH];
    intros out2 H2; inversion H2; subst; try done.
  - f_equal. by apply IH.
  - by apply IH.
Qed.

Lemma Array_filter_selects (event : EventType) (reg : list Hook) :
  selects (interested event) reg (Array_filter (wants event) reg).
Proof.
  induction reg as [|h reg IH].
  - constructor.
  - rewrite Array_filter_cons. destruct (wants event h) eqn:E.
    + apply selects_keep; [by apply wants_spec | done].
    + apply selects_skip; [|done].
      intros Hi. apply wants_spec in Hi. congruence.
Qed.

(** ** [trigger] in closed form *)

Lemma Runtime_eta (rt : Runtime) :
  rt = {| this := this rt; uuid_calls := uuid_calls rt;
          now_calls := now_calls rt; stringify_calls := stringify_calls rt;
          posts := posts rt; alls := alls rt; log := log rt |}.
Proof. by destruct rt. Qed.

Lemma trigger_callback_eq (H : Host) (type : EventType)
    (data : option JSValue) (h : Hook) (rt : Runtime) :
  trigger_callback H type data h rt
  = (length (posts rt),
     {| this := this rt;
        uuid_calls := S (S (uuid_calls rt));
        now_calls := S (now_calls rt);
        stringify_calls := S (stringify_calls rt);
        posts := posts rt ++ [built_call H rt type data 0 h];
        alls := alls rt;
        log := log rt ++ [built_fetch H rt type data 0 h] |}).
Proof.
  unfold trigger_callback, post, built_call, built_fetch, built_options,
    built_envelope, mbind, Run_bind; simpl.
  by rewrite !Nat.add_0_r, Nat.add_1_r.
Qed.

Lemma built_envelope_shift (H : Host) (rt rt' : Runtime) (type : EventType)
    (data : option JSValue) (i : nat) :
  this rt' = this rt ->
  uuid_calls rt' = S (S (uuid_calls rt)) ->
  now_calls rt' = S (now_calls rt) ->
  built_envelope H rt' type data i = built_envelope H rt type data (S i).
Proof.
  intros Ht Hu Hn. unfold built_envelope. rewrite Ht, Hu, Hn.
  f_equal; f_equal; lia.
Qed.

Lemma built_options_shift (H : Host) (rt rt' : Runtime) (type : EventType)
    (data : option JSValue) (i : nat) :
  this rt' = this rt ->
  uuid_calls rt' = S (S (uuid_calls rt)) ->
  now_calls rt' = S (now_calls rt) ->
  stringify_calls rt' = S (stringify_calls rt) ->
  built_options H rt' type data i = built_options H rt type data (S i).
Proof.
  intros Ht Hu Hn Hs. unfold built_options.
  rewrite (built_envelope_shift H rt rt') by done.
  rewrite Ht, Hs.
  by replace (S (stringify_calls rt) + i) with (stringify_calls rt + S i)
    by lia.
Qed.

Lemma trigger_mapM (H : Host) (type : EventType) (data : option JSValue)
    (ws : list Hook) (rt : Runtime) :
  mapM (trigger_callback H type data) ws rt
  = (seq (length (posts rt)) (length ws),
     {| this := this rt;
        uuid_calls := uuid_calls rt + 2 * length ws;
        now_calls := now_calls rt + length ws;
        stringify_calls := stringify_calls rt + length ws;
        posts := posts rt ++ imap (built_call H rt type data) ws;
        alls := alls rt;
        log := log rt ++ imap (built_fetch H rt type data) ws |}).
Proof.
  revert rt. induction ws as [|h ws IH]; intros rt.
  - simpl. rewrite !Nat.add_0_r, !app_nil_r. unfold mret, Run_ret.
    f_equal. apply Runtime_eta.
  - change (mapM (trigger_callback H type data) (h :: ws) rt)
      with (let r1 := trigger_callback H type data h rt in
            let r2 := mapM (trigger_callback H type data) ws r1.2 in
            (r1.1 :: r2.1, r2.2)).
    rewrite trigger_callback_eq. cbv zeta. rewrite IH. simpl.
    rewrite length_app, Nat.add_1_r. f_equal.
    rewrite <- !app_assoc. simpl.
    f_equal; try lia.
    + f_equal. f_equal. apply imap_ext. intros i x _.
      unfold compose, built_call. f_equal.
      by apply built_envelope_shift.
    + f_equal. f_equal. apply imap_ext. intros i x _.
      unfold compose, built_fetch. simpl. rewrite length_app. simpl.
      f_equal; [lia|]. by apply built_options_shift.
Qed.

Lemma trigger_eq (H : Host) (type : EventType) (data : option JSValue)
    (rt : Runtime) :
  let ws := (getWebhooks (this rt) type).1 in
  trigger H type data rt
  = (length (alls rt),
     {| this := this rt;
        uuid_calls := uuid_calls rt + 2 * length ws;
        now_calls := now_calls rt + length ws;
        stringify_calls := stringify_calls rt + length ws;
        posts := posts rt ++ imap (built_call H rt type data) ws;
        alls := alls rt
                ++ [{| inputs := seq (length (posts rt)) (length ws);
                       outcome := match ws with
                                  | [] => Fulfilled []
                                  | _ :: _ => Pending
                                  end |}];
        log := log rt ++ imap (built_fetch H rt type data) ws |}).
Proof.
  intros ws. unfold trigger, mbind, Run_bind. simpl.
  change (Array_filter (wants type) (hooks (this rt))) with ws.
  rewrite <- (Runtime_eta rt).
  rewrite trigger_mapM. simpl. unfold Promise_all. simpl.
  do 4 f_equal. by destruct ws.
Qed.

Lemma envelopes_trigger (H : Host) (type : EventType)
    (data : option JSValue) (rt : Runtime) :
  envelopes rt (trigger H type data rt).2
  = imap (λ i _, built_envelope H rt type data i)
      (getWebhooks (this rt) type).1.
Proof.
  rewrite trigger_eq. unfold envelopes. simpl.
  rewrite drop_app_length. rewrite fmap_imap. done.
Qed.

Lemma requests_of_fetches (f : nat -> nat) (o : nat -> Options)
    (ws : list Hook) :
  omap (λ ev, match ev with
              | Fetch d url options => Some (d, url, options)
              | _ => None
              end) (imap (λ i h, Fetch (f i) (url h) (o i)) ws)
  = imap (λ i h, (f i, url h, o i)) ws.
Proof.
  revert f o. induction ws as [|h ws IH]; intros f o; [done|].
  simpl. f_equal. apply (IH (f ∘ S) (o ∘ S)).
Qed.

Lemma requests_trigger (H : Host) (type : EventType)
    (data : option JSValue) (rt : Runtime) :
  requests rt (trigger H type data rt).2
  = imap (λ i h, (length (posts rt) + i, url h,
                  built_options H rt type data i))
      (getWebhooks (this rt) type).1.
Proof.
  rewrite trigger_eq. unfold requests. simpl.
  rewrite drop_app_length.
  apply (requests_of_fetches (λ i, length (posts rt) + i)).
Qed.

(** ** [post] up to [await fetch] *)

Lemma post_eq (H : Host) (url : string) (data : OmitBody.t) (rt : Runtime) :
  let hookData :=
    {| Body.id := uuidv4 H (uuid_calls rt);
       Body.type := OmitBody.type data;
       Body.idempotency_key := OmitBody.idempotency_key data;
       Body.api_version := OmitBody.api_version data;
       Body.created := Date_now H (now_calls rt);
       Body.data := OmitBody.data data |} in
  let body := JSON_stringify H (stringify_calls rt) hookData in
  let options :=
    {| method := "POST";
       headers :=
         <[signature_header (name (this rt)) :=
             getSignature H (secret (this rt)) body]>
           (<["X-Environment" := Environment_string (mode (this rt))]>
              (<["Content-Type" := "application/json"]> ∅));
       body := body |} in
  post H url data rt
  = (length (posts rt),
     {| this := this rt;
        uuid_calls := S (uuid_calls rt);
        now_calls := S (now_calls rt);
        stringify_calls := S (stringify_calls rt);
        posts := posts rt ++ [{| target := url; hookData := hookData;
                                 point := AtFetch |}];
        alls := alls rt;
        log := log rt ++ [Fetch (length (posts rt)) url options] |}).
Proof. reflexivity. Qed.

Lemma signature_header_cases (name : option string) :
  signature_header name
  = match name with
    | Some (String a s) => "X-" +:+ String a s +:+ "-Signature"
    | Some EmptyString | None => "X-Signature"
    end.
Proof. by destruct name as [[|a s]|]. Qed.

Lemma built_envelope_lookup (H : Host) (rt : Runtime) (type : EventType)
    (data : option JSValue) (ws : list Hook) (i : nat) (b : Body.t) :
  imap (λ i _, built_envelope H rt type data i) ws !! i = Some b ->
  i < length ws ∧ b = built_envelope H rt type data i.
Proof.
  rewrite list_lookup_imap. intros Hb.
  destruct (ws !! i) as [h|] eqn:E; simplify_eq/=.
  split; [by eapply lookup_lt_Some | done].
Qed.

Lemma NoDup_fmap_seq_inj {A} (f : nat -> A) (start len a b : nat) :
  NoDup (f <$> seq start len) ->
  start ≤ a < start + len -> start ≤ b < start + len ->
  f a = f b -> a = b.
Proof.
  intros Hnd Ha Hb Heq.
  assert (∀ x, start ≤ x < start + len ->
               (f <$> seq start len) !! (x - start) = Some (f x)) as Hl.
  { intros x Hx. rewrite list_lookup_fmap, lookup_seq_lt by lia.
    simpl. f_equal. f_equal. lia. }
  pose proof (Hl a Ha) as Hx. pose proof (Hl b Hb) as Hy.
  rewrite Heq in Hx.
  pose proof (NoDup_lookup _ _ _ _ Hnd Hx Hy). lia.
Qed.

(** ** The turns of the event loop in closed form *)

Lemma map_callbacks_eq (d : nat) (url : string) (b : Body.t) (r : Response)
    (k : nat) (cbs : list onDoneCallback) (rt : Runtime) :
  map_callbacks d url b r k cbs rt
  = (callback_results url b r cbs,
     {| this := this rt;
        uuid_calls := uuid_calls rt; now_calls := now_calls rt;
        stringify_calls := stringify_calls rt;
        posts := posts rt; alls := alls rt;
        log := log rt ++ ((λ j, Observer d j url b r)
                            <$> seq k (invoked url b r cbs)) |}).
Proof.
  revert k rt. induction cbs as [|cb cbs IH]; intros k rt.
  - simpl. rewrite app_nil_r. unfold mret, Run_ret. f_equal.
    apply Runtime_eta.
  - simpl. unfold mbind, Run_bind. simpl.
    destruct (cb url b r) eqn:E; simpl.
    + done.
    + rewrite IH. simpl. unfold mret, Run_ret. simpl.
      by rewrite <- app_assoc.
    + rewrite IH. simpl. unfold mret, Run_ret. simpl.
      by rewrite <- app_assoc.
Qed.

Lemma moved_log (rt : Runtime) (d : nat) (k : Continuation)
    (evs : list Event) :
  moved {| this := this rt;
           uuid_calls := uuid_calls rt; now_calls := now_calls rt;
           stringify_calls := stringify_calls rt;
           posts := posts rt; alls := alls rt;
           log := log rt ++ evs |} d k []
  = moved rt d k evs.
Proof. unfold moved. simpl. by rewrite app_nil_r. Qed.

Lemma finish_eq (d : nat) (k : Continuation) (rt : Runtime) :
  settled k = true -> finish d k rt = (tt, moved rt d k []).
Proof.
  intros Hk. unfold finish, moved, mbind, Run_bind. simpl.
  by rewrite Hk, app_nil_r.
Qed.

Lemma await_all_eq (d : nat) (result : Response)
    (ws : list (PromiseState unit)) (rt : Runtime) :
  await_all d result ws rt
  = (tt, moved rt d (after_callbacks result (inr ws)) []).
Proof.
  unfold await_all. simpl. destruct (forallb is_fulfilled ws).
  - by apply finish_eq.
  - unfold set_point, moved. simpl. by rewrite app_nil_r.
Qed.

Lemma resume_fetch_eq (d : nat) (o : Settled Response) (rt : Runtime)
    (c : PostCall) :
  posts rt !! d = Some c -> point c = AtFetch ->
  (resume_fetch d o rt).2
  = moved rt d (after_fetch (this rt) c o) (fetch_events (this rt) d c o).
Proof.
  intros Hc Hp. unfold resume_fetch. rewrite Hc, Hp.
  unfold mbind, Run_bind, after_fetch, fetch_events.
  destruct o as [result|e].
  - rewrite map_callbacks_eq. cbn [fst snd emit read this log].
    destruct (callback_results _ _ _ _) as [e|ws] eqn:E.
    + rewrite finish_eq by done. unfold moved, invocations.
      cbn. by rewrite app_nil_r, <- app_assoc.
    + rewrite await_all_eq. unfold moved, invocations.
      cbn. by rewrite app_nil_r, <- app_assoc.
  - rewrite finish_eq by done. cbn [fst snd emit].
    by rewrite moved_log.
Qed.

Lemma resume_fetch_skip (d : nat) (o : Settled Response) (rt : Runtime) :
  (∀ c, posts rt !! d = Some c -> point c ≠ AtFetch) ->
  (resume_fetch d o rt).2 = rt.
Proof.
  intros Hn. unfold resume_fetch.
  destruct (posts rt !! d) as [c|] eqn:Hc; [|done].
  specialize (Hn c eq_refl). by destruct (point c).
Qed.

Lemma resume_observer_eq (d k : nat) (o : Settled unit) (rt : Runtime)
    (c : PostCall) (result : Response) (ws : list (PromiseState unit)) :
  posts rt !! d = Some c -> point c = AtObservers result ws ->
  ws !! k = Some Pending ->
  (resume_observer d k o rt).2
  = moved rt d (after_observer result ws k o) [ObserverSettled d k o].
Proof.
  intros Hc Hp Hk. unfold resume_observer. rewrite Hc, Hp, Hk.
  unfold mbind, Run_bind, after_observer. destruct o as [[]|e].
  - rewrite await_all_eq. cbn [fst snd emit]. by rewrite moved_log.
  - rewrite finish_eq by done. cbn [fst snd emit]. by rewrite moved_log.
Qed.

Lemma resume_observer_skip (d k : nat) (o : Settled unit) (rt : Runtime) :
  (∀ c result ws, posts rt !! d = Some c ->
                  point c = AtObservers result ws ->
                  ws !! k ≠ Some Pending) ->
  (resume_observer d k o rt).2 = rt.
Proof.
  intros Hn. unfold resume_observer.
  destruct (posts rt !! d) as [c|] eqn:Hc; [|done].
  destruct (point c) as [|result ws| |] eqn:Hp; try done.
  specialize (Hn c result ws eq_refl Hp).
  destruct (ws !! k) as [[| |]|]; done.
Qed.

(** ** [Promise.all] under the turns of the event loop *)

Lemma inputs_react (calls : list PostCall) (d : nat) (p : PromiseAll) :
  inputs (Promise_all_react calls d p) = inputs p.
Proof.
  unfold Promise_all_react. case_bool_decide; [|done].
  destruct (outcome p); try done.
  destruct (point <$> calls !! d) as [[| | |]|]; try done.
  by destruct (mapM _ _).
Qed.

Lemma outcome_ok_ext (calls calls' : list PostCall) (p : PromiseAll) :
  (∀ d, d ∈ inputs p -> calls' !! d = calls !! d) ->
  outcome_ok calls p -> outcome_ok calls' p.
Proof.
  intros Hext. unfold outcome_ok. destruct (outcome p) as [|rs|e].
  - intros [(d & c & Hd & Hc & Hs) Hno]. split.
    + exists d, c. by rewrite Hext.
    + intros d' c' e Hd' Hc'. rewrite Hext in Hc' by done. by eapply Hno.
  - rewrite !Forall2_same_length_lookup. intros [Hlen HF].
    split; [done|]. intros i d r Hd Hr.
    destruct (HF i d r Hd Hr) as (c & Hc & Hp). exists c.
    rewrite Hext; [done|]. by eapply list_elem_of_lookup_2.
  - intros (d & c & Hd & Hc & Hp). exists d, c. by rewrite Hext.
Qed.

Lemma lookup_alter_point (calls : list PostCall) (d i : nat)
    (k : Continuation) :
  alter (at_point k) d calls !! i
  = if decide (d = i) then at_point k <$> calls !! i else calls !! i.
Proof.
  case_decide as E.
  - subst. apply list_lookup_alter_eq.
  - by apply list_lookup_alter_ne.
Qed.

Lemma outcome_ok_moved (calls : list PostCall) (d : nat) (c : PostCall)
    (k : Continuation) (p : PromiseAll) :
  calls !! d = Some c -> suspended (point c) ->
  (∀ i, i ∈ inputs p -> i < length calls) ->
  outcome_ok calls p ->
  outcome_ok (alter (at_point k) d calls)
    (if settled k
     then Promise_all_react (alter (at_point k) d calls) d p
     else p).
Proof.
  intros Hc Hs Hb Hok.
  set (calls' := alter (at_point k) d calls).
  assert (calls' !! d = Some (at_point k c)) as Hd'.
  { unfold calls'. rewrite lookup_alter_point, decide_True by done.
    by rewrite Hc. }
  assert (∀ i, i ≠ d -> calls' !! i = calls !! i) as Hne.
  { intros i Hi. unfold calls'.
    by rewrite lookup_alter_point, decide_False by done. }
  destruct (decide (d ∈ inputs p)) as [Hin|Hnin].
  2:{ assert (outcome_ok calls' p) as Hok'.
      { eapply outcome_ok_ext; [|exact Hok].
        intros i Hi. apply Hne. intros ->. done. }
      destruct (settled k); [|done].
      unfold Promise_all_react. by rewrite bool_decide_eq_false_2. }
  unfold outcome_ok in Hok.
  destruct (outcome p) as [|rs|e] eqn:Ho.
  - destruct Hok as [_ Hno].
    assert (∀ i ci e, i ∈ inputs p -> i ≠ d -> calls' !! i = Some ci ->
                      point ci ≠ Threw e) as Hno'.
    { intros i ci e Hi Hid Hci. rewrite Hne in Hci by done.
      by eapply Hno. }
    destruct k as [|result ws|result|e]; simpl.
    + unfold outcome_ok. rewrite Ho. split.
      * by exists d, (at_point AtFetch c).
      * intros i ci e Hi Hci. destruct (decide (i = d)) as [->|Hid].
        -- rewrite Hd' in Hci. by simplify_eq.
        -- by eapply Hno'.
    + unfold outcome_ok. rewrite Ho. split.
      * by exists d, (at_point (AtObservers result ws) c).
      * intros i ci e Hi Hci. destruct (decide (i = d)) as [->|Hid].
        -- rewrite Hd' in Hci. by simplify_eq.
        -- by eapply Hno'.
    + unfold Promise_all_react.
      rewrite bool_decide_eq_true_2, Ho, Hd' by done. simpl.
      destruct (mapM _ (inputs p)) as [rs|] eqn:Hm.
      * unfold outcome_ok. simpl. apply mapM_Some in Hm.
        eapply Forall2_impl; [exact Hm|]. simpl.
        intros i r Hi. destruct (calls' !! i) as [ci|]; [|done].
        exists ci. split; [done|]. unfold returned in Hi. simpl in Hi.
        destruct (point ci); by simplify_eq.
      * unfold outcome_ok. rewrite Ho.
        assert (¬ Forall (λ i, is_Some (calls' !! i ≫= returned))
                  (inputs p)) as Hnf.
        { intros HF. apply (mapM_is_Some_2 (λ i, calls' !! i ≫= returned))
            in HF. rewrite Hm in HF. by destruct HF. }
        apply not_Forall_Exists in Hnf; [|apply _].
        apply Exists_exists in Hnf. destruct Hnf as (i & Hi & Hnone).
        assert (i ≠ d) as Hid.
        { intros ->. apply Hnone. rewrite Hd'. by eexists. }
        pose proof (Hb i Hi) as Hlt.
        destruct (lookup_lt_is_Some_2 calls i Hlt) as [ci Hci].
        split.
        -- exists i, ci. rewrite Hne by done. split; [done|].
           split; [done|].
           destruct (point ci) as [| |r|e] eqn:Hp; try done.
           ++ exfalso. apply Hnone. rewrite Hne, Hci by done. simpl.
              unfold returned. rewrite Hp. by eexists.
           ++ exfalso. by eapply (Hno i ci e).
        -- intros j cj e Hj Hcj. destruct (decide (j = d)) as [->|Hjd].
           ++ rewrite Hd' in Hcj. by simplify_eq.
           ++ by eapply Hno'.
    + unfold Promise_all_react.
      rewrite bool_decide_eq_true_2, Ho, Hd' by done. simpl.
      unfold outcome_ok. simpl. by exists d, (at_point (Threw e) c).
  - exfalso.
    apply list_elem_of_lookup in Hin. destruct Hin as [j Hj].
    destruct (Forall2_lookup_l _ _ _ _ _ Hok Hj) as (r & _ & c' & Hc' & Hp).
    rewrite Hc in Hc'. simplify_eq. rewrite Hp in Hs. done.
  - destruct Hok as (d' & c' & Hd'in & Hc' & Hp').
    assert (d' ≠ d) as Hdd.
    { intros ->. rewrite Hc in Hc'. simplify_eq. by rewrite Hp' in Hs. }
    assert (outcome_ok calls' p) as Hok'.
    { unfold outcome_ok. rewrite Ho. exists d', c'. by rewrite Hne. }
    destruct (settled k); [|done].
    unfold Promise_all_react. rewrite bool_decide_eq_true_2, Ho by done.
    done.
Qed.

Lemma AllsInv_moved (rt : Runtime) (d : nat) (c : PostCall)
    (k : Continuation) (evs : list Event) :
  posts rt !! d = Some c -> suspended (point c) ->
  AllsInv rt -> AllsInv (moved rt d k evs).
Proof.
  intros Hc Hs [Hb Hok]. split; unfold moved; simpl.
  - intros t p i Ht Hi. rewrite length_alter.
    destruct (settled k).
    + rewrite list_lookup_fmap in Ht.
      destruct (alls rt !! t) as [p0|] eqn:Hp0; simplify_eq/=.
      rewrite inputs_react in Hi. by eapply Hb.
    + by eapply Hb.
  - intros t p Ht.
    assert (∃ p0, alls rt !! t = Some p0
                  ∧ p = if settled k
                        then Promise_all_react
                               (alter (at_point k) d (posts rt)) d p0
                        else p0) as (p0 & Hp0 & ->).
    { destruct (settled k).
      - rewrite list_lookup_fmap in Ht.
        destruct (alls rt !! t) as [p0|]; simplify_eq/=. by exists p0.
      - by exists p. }
    eapply outcome_ok_moved; eauto.
Qed.

Lemma AllsInv_trigger (H : Host) (type : EventType) (data : option JSValue)
    (rt : Runtime) :
  AllsInv rt -> AllsInv (trigger H type data rt).2.
Proof.
  intros [Hb Hok]. rewrite trigger_eq. simpl.
  set (ws := Array_filter (wants type) (hooks (this rt))).
  assert (∀ i, i ∈ seq (length (posts rt)) (length ws) ->
            ∃ h, (posts rt ++ imap (built_call H rt type data) ws) !! i
                 = Some (built_call H rt type data
                           (i - length (posts rt)) h)) as Hnew.
  { intros i Hi. apply elem_of_seq in Hi.
    rewrite lookup_app_r by lia. rewrite list_lookup_imap.
    destruct (lookup_lt_is_Some_2 ws (i - length (posts rt))) as [h Hh];
      [lia|].
    exists h. by rewrite Hh. }
  split; simpl.
  - intros t p d Ht Hd. rewrite length_app, length_imap.
    apply lookup_app_Some in Ht. destruct Ht as [Ht|[_ Ht]].
    + pose proof (Hb t p d Ht Hd). lia.
    + apply list_lookup_singleton_Some in Ht. destruct Ht as [_ <-].
      simpl in Hd. apply elem_of_seq in Hd. lia.
  - intros t p Ht.
    apply lookup_app_Some in Ht. destruct Ht as [Ht|[_ Ht]].
    + eapply outcome_ok_ext; [|by eapply Hok].
      intros d Hd. apply lookup_app_l. by eapply Hb.
    + apply list_lookup_singleton_Some in Ht. destruct Ht as [_ <-].
      unfold outcome_ok. simpl. destruct ws as [|h ws'] eqn:Ews.
      * simpl. constructor.
      * split.
        -- destruct (Hnew (length (posts rt))) as [h' Hh'].
           { apply elem_of_seq. simpl. lia. }
           eexists _, _. split; [|split; [exact Hh'|done]].
           apply elem_of_seq. simpl. lia.
        -- intros d c e Hd Hc. destruct (Hnew d Hd) as [h' Hh'].
           rewrite Hh' in Hc. by simplify_eq.
Qed.

(** ** The log under the turns of the event loop *)

Lemma history_app (d : nat) (l1 l2 : list Event) :
  history d (l1 ++ l2) = history d l1 ++ history d l2.
Proof. apply filter_app. Qed.

Lemma history_all (d : nat) (l : list Event) :
  Forall (λ ev, delivery ev = d) l -> history d l = l.
Proof.
  induction 1 as [|ev l Hev _ IH]; [done|].
  unfold history in *. by rewrite filter_cons_True, IH.
Qed.

Lemma history_none (d : nat) (l : list Event) :
  Forall (λ ev, delivery ev ≠ d) l -> history d l = [].
Proof.
  induction 1 as [|ev l Hev _ IH]; [done|].
  unfold history in *. by rewrite filter_cons_False.
Qed.

Lemma history_elem (d : nat) (l : list Event) (ev : Event) :
  ev ∈ history d l ↔ ev ∈ l ∧ delivery ev = d.
Proof. unfold history. rewrite list_elem_of_filter. tauto. Qed.

Lemma LogInv_push (rt rt' : Runtime) (c : PostCall) (options : Options) :
  posts rt' = posts rt ++ [c] ->
  log rt' = log rt ++ [Fetch (length (posts rt)) (target c) options] ->
  point c = AtFetch ->
  LogInv rt -> LogInv rt'.
Proof.
  intros Hposts Hlog Hp [Hb Hh]. split; rewrite Hposts, Hlog.
  - intros ev Hev. rewrite length_app. simpl.
    apply elem_of_app in Hev. destruct Hev as [Hev|Hev].
    + pose proof (Hb ev Hev). lia.
    + apply list_elem_of_singleton in Hev. subst. simpl. lia.
  - intros d c' Hc'. rewrite history_app.
    apply lookup_app_Some in Hc'. destruct Hc' as [Hc'|[Hge Hc']].
    + destruct (Hh d c' Hc') as (o & tail & Hhist & Htr).
      exists o, tail. split; [|done].
      rewrite (history_none d [_]), app_nil_r; [done|].
      constructor; [|constructor]. simpl.
      apply lookup_lt_Some in Hc'. lia.
    + apply list_lookup_singleton_Some in Hc'. destruct Hc' as [Hd <-].
      assert (d = length (posts rt)) as -> by lia.
      exists options, []. split.
      * rewrite (history_none _ (log rt)).
        -- rewrite history_all; [done|]. by constructor.
        -- apply Forall_forall. intros ev Hev. pose proof (Hb ev Hev). lia.
      * unfold trail. by rewrite Hp.
Qed.

Lemma LogInv_ext (rt rt' : Runtime) :
  posts rt' = posts rt -> log rt' = log rt -> LogInv rt -> LogInv rt'.
Proof. intros Hp Hl [Hb Hh]. split; rewrite Hp, Hl; done. Qed.

Lemma AllsInv_ext (rt rt' : Runtime) :
  posts rt' = posts rt -> alls rt' = alls rt -> AllsInv rt -> AllsInv rt'.
Proof. intros Hp Hl [Hb Hh]. split; rewrite Hp, Hl; done. Qed.

Lemma LogInv_trigger (H : Host) (type : EventType) (data : option JSValue)
    (rt : Runtime) :
  LogInv rt -> LogInv (trigger H type data rt).2.
Proof.
  intros Hinv. rewrite trigger_eq. simpl.
  generalize (Array_filter (wants type) (hooks (this rt))). intros ws.
  set (mk := λ ws, {| this := this rt;
                      uuid_calls := uuid_calls rt + 2 * length ws;
                      now_calls := now_calls rt + length ws;
                      stringify_calls := stringify_calls rt + length ws;
                      posts := posts rt ++ imap (built_call H rt type data) ws;
                      alls := alls rt;
                      log := log rt ++ imap (built_fetch H rt type data) ws |}).
  assert (LogInv (mk ws)) as Hmk.
  { induction ws as [|h ws IH] using rev_ind.
    - eapply LogInv_ext; [| |exact Hinv]; simpl; by rewrite app_nil_r.
    - eapply (LogInv_push (mk ws) _ (built_call H rt type data (length ws) h));
        [| |done|exact IH]; simpl.
      + rewrite imap_app. simpl. by rewrite app_assoc, Nat.add_0_r.
      + rewrite imap_app. simpl. rewrite app_assoc, Nat.add_0_r.
        unfold built_fetch, built_call. simpl.
        by rewrite length_app, length_imap. }
  eapply LogInv_ext; [| |exact Hmk]; done.
Qed.

Lemma LogInv_moved (rt : Runtime) (d : nat) (c : PostCall)
    (k : Continuation) (evs : list Event) :
  posts rt !! d = Some c ->
  Forall (λ ev, delivery ev = d) evs ->
  (∀ tail, trail d c tail -> trail d (at_point k c) (tail ++ evs)) ->
  LogInv rt -> LogInv (moved rt d k evs).
Proof.
  intros Hc Hevs Htrail [Hb Hh]. split; unfold moved; simpl.
  - intros ev Hev. rewrite length_alter.
    apply elem_of_app in Hev. destruct Hev as [Hev|Hev]; [by apply Hb|].
    rewrite Forall_forall in Hevs. rewrite (Hevs ev Hev).
    by eapply lookup_lt_Some.
  - intros i ci Hci. rewrite history_app.
    rewrite lookup_alter_point in Hci. case_decide as Hdi.
    + subst i. rewrite Hc in Hci. simplify_eq/=.
      destruct (Hh d c Hc) as (o & tail & Hhist & Htr).
      exists o, (tail ++ evs). rewrite Hhist, (history_all d evs) by done.
      split; [done|]. by apply Htrail.
    + destruct (Hh i ci Hci) as (o & tail & Hhist & Htr).
      exists o, tail. split; [|done].
      rewrite (history_none i evs), app_nil_r; [done|].
      eapply Forall_impl; [exact Hevs|]. simpl. intros ev ->. done.
Qed.

Lemma resolved_trail_start (d : nat) (c : PostCall) (result : Response)
    (n : nat) :
  resolved_trail d c result
    (FetchSettled d (Resolves result) :: invocations d c result n).
Proof. exists n, []. by rewrite app_nil_r. Qed.

Lemma resolved_trail_settle (d : nat) (c : PostCall) (result : Response)
    (tail : list Event) (k : nat) (o : Settled unit) :
  resolved_trail d c result tail ->
  resolved_trail d c result (tail ++ [ObserverSettled d k o]).
Proof.
  intros (n & settles & -> & HF).
  exists n, (settles ++ [ObserverSettled d k o]). split.
  - simpl. by rewrite <- app_assoc.
  - apply Forall_app. split; [done|]. by repeat constructor.
Qed.

Lemma trail_after_callbacks (d : nat) (c : PostCall) (result : Response)
    (r : Error + list (PromiseState unit)) (tail : list Event) :
  resolved_trail d c result tail ->
  trail d (at_point (after_callbacks result r) c) tail.
Proof.
  intros Htr. unfold trail, after_callbacks. simpl.
  destruct r as [e|ws]; simpl.
  - right. by exists result.
  - by destruct (forallb is_fulfilled ws).
Qed.

Lemma fetch_events_delivery (this : WebhookClient) (d : nat) (c : PostCall)
    (o : Settled Response) :
  Forall (λ ev, delivery ev = d) (fetch_events this d c o).
Proof.
  unfold fetch_events. constructor; [done|].
  destruct o as [result|e]; [|constructor].
  unfold invocations. apply Forall_fmap, Forall_forall. done.
Qed.

Lemma LogInv_fetch (rt : Runtime) (d : nat) (c : PostCall)
    (o : Settled Response) :
  posts rt !! d = Some c -> point c = AtFetch ->
  LogInv rt ->
  LogInv (moved rt d (after_fetch (this rt) c o)
            (fetch_events (this rt) d c o)).
Proof.
  intros Hc Hp. apply (LogInv_moved rt d c); [done| |].
  - apply fetch_events_delivery.
  - intros tail. unfold trail at 1. rewrite Hp. intros ->. simpl.
    destruct o as [result|e]; simpl.
    + apply trail_after_callbacks, resolved_trail_start.
    + unfold trail. simpl. by left.
Qed.

Lemma LogInv_observer (rt : Runtime) (d k : nat) (c : PostCall)
    (result : Response) (ws : list (PromiseState unit)) (o : Settled unit) :
  posts rt !! d = Some c -> point c = AtObservers result ws ->
  LogInv rt ->
  LogInv (moved rt d (after_observer result ws k o) [ObserverSettled d k o]).
Proof.
  intros Hc Hp. apply (LogInv_moved rt d c); [done| |].
  - by repeat constructor.
  - intros tail. unfold trail at 1. rewrite Hp. intros Htr.
    apply (resolved_trail_settle _ _ _ _ k o) in Htr.
    destruct o as [[]|e]; unfold after_observer.
    + by apply (trail_after_callbacks d c result (inr _)).
    + unfold trail. simpl. right. by exists result.
Qed.

(** ** Every turn keeps the invariants *)

Lemma start_Inv (props : WebhooksProps.t) : Inv (start props).
Proof.
  split; split; simpl.
  - intros t p d Ht. by rewrite lookup_nil in Ht.
  - intros t p Ht. by rewrite lookup_nil in Ht.
  - intros ev Hev. by apply elem_of_nil in Hev.
  - intros d c Hc. by rewrite lookup_nil in Hc.
Qed.

(** A turn of the environment either changes nothing or moves one
    suspended call. *)
Lemma step_environment (H : Host) (rt : Runtime) (a : Action) :
  match a with
  | FetchSettles d o =>
      step H rt a = rt
      ∨ ∃ c, posts rt !! d = Some c ∧ point c = AtFetch
             ∧ step H rt a
               = moved rt d (after_fetch (this rt) c o)
                   (fetch_events (this rt) d c o)
  | ObserverSettles d k o =>
      step H rt a = rt
      ∨ ∃ c result ws,
          posts rt !! d = Some c ∧ point c = AtObservers result ws
          ∧ ws !! k = Some Pending
          ∧ step H rt a
            = moved rt d (after_observer result ws k o)
                [ObserverSettled d k o]
  | _ => True
  end.
Proof.
  destruct a as [| | |d o|d k o]; try done; simpl.
  - destruct (posts rt !! d) as [c|] eqn:Hc.
    + destruct (point c) eqn:Hp.
      * right. exists c. split; [done|]. split; [done|].
        by eapply resume_fetch_eq.
      * left. apply resume_fetch_skip. intros c' Hc'. simplify_eq.
        congruence.
      * left. apply resume_fetch_skip. intros c' Hc'. simplify_eq.
        congruence.
      * left. apply resume_fetch_skip. intros c' Hc'. simplify_eq.
        congruence.
    + left. apply resume_fetch_skip. intros c' Hc'. by simplify_eq.
  - destruct (posts rt !! d) as [c|] eqn:Hc.
    + destruct (point c) as [|result ws| |] eqn:Hp.
      * left. apply resume_observer_skip. intros c' r' w' Hc' Hp'.
        simplify_eq. congruence.
      * destruct (ws !! k) as [[| |]|] eqn:Hk.
        -- right. exists c, result, ws. do 3 (split; [done|]).
           by eapply resume_observer_eq.
        -- left. apply resume_observer_skip. intros c' r' w' Hc' Hp'.
           simplify_eq. rewrite Hp in Hp'. simplify_eq. congruence.
        -- left. apply resume_observer_skip. intros c' r' w' Hc' Hp'.
           simplify_eq. rewrite Hp in Hp'. simplify_eq. congruence.
        -- left. apply resume_observer_skip. intros c' r' w' Hc' Hp'.
           simplify_eq. rewrite Hp in Hp'. simplify_eq. congruence.
      * left. apply resume_observer_skip. intros c' r' w' Hc' Hp'.
        simplify_eq. congruence.
      * left. apply resume_observer_skip. intros c' r' w' Hc' Hp'.
        simplify_eq. congruence.
    + left. apply resume_observer_skip. intros c' r' w' Hc'. by simplify_eq.
Qed.

Lemma step_Inv (H : Host) (rt : Runtime) (a : Action) :
  Inv rt -> Inv (step H rt a).
Proof.
  intros [Ha Hl]. pose proof (step_environment H rt a) as Henv.
  destruct a as [url events|callback|type data|d o|d k o].
  - split; [by apply (AllsInv_ext rt) | by apply (LogInv_ext rt)].
  - split; [by apply (AllsInv_ext rt) | by apply (LogInv_ext rt)].
  - split; [by apply AllsInv_trigger | by apply LogInv_trigger].
  - destruct Henv as [->|(c & Hc & Hp & ->)]; [done|]. split.
    + eapply AllsInv_moved; eauto. by rewrite Hp.
    + by apply LogInv_fetch.
  - destruct Henv as [->|(c & result & ws & Hc & Hp & Hk & ->)]; [done|].
    split.
    + eapply AllsInv_moved; eauto. by rewrite Hp.
    + by eapply LogInv_observer.
Qed.

Lemma run_Inv (H : Host) (rt : Runtime) (actions : list Action) :
  Inv rt -> Inv (run H rt actions).
Proof.
  revert rt. induction actions as [|a actions IH]; intros rt Hinv; [done|].
  simpl. apply IH. by apply step_Inv.
Qed.

(** ** What a turn leaves in place *)

Lemma react_settled (calls : list PostCall) (d : nat) (p : PromiseAll) :
  outcome p ≠ Pending -> Promise_all_react calls d p = p.
Proof.
  intros Hp. unfold Promise_all_react. case_bool_decide; [|done].
  by destruct (outcome p).
Qed.

Lemma step_alls (H : Host) (rt : Runtime) (a : Action) (t : nat)
    (p : PromiseAll) :
  alls rt !! t = Some p ->
  ∃ p', alls (step H rt a) !! t = Some p'
        ∧ inputs p' = inputs p
        ∧ (outcome p ≠ Pending -> p' = p).
Proof.
  intros Ht. pose proof (step_environment H rt a) as Henv.
  assert (∀ d k evs, ∃ p', alls (moved rt d k evs) !! t = Some p'
                           ∧ inputs p' = inputs p
                           ∧ (outcome p ≠ Pending -> p' = p)) as Hmoved.
  { intros d k evs. unfold moved. simpl. destruct (settled k).
    - rewrite list_lookup_fmap, Ht. simpl. eexists. split; [done|].
      split; [apply inputs_react | apply react_settled].
    - by exists p. }
  destruct a as [url events|callback|type data|d o|d k o].
  - by exists p.
  - by exists p.
  - exists p. cbn [step]. rewrite trigger_eq. simpl.
    split; [|done]. by apply lookup_app_l_Some.
  - destruct Henv as [->|(c & _ & _ & ->)]; [by exists p|]. apply Hmoved.
  - destruct Henv as [->|(c & r & ws & _ & _ & _ & ->)]; [by exists p|].
    apply Hmoved.
Qed.

Lemma run_alls (H : Host) (rt : Runtime) (actions : list Action) (t : nat)
    (p : PromiseAll) :
  alls rt !! t = Some p ->
  ∃ p', alls (run H rt actions) !! t = Some p'
        ∧ inputs p' = inputs p
        ∧ (outcome p ≠ Pending -> p' = p).
Proof.
  revert rt p. induction actions as [|a actions IH]; intros rt p Ht.
  - by exists p.
  - simpl. destruct (step_alls H rt a t p Ht) as (p1 & Ht1 & Hi1 & Ho1).
    destruct (IH _ _ Ht1) as (p2 & Ht2 & Hi2 & Ho2).
    exists p2. split; [done|]. split; [congruence|].
    intros Hp. specialize (Ho1 Hp). subst p1. by apply Ho2.
Qed.



Lemma same_configuration_refl (c : WebhookClient) : same_configuration c c.
Proof. by repeat split. Qed.

Lemma same_configuration_trans (c1 c2 c3 : WebhookClient) :
  same_configuration c1 c2 -> same_configuration c2 c3 ->
  same_configuration c1 c3.
Proof.
  intros (A1 & S1 & M1 & N1 & H1 & I1) (A2 & S2 & M2 & N2 & H2 & I2).
  repeat split; try congruence; by etrans.
Qed.

Lemma step_this (H : Host) (rt : Runtime) (a : Action) :
  same_configuration (this rt) (this (step H rt a)).
Proof.
  pose proof (step_environment H rt a) as Henv.
  destruct a as [url events|callback|type data|d o|d k o].
  - simpl. repeat split; try done. by apply prefix_app_r.
  - simpl. repeat split; try done. by apply prefix_app_r.
  - cbn [step]. rewrite trigger_eq. simpl. apply same_configuration_refl.
  - destruct Henv as [->|(c & _ & _ & ->)]; apply same_configuration_refl.
  - destruct Henv as [->|(c & r & ws & _ & _ & _ & ->)];
      apply same_configuration_refl.
Qed.

Lemma run_this (H : Host) (rt : Runtime) (actions : list Action) :
  same_configuration (this rt) (this (run H rt actions)).
Proof.
  revert rt. induction actions as [|a actions IH]; intros rt.
  - apply same_configuration_refl.
  - simpl. eapply same_configuration_trans; [apply step_this | apply IH].
Qed.

Lemma run_app (H : Host) (rt : Runtime) (l1 l2 : list Action) :
  run H rt (l1 ++ l2) = run H (run H rt l1) l2.
Proof. apply fold_left_app. Qed.

(** ** Reading the log of a call *)

Lemma history_shape (rt : Runtime) (d : nat) (c : PostCall) :
  LogInv rt -> posts rt !! d = Some c ->
  ∃ options,
    (point c = AtFetch
     ∧ history d (log rt) = [Fetch d (target c) options])
    ∨ (∃ e, point c = Threw e
            ∧ history d (log rt)
              = [Fetch d (target c) options; FetchSettled d (Rejects e)])
    ∨ (∃ result n settles,
         point c ≠ AtFetch
         ∧ (∀ r, point c = Returned r -> r = result)
         ∧ history d (log rt)
           = Fetch d (target c) options
             :: FetchSettled d (Resolves result)
             :: invocations d c result n ++ settles
         ∧ Forall is_observer_settled settles).
Proof.
  intros [_ Hh] Hc. destruct (Hh d c Hc) as (options & tail & Hhist & Htr).
  exists options. unfold trail in Htr.
  destruct (point c) as [|result ws|result|e] eqn:Hp.
  - left. by subst.
  - right. right. destruct Htr as (n & settles & -> & HF).
    exists result, n, settles. by repeat split.
  - right. right. destruct Htr as (n & settles & -> & HF).
    exists result, n, settles. repeat split; try done. congruence.
  - destruct Htr as [->|(result & n & settles & -> & HF)].
    + right. left. by exists e.
    + right. right. exists result, n, settles. by repeat split.
Qed.

Lemma in_history (d : nat) (l : list Event) (ev : Event) :
  ev ∈ l -> delivery ev = d -> ev ∈ history d l.
Proof. intros. by apply history_elem. Qed.

Lemma not_settled_invocation (d : nat) (c : PostCall) (result : Response)
    (n : nat) (settles : list Event) (ev : Event) :
  Forall is_observer_settled settles ->
  ev ∈ invocations d c result n ++ settles ->
  match ev with
  | Observer d' k u b r =>
      d' = d ∧ k < n ∧ u = target c ∧ b = hookData c ∧ r = result
  | ObserverSettled _ _ _ => True
  | _ => False
  end.
Proof.
  intros HF Hev. apply elem_of_app in Hev. destruct Hev as [Hev|Hev].
  - unfold invocations in Hev. apply list_elem_of_fmap in Hev.
    destruct Hev as (k & -> & Hk). apply elem_of_seq in Hk.
    repeat split; try done. lia.
  - rewrite Forall_forall in HF. specialize (HF ev Hev). by destruct ev.
Qed.

Lemma returned_after_resolve (rt : Runtime) (d : nat) (c : PostCall)
    (r : Response) :
  LogInv rt -> posts rt !! d = Some c -> point c = Returned r ->
  FetchSettled d (Resolves r) ∈ log rt
  ∧ ∃ options, Fetch d (target c) options ∈ log rt.
Proof.
  intros Hinv Hc Hp.
  destruct (history_shape rt d c Hinv Hc) as
    (options & [[Hp' _]|[(e & Hp' & _)|(res & n & st & _ & Hr & Hh & _)]]);
    try congruence.
  rewrite (Hr r Hp). split.
  - eapply (proj1 (history_elem d _ _)). rewrite Hh. set_solver.
  - exists options. eapply (proj1 (history_elem d _ _)). rewrite Hh.
    set_solver.
Qed.


(** Where the call of observer [k] stands among the events of its
    delivery: right after the settlement of [fetch] and the calls of the
    observers before it. *)
Lemma observer_position (d k : nat) (c : PostCall) (result : Response)
    (n : nat) (fetch : Event) (settles A B : list Event)
    (u : string) (b : Body.t) (r : Response) :
  Forall is_observer_settled settles ->
  fetch ≠ Observer d k u b r ->
  A ++ Observer d k u b r :: B
  = fetch :: FetchSettled d (Resolves result)
    :: invocations d c result n ++ settles ->
  u = target c ∧ b = hookData c ∧ r = result ∧ k < n
  ∧ A = fetch :: FetchSettled d (Resolves result)
        :: invocations d c result k.
Proof.
  intros HF Hfetch Heq.
  assert (Observer d k u b r ∈ invocations d c result n ++ settles) as Hin.
  { assert (Observer d k u b r
            ∈ fetch :: FetchSettled d (Resolves result)
              :: invocations d c result n ++ settles) as Hin
      by (rewrite <- Heq; set_solver).
    apply elem_of_cons in Hin. destruct Hin as [Hin|Hin].
    { by destruct Hfetch. }
    apply elem_of_cons in Hin. by destruct Hin as [?|Hin]. }
  apply (not_settled_invocation _ _ _ _ _ _ HF) in Hin.
  destruct Hin as (_ & Hk & -> & -> & ->). do 4 (split; [done|]).
  assert ((A ++ Observer d k (target c) (hookData c) result :: B)
            !! length A
          = Some (Observer d k (target c) (hookData c) result)) as Hat
    by by rewrite list_lookup_middle.
  rewrite Heq in Hat.
  assert (length A = 2 + k) as Hlen.
  { destruct (length A) as [|[|j]] eqn:El; simpl in Hat.
    - simplify_eq.
    - simplify_eq.
    - f_equal. f_equal. destruct (decide (j < n)) as [Hj|Hj].
      + rewrite lookup_app_l in Hat
          by (unfold invocations; rewrite length_fmap, length_seq; lia).
        unfold invocations in Hat.
        rewrite list_lookup_fmap, lookup_seq_lt in Hat by done.
        simpl in Hat. by simplify_eq.
      + rewrite lookup_app_r in Hat
          by (unfold invocations; rewrite length_fmap, length_seq; lia).
        apply list_elem_of_lookup_2 in Hat.
        rewrite Forall_forall in HF. by apply HF in Hat. }
  rewrite <- (take_app_length A (Observer d k (target c) (hookData c) result :: B)).
  rewrite Heq, Hlen. simpl. do 2 f_equal.
  rewrite take_app_le
    by (unfold invocations; rewrite length_fmap, length_seq; lia).
  unfold invocations. rewrite <- fmap_take, take_seq. do 2 f_equal. lia.
Qed.

Lemma invoked_no_throw (url : string) (b : Body.t) (r : Response)
    (cbs : list onDoneCallback) :
  (∀ cb e, cb ∈ cbs -> cb url b r ≠ Throws e) ->
  invoked url b r cbs = length cbs.
Proof.
  induction cbs as [|cb cbs IH]; intros Hno; [done|]. simpl.
  assert (invoked url b r cbs = length cbs) as ->.
  { apply IH. intros cb' e Hcb'. apply Hno. by right. }
  destruct (cb url b r) as [e| |] eqn:E; try done.
  exfalso. apply (Hno cb e); [by left | done].
Qed.

Lemma history_split (d : nat) (l1 l2 : list Event) (ev : Event) :
  delivery ev = d ->
  history d (l1 ++ ev :: l2) = history d l1 ++ ev :: history d l2.
Proof.
  intros Hd. rewrite history_app. f_equal. unfold history.
  by rewrite filter_cons_True.
Qed.

(** ** What a suspended call waits for *)

Lemma callback_results_inr (u : string) (b : Body.t) (r : Response)
    (cbs : list onDoneCallback) (ws : list (PromiseState unit)) :
  callback_results u b r cbs = inr ws ->
  invoked u b r cbs = length cbs
  ∧ length ws = length cbs
  ∧ Forall (λ w, w = Pending ∨ w = Fulfilled tt) ws
  ∧ ∀ k, ws !! k = Some Pending ->
         ∃ cb, cbs !! k = Some cb ∧ cb u b r = ReturnsPromise.
Proof.
  revert ws. induction cbs as [|cb cbs IH]; intros ws Hr; simpl in *.
  - simplify_eq. by repeat split.
  - destruct (cb u b r) as [e| |] eqn:E; [done| |].
    + destruct (callback_results u b r cbs) as [e|ws'] eqn:Ecb;
        simplify_eq/=.
      destruct (IH ws' eq_refl) as (Hi & Hl & HF & Hp).
      split; [by rewrite Hi|]. split; [by rewrite Hl|].
      split; [constructor; [by right|done]|].
      intros [|k] Hk; simplify_eq/=. by apply Hp.
    + destruct (callback_results u b r cbs) as [e|ws'] eqn:Ecb;
        simplify_eq/=.
      destruct (IH ws' eq_refl) as (Hi & Hl & HF & Hp).
      split; [by rewrite Hi|]. split; [by rewrite Hl|].
      split; [constructor; [by left|done]|].
      intros [|k] Hk; simplify_eq/=; [by exists cb|]. by apply Hp.
Qed.

Lemma callback_results_inl (u : string) (b : Body.t) (r : Response)
    (cbs : list onDoneCallback) (e : Error) :
  callback_results u b r cbs = inl e ->
  ∃ k cb, cbs !! k = Some cb ∧ cb u b r = Throws e
          ∧ k < invoked u b r cbs.
Proof.
  induction cbs as [|cb cbs IH]; intros Hr; simpl in *; [done|].
  destruct (cb u b r) as [e'| |] eqn:E.
  - simplify_eq. exists 0, cb. repeat split; try done. lia.
  - destruct (callback_results u b r cbs) as [e'|ws'] eqn:Ecb;
      simplify_eq/=.
    destruct (IH eq_refl) as (k & cb' & Hk & Hcb & Hlt).
    exists (S k), cb'. repeat split; try done. lia.
  - destruct (callback_results u b r cbs) as [e'|ws'] eqn:Ecb;
      simplify_eq/=.
    destruct (IH eq_refl) as (k & cb' & Hk & Hcb & Hlt).
    exists (S k), cb'. repeat split; try done. lia.
Qed.

Lemma not_all_fulfilled (ws : list (PromiseState unit)) :
  Forall (λ w, w = Pending ∨ w = Fulfilled tt) ws ->
  forallb is_fulfilled ws = false ->
  ∃ k, ws !! k = Some Pending.
Proof.
  induction 1 as [|w ws [->| ->] _ IH]; simpl; intros Hf; [done| |].
  - by exists 0.
  - destruct (IH Hf) as [k Hk]. by exists (S k).
Qed.

Lemma invocation_elem (d k : nat) (c : PostCall) (result : Response)
    (n : nat) :
  k < n ->
  Observer d k (target c) (hookData c) result ∈ invocations d c result n.
Proof.
  intros Hk. unfold invocations. apply list_elem_of_fmap.
  exists k. split; [done|]. apply elem_of_seq. lia.
Qed.

(** The condition survives events that settle nothing of the call and a
    receiver with more observers. *)
Lemma wait_ok_mono (this this' : WebhookClient) (l evs : list Event)
    (d : nat) (c : PostCall) :
  internalEvent this `prefix_of` internalEvent this' ->
  (∀ k o, ObserverSettled d k o ∉ evs) ->
  wait_ok this l d c -> wait_ok this' (l ++ evs) d c.
Proof.
  intros Hpre Hevs. unfold wait_ok.
  assert (∀ k cb, internalEvent this !! k = Some cb ->
                  internalEvent this' !! k = Some cb) as Hcb.
  { intros k cb Hk. by eapply prefix_lookup_Some. }
  destruct (point c) as [|result ws|result|e]; try done.
  - intros (Hex & HF & Hall). split; [done|]. split; [done|].
    intros k Hk. destruct (Hall k Hk) as (Hno & Hin & cb & Hk' & Hr).
    split; [|split].
    + intros o Ho. apply elem_of_app in Ho.
      destruct Ho as [Ho|Ho]; [by eapply Hno | by eapply Hevs].
    + apply elem_of_app. by left.
    + exists cb. split; [by apply Hcb | done].
  - intros [Hrej|[(k & cb & result & Hk & Hin & Hr)|(k & Hin)]].
    + left. apply elem_of_app. by left.
    + right. left. exists k, cb, result.
      split; [by apply Hcb|]. split; [|done]. apply elem_of_app. by left.
    + right. right. exists k. apply elem_of_app. by left.
Qed.

Lemma WaitInv_moved (rt : Runtime) (d : nat) (c : PostCall)
    (k : Continuation) (evs : list Event) :
  posts rt !! d = Some c ->
  Forall (λ ev, delivery ev = d) evs ->
  wait_ok (this rt) (log rt ++ evs) d (at_point k c) ->
  WaitInv rt -> WaitInv (moved rt d k evs).
Proof.
  intros Hc Hevs Hnew Hinv d' c' Hc'. unfold moved in *. simpl in *.
  rewrite lookup_alter_point in Hc'. case_decide as Hd.
  - subst d'. rewrite Hc in Hc'. by simplify_eq/=.
  - apply (wait_ok_mono (this rt)); [done| |by apply Hinv].
    intros j o Ho. rewrite Forall_forall in Hevs.
    apply Hevs in Ho. simpl in Ho. congruence.
Qed.

Lemma wait_ok_after_callbacks (this : WebhookClient) (l : list Event)
    (d : nat) (c : PostCall) (result : Response)
    (ws : list (PromiseState unit)) :
  Forall (λ w, w = Pending ∨ w = Fulfilled tt) ws ->
  (∀ k, ws !! k = Some Pending ->
        (∀ o, ObserverSettled d k o ∉ l)
        ∧ Observer d k (target c) (hookData c) result ∈ l
        ∧ ∃ cb, internalEvent this !! k = Some cb
                ∧ cb (target c) (hookData c) result = ReturnsPromise) ->
  wait_ok this l d (at_point (after_callbacks result (inr ws)) c).
Proof.
  intros HF Hall. unfold wait_ok, after_callbacks. simpl.
  destruct (forallb is_fulfilled ws) eqn:Hf; [done|]. simpl.
  split; [by apply not_all_fulfilled|]. by split.
Qed.

Lemma WaitInv_fetch (rt : Runtime) (d : nat) (c : PostCall)
    (o : Settled Response) :
  posts rt !! d = Some c -> point c = AtFetch ->
  LogInv rt -> WaitInv rt ->
  WaitInv (moved rt d (after_fetch (this rt) c o)
             (fetch_events (this rt) d c o)).
Proof.
  intros Hc Hp Hl. apply (WaitInv_moved rt d c); [done| |].
  { apply fetch_events_delivery. }
  assert (∀ k o', ObserverSettled d k o' ∉ log rt) as Hold.
  { intros k o' Ho. apply (in_history d) in Ho; [|done].
    destruct (history_shape rt d c Hl Hc) as
      (options & [[_ Hh]|[(e & Hp' & _)|(res & n & st & Hp' & _)]]);
      try congruence.
    rewrite Hh in Ho. apply list_elem_of_singleton in Ho. done. }
  destruct o as [result|e]; unfold after_fetch, fetch_events.
  - destruct (callback_results (target c) (hookData c) result
                (internalEvent (this rt))) as [e|ws] eqn:Ecb.
    + unfold wait_ok. simpl. right. left.
      destruct (callback_results_inl _ _ _ _ _ Ecb)
        as (k & cb & Hk & Hr & Hlt).
      exists k, cb, result. split; [done|]. split; [|done].
      apply elem_of_app. right. right. by apply invocation_elem.
    + destruct (callback_results_inr _ _ _ _ _ Ecb)
        as (Hi & Hlen & HF & Hpend).
      apply wait_ok_after_callbacks; [done|].
      intros k Hk. split; [|split].
      * intros o' Ho. apply elem_of_app in Ho.
        destruct Ho as [Ho|Ho]; [by eapply Hold|].
        apply elem_of_cons in Ho. destruct Ho as [?|Ho]; [done|].
        unfold invocations in Ho. apply list_elem_of_fmap in Ho.
        by destruct Ho as (? & ? & _).
      * apply elem_of_app. right. right. apply invocation_elem.
        rewrite Hi, <- Hlen. by eapply lookup_lt_Some.
      * by apply Hpend.
  - unfold wait_ok. simpl. left. apply elem_of_app. right. by left.
Qed.

Lemma WaitInv_observer (rt : Runtime) (d k : nat) (c : PostCall)
    (result : Response) (ws : list (PromiseState unit)) (o : Settled unit) :
  posts rt !! d = Some c -> point c = AtObservers result ws ->
  WaitInv rt ->
  WaitInv (moved rt d (after_observer result ws k o)
             [ObserverSettled d k o]).
Proof.
  intros Hc Hp Hinv. apply (WaitInv_moved rt d c); [done| | |done].
  { by repeat constructor. }
  pose proof (Hinv d c Hc) as Hw. unfold wait_ok in Hw. rewrite Hp in Hw.
  destruct Hw as (_ & HF & Hall).
  destruct o as [[]|e]; unfold after_observer.
  - apply wait_ok_after_callbacks.
    + apply Forall_insert; [done | by right].
    + intros j Hj. destruct (decide (j = k)) as [->|Hjk].
      { apply lookup_lt_Some in Hj as Hlt. rewrite length_insert in Hlt.
        rewrite list_lookup_insert_eq in Hj by done. done. }
      rewrite list_lookup_insert_ne in Hj by done.
      destruct (Hall j Hj) as (Hno & Hin & Hcb).
      split; [|split; [apply elem_of_app; by left|done]].
      intros o' Ho. apply elem_of_app in Ho.
      destruct Ho as [Ho|Ho]; [by eapply Hno|].
      apply list_elem_of_singleton in Ho. by simplify_eq.
  - unfold wait_ok. simpl. right. right. exists k.
    apply elem_of_app. right. by left.
Qed.

Lemma start_WaitInv (props : WebhooksProps.t) : WaitInv (start props).
Proof. intros d c Hc. simpl in Hc. by rewrite lookup_nil in Hc. Qed.

Lemma step_WaitInv (H : Host) (rt : Runtime) (a : Action) :
  Inv rt -> WaitInv rt -> WaitInv (step H rt a).
Proof.
  intros [_ Hl] Hw. pose proof (step_environment H rt a) as Henv.
  pose proof (step_this H rt a) as (_ & _ & _ & _ & _ & Hpre).
  destruct a as [url events|callback|type data|d o|d k o].
  - intros d c Hc. specialize (Hw d c Hc).
    apply (wait_ok_mono _ (this (step H rt (CallAdd url events))) _ [])
      in Hw; [|done|by intros ?? ?%elem_of_nil].
    by rewrite app_nil_r in Hw.
  - intros d c Hc. specialize (Hw d c Hc).
    apply (wait_ok_mono _ (this (step H rt (CallOnDone callback))) _ [])
      in Hw; [|done|by intros ?? ?%elem_of_nil].
    by rewrite app_nil_r in Hw.
  - cbn [step]. rewrite trigger_eq. intros d c Hc. simpl in *.
    apply lookup_app_Some in Hc. destruct Hc as [Hc|[_ Hc]].
    + apply (wait_ok_mono (this rt)); [done| |by apply Hw].
      intros k o Ho. apply elem_of_lookup_imap in Ho.
      by destruct Ho as (? & ? & ? & _).
    + rewrite list_lookup_imap in Hc.
      destruct (_ !! _) as [h|]; simplify_eq/=. done.
  - destruct Henv as [->|(c & Hc & Hp & ->)]; [done|].
    by apply WaitInv_fetch.
  - destruct Henv as [->|(c & result & ws & Hc & Hp & Hk & ->)]; [done|].
    by eapply WaitInv_observer.
Qed.

Lemma run_WaitInv (H : Host) (rt : Runtime) (actions : list Action) :
  Inv rt -> WaitInv rt -> WaitInv (run H rt actions).
Proof.
  revert rt. induction actions as [|a actions IH]; intros rt Hi Hw; [done|].
  simpl. apply IH; [by apply step_Inv | by apply step_WaitInv].
Qed.

(** A call of [post] has returned once its [fetch] has resolved, no
    observer called for it threw, no promise of an observer rejected, and
    every promise an observer returned has settled. *)
Lemma returned_when_complete (rt : Runtime) (d : nat) (c : PostCall)
    (r : Response) :
  LogInv rt -> WaitInv rt ->
  posts rt !! d = Some c ->
  FetchSettled d (Resolves r) ∈ log rt ->
  (∀ k cb u b r',
     internalEvent (this rt) !! k = Some cb ->
     Observer d k u b r' ∈ log rt ->
     (∀ e, cb u b r' ≠ Throws e)
     ∧ (cb u b r' = ReturnsPromise ->
        ∃ o, ObserverSettled d k o ∈ log rt)) ->
  (∀ k e, ObserverSettled d k (Rejects e) ∉ log rt) ->
  point c = Returned r.
Proof.
  intros Hl Hw Hc Hres Hobs Hnorejobs.
  pose proof (Hw d c Hc) as Hwait. unfold wait_ok in Hwait.
  apply (in_history d) in Hres as Hres'; [|done].
  destruct (history_shape rt d c Hl Hc) as
    (options & [[_ Hh]|[(e & _ & Hh)|(res & n & st & Hp & Hr & Hh & HF)]]).
  { rewrite Hh in Hres'. apply list_elem_of_singleton in Hres'. done. }
  { rewrite Hh in Hres'.
    apply elem_of_cons in Hres'. destruct Hres' as [?|Hres']; [done|].
    apply list_elem_of_singleton in Hres'. done. }
  assert (res = r) as ->.
  { rewrite Hh in Hres'.
    apply elem_of_cons in Hres'. destruct Hres' as [?|Hres']; [done|].
    apply elem_of_cons in Hres'.
    destruct Hres' as [?|Hres']; [by simplify_eq|].
    by apply (not_settled_invocation _ _ _ _ _ _ HF) in Hres'. }
  assert (∀ e, FetchSettled d (Rejects e) ∉ log rt) as Hnorej.
  { intros e He. apply (in_history d) in He; [|done]. rewrite Hh in He.
    apply elem_of_cons in He. destruct He as [?|He]; [done|].
    apply elem_of_cons in He. destruct He as [?|He]; [done|].
    by apply (not_settled_invocation _ _ _ _ _ _ HF) in He. }
  destruct (point c) as [|result ws|result|e] eqn:Hpt.
  - done.
  - exfalso. destruct Hwait as ((k & Hk) & _ & Hall).
    destruct (Hall k Hk) as (Hno & Hin & cb & Hcb & Hret).
    destruct (Hobs k cb _ _ _ Hcb Hin) as (_ & Hset).
    destruct (Hset Hret) as [o Ho]. by eapply Hno.
  - f_equal. by apply Hr.
  - exfalso.
    destruct Hwait as [Hrej|[(k & cb & result & Hk & Hin & Hth)|(k & Hin)]].
    + by eapply Hnorej.
    + destruct (Hobs k cb _ _ _ Hk Hin) as (Hno & _). by eapply Hno.
    + by eapply Hnorejobs.
Qed.

(** ** Rounding in [multiply], for [createSecret] *)

Lemma digits2_pos_bounds (p : positive) :
  (2 ^ (Zpos (digits2_pos p) - 1) <= Zpos p < 2 ^ Zpos (digits2_pos p))%Z.
Proof.
  induction p as [p IH|p IH|]; cbn [digits2_pos].
  - rewrite Pos2Z.inj_succ.
    replace (Z.succ (Zpos (digits2_pos p)) - 1)%Z
      with (Z.succ (Zpos (digits2_pos p) - 1))%Z by lia.
    rewrite !Z.pow_succ_r by lia. lia.
  - rewrite Pos2Z.inj_succ.
    replace (Z.succ (Zpos (digits2_pos p)) - 1)%Z
      with (Z.succ (Zpos (digits2_pos p) - 1))%Z by lia.
    rewrite !Z.pow_succ_r by lia. lia.
  - simpl. lia.
Qed.

Lemma shr_1_value (mrs : shr_record) :
  (0 <= shr_m mrs)%Z ->
  (0 <= shr_m (shr_1 mrs))%Z
  ∧ (2 * shr_value (shr_1 mrs) <= shr_value mrs)%Z.
Proof.
  destruct mrs as [m r s]. unfold shr_value. simpl.
  destruct m as [|[p|p|]|p]; simpl; intros Hm; destruct r; lia.
Qed.

Lemma iter_pos_shr_1_value (p : positive) (mrs : shr_record) :
  (0 <= shr_m mrs)%Z ->
  (0 <= shr_m (SpecFloat.iter_pos shr_1 p mrs))%Z
  ∧ (shr_value (SpecFloat.iter_pos shr_1 p mrs) * 2 ^ Zpos p
     <= shr_value mrs)%Z.
Proof.
  revert mrs. induction p as [p IH|p IH|]; intros mrs Hm;
    cbn [SpecFloat.iter_pos].
  - destruct (shr_1_value mrs Hm) as [H1 V1].
    destruct (IH _ H1) as [H2 V2]. destruct (IH _ H2) as [H3 V3].
    split; [done|].
    assert (2 ^ Zpos p~1 = 2 * (2 ^ Zpos p * 2 ^ Zpos p))%Z as ->.
    { rewrite (Pos2Z.inj_xI p).
      replace (2 * Zpos p + 1)%Z with (Zpos p + Zpos p + 1)%Z by lia.
      rewrite Z.pow_add_r; [|lia|lia]. rewrite Z.pow_add_r; [|lia|lia]. lia. }
    assert (0 < 2 ^ Zpos p)%Z by (apply Z.pow_pos_nonneg; lia).
    nia.
  - destruct (IH _ Hm) as [H2 V2]. destruct (IH _ H2) as [H3 V3].
    split; [done|].
    assert (2 ^ Zpos p~0 = 2 ^ Zpos p * 2 ^ Zpos p)%Z as ->.
    { rewrite (Pos2Z.inj_xO p).
      replace (2 * Zpos p)%Z with (Zpos p + Zpos p)%Z by lia.
      rewrite Z.pow_add_r; [done|lia|lia]. }
    assert (0 < 2 ^ Zpos p)%Z by (apply Z.pow_pos_nonneg; lia).
    nia.
  - destruct (shr_1_value mrs Hm) as [H1 V1]. split; [done|].
    change (2 ^ 1)%Z with 2%Z. lia.
Qed.

(** [shr] moves the exponent by the number of bits it drops, and what is
    left is no more than what was there. *)
Lemma shr_value_le (m e n : Z) :
  (0 <= m)%Z ->
  let r := shr {| shr_m := m; shr_r := false; shr_s := false |} e n in
  (0 <= shr_m r.1)%Z
  ∧ r.2 = (e + Z.max n 0)%Z
  ∧ (shr_value r.1 * 2 ^ Z.max n 0 <= 2 * m)%Z.
Proof.
  intros Hm. destruct n as [|p|p]; unfold shr; cbn [fst snd].
  - unfold shr_value. cbn [shr_m shr_r]. rewrite Z.max_r by lia.
    rewrite Z.pow_0_r. repeat split; lia.
  - destruct (iter_pos_shr_1_value p
                {| shr_m := m; shr_r := false; shr_s := false |} Hm)
      as [H1 V1].
    split; [done|]. rewrite Z.max_l by lia. split; [done|].
    unfold shr_value in V1 at 2. cbn [shr_m shr_r] in V1. lia.
  - unfold shr_value. cbn [shr_m shr_r]. rewrite Z.max_r by lia.
    rewrite Z.pow_0_r. repeat split; lia.
Qed.

Lemma round_nearest_even_le (mrs : shr_record) :
  (0 <= shr_m mrs)%Z ->
  let q := round_nearest_even (shr_m mrs) (loc_of_shr_record mrs) in
  (0 <= q)%Z ∧ (2 * q <= shr_value mrs + 1)%Z.
Proof.
  destruct mrs as [m [|] [|]]; unfold shr_value;
    cbn [shr_m shr_r loc_of_shr_record round_nearest_even]; intros Hm;
    try destruct (Z.even m); lia.
Qed.

Lemma digits_le (m d : Z) :
  (0 < m)%Z -> (0 <= d)%Z -> (m < 2 ^ d)%Z -> (Zdigits2 m <= d)%Z.
Proof.
  intros Hm Hd Hlt. destruct m as [|p|p]; try lia. cbn [Zdigits2].
  pose proof (digits2_pos_bounds p) as [Hlo _].
  destruct (Z.le_gt_cases (Zpos (digits2_pos p)) d) as [|Hgt]; [done|].
  assert (2 ^ d <= 2 ^ (Zpos (digits2_pos p) - 1))%Z
    by (apply Z.pow_le_mono_r; lia).
  lia.
Qed.

(** The product of a number below 1 and 62, rounded to a number, is below
    62: its integer part is an index of [chars]. *)
Lemma round_product_below (m : positive) (e : Z) :
  (e <= -53)%Z -> (Zpos m < 2 ^ 53)%Z ->
  match binary_round_aux prec emax false
          (Zpos (m * 8725724278030336)) (e + -47) loc_Exact with
  | S754_zero s => s = false
  | S754_finite s m' e' =>
      s = false ∧ (e' < 0)%Z ∧ (Zpos m' < 62 * 2 ^ (- e'))%Z
  | _ => False
  end.
Proof.
  intros He Hm.
  set (M := Zpos (m * 8725724278030336)).
  set (E := (e + -47)%Z).
  assert (M = Zpos m * 8725724278030336)%Z as HM by apply Pos2Z.inj_mul.
  assert (0 < M)%Z as HM0 by done.
  set (X := (2 ^ (- e))%Z).
  assert (2 ^ 53 <= X)%Z as HX by (apply Z.pow_le_mono_r; lia).
  unfold binary_round_aux, shr_fexp.
  cbn [shr_record_of_loc].
  set (n1 := (fexp prec emax (Zdigits2 M + E) - E)%Z).
  pose proof (shr_value_le M E n1 (Z.lt_le_incl _ _ HM0)) as H1.
  destruct (shr {| shr_m := M; shr_r := false; shr_s := false |} E n1)
    as [mrs' e'] eqn:Es1.
  cbn [fst snd] in H1. destruct H1 as (Hm1 & He1 & Hv1).
  pose proof (round_nearest_even_le mrs' Hm1) as Hq.
  set (q := round_nearest_even (shr_m mrs') (loc_of_shr_record mrs')) in *.
  cbv zeta in Hq. destruct Hq as [Hq0 Hq].
  set (n2 := (fexp prec emax (Zdigits2 q + e') - e')%Z).
  pose proof (shr_value_le q e' n2 Hq0) as H2.
  destruct (shr {| shr_m := q; shr_r := false; shr_s := false |} e' n2)
    as [mrs'' e''] eqn:Es2.
  cbn [fst snd] in H2. destruct H2 as (Hm2 & He2 & Hv2).
  set (k1 := Z.max n1 0) in *. set (k2 := Z.max n2 0) in *.
  assert (0 <= k1)%Z as Hk1 by lia. assert (0 <= k2)%Z as Hk2 by lia.
  assert (0 < 2 ^ k1)%Z as Hp1 by (apply Z.pow_pos_nonneg; lia).
  assert (0 < 2 ^ k2)%Z as Hp2 by (apply Z.pow_pos_nonneg; lia).
  (* the first shift drops at most [-e] bits *)
  assert (Zdigits2 M <= 106)%Z as Hd.
  { apply digits_le; [done|lia|].
    replace (2 ^ 106)%Z with (2 ^ 53 * (62 * 2 ^ 47) + 2 ^ 53 * 2 ^ 48)%Z
      by done. lia. }
  assert (k1 <= - e)%Z as Hk1e.
  { unfold k1, n1, fexp, emin, prec, emax, E. lia. }
  assert (2 ^ k1 <= X)%Z as Hpk1 by (apply Z.pow_le_mono_r; lia).
  assert (e' <= -47)%Z as He' by (unfold E in He1; lia).
  (* what is left of the mantissa *)
  assert (shr_m mrs'' * 2 ^ k2 <= q)%Z as Hmq.
  { unfold shr_value in Hv2. destruct (shr_r mrs''); lia. }
  assert (q * (2 * 2 ^ k1) <= 2 * M + 2 ^ k1)%Z as HqM.
  { unfold shr_value in Hv1, Hq. destruct (shr_r mrs'); nia. }
  destruct (shr_m mrs'') as [|m''|m''] eqn:Em; [done| |lia].
  assert (0 < q)%Z as Hqpos by nia.
  (* the exponent of the result *)
  assert (e'' < 0)%Z as He''.
  { destruct (Z.le_gt_cases n2 0) as [Hn2|Hn2]; [lia|].
    set (Y := Z.max 107 (- e)).
    assert (2 ^ 107 <= 2 ^ Y)%Z as HY1 by (apply Z.pow_le_mono_r; lia).
    assert (X <= 2 ^ Y)%Z as HY2 by (apply Z.pow_le_mono_r; lia).
    assert (2 * M < 2 ^ 107)%Z as HM2.
    { replace (2 ^ 107)%Z
        with (2 * (2 ^ 53 * (62 * 2 ^ 47) + 2 ^ 53 * 2 ^ 48))%Z by done.
      lia. }
    assert (Zdigits2 q + k1 <= Y)%Z as Hdq.
    { destruct q as [|pq|pq]; try lia. cbn [Zdigits2].
      pose proof (digits2_pos_bounds pq) as [Hlo _].
      destruct (Z.le_gt_cases (Zpos (digits2_pos pq) + k1) Y)
        as [|Hgt]; [done|].
      assert (2 ^ (Y + 1) <= 2 ^ (Zpos (digits2_pos pq) - 1 + (k1 + 1)))%Z
        as Hbig by (apply Z.pow_le_mono_r; lia).
      rewrite (Z.pow_add_r 2 (Zpos (digits2_pos pq) - 1) (k1 + 1)) in Hbig
        by lia.
      rewrite (Z.pow_add_r 2 Y 1) in Hbig by lia.
      rewrite (Z.pow_add_r 2 k1 1) in Hbig by lia.
      change (2 ^ 1)%Z with 2%Z in Hbig. nia. }
    unfold k2, n2, fexp, emin, prec, emax in He2. unfold E in He1. lia. }
  assert ((e'' <=? emax - prec)%Z = true) as ->
    by (apply Z.leb_le; unfold emax, prec; lia).
  split; [done|]. split; [done|].
  (* the mantissa of the result *)
  destruct (Z.lt_ge_cases (Zpos m'') (62 * 2 ^ (- e''))) as [|Hge]; [done|].
  exfalso.
  assert (2 ^ (- e'') * (2 ^ k2 * (2 * 2 ^ k1)) = 2 * 2 ^ 47 * X)%Z
    as Hpow.
  { transitivity (2 ^ (- e'' + k2 + k1 + 1))%Z.
    - rewrite (Z.pow_add_r 2 (- e'' + k2 + k1) 1),
        (Z.pow_add_r 2 (- e'' + k2) k1), (Z.pow_add_r 2 (- e'') k2) by lia.
      change (2 ^ 1)%Z with 2%Z. ring.
    - replace (- e'' + k2 + k1 + 1)%Z with (48 + - e)%Z
        by (unfold E in He1; lia).
      rewrite (Z.pow_add_r 2 48 (- e)) by lia. done. }
  assert (62 * 2 ^ (- e'') * (2 ^ k2 * (2 * 2 ^ k1))
          <= Zpos m'' * (2 ^ k2 * (2 * 2 ^ k1)))%Z
    by (apply Z.mul_le_mono_nonneg_r; lia).
  assert (Zpos m'' * (2 ^ k2 * (2 * 2 ^ k1)) <= q * (2 * 2 ^ k1))%Z
    by nia.
  nia.
Qed.

(** ** The index [createSecret] draws *)

Lemma chars_length_number :
  number_of_Z (Z.of_nat (String.length chars))
  = S754_finite false 8725724278030336 (-47).
Proof. vm_compute. reflexivity. Qed.

(** A number in the range of [Math.random] is a zero or a positive number
    with an exponent of at most [-53]. *)
Lemma in_unit_interval_cases (x : number) :
  in_unit_interval x ->
  (∃ s, x = S754_zero s)
  ∨ ∃ m e, x = S754_finite false m e
           ∧ (e <= -53)%Z ∧ (Zpos m < 2 ^ 53)%Z.
Proof.
  intros (Hv & H0 & H1).
  change (number_of_Z 1) with (S754_finite false 4503599627370496 (-52))
    in H1.
  destruct x as [s|s| |s m e].
  - left. by exists s.
  - by destruct s.
  - done.
  - right. exists m, e. destruct s; [done|]. split; [done|].
    unfold valid_binary, bounded, canonical_mantissa in Hv.
    apply andb_true_iff in Hv. destruct Hv as [Hc _].
    apply Z.eqb_eq in Hc. unfold fexp, emin, prec, emax in Hc.
    pose proof (digits2_pos_bounds m) as [Hlo Hhi].
    assert (Zpos (digits2_pos m) <= 53)%Z as Hd by lia.
    assert (2 ^ Zpos (digits2_pos m) <= 2 ^ 53)%Z
      by (apply Z.pow_le_mono_r; lia).
    split; [|lia].
    unfold SFltb, SFcompare in H1.
    destruct (Z.compare_spec e (-52)) as [->|Hlt|Hgt]; [|lia|done].
    exfalso.
    assert (Zpos (digits2_pos m) = 53)%Z as Hd53 by lia.
    rewrite Hd53 in Hlo. change (2 ^ (53 - 1))%Z with 4503599627370496%Z in Hlo.
    rewrite Pos.compare_cont_spec in H1.
    destruct (Pos.compare_spec m 4503599627370496) as [Heq|Hlt|Hgt];
      [discriminate H1 | | discriminate H1].
    apply Pos2Z.pos_lt_pos in Hlt. clear - Hlo Hlt. lia.
Qed.

Lemma ToIntegerOrInfinity_number_of_Z (j : Z) :
  (0 <= j < 62)%Z -> ToIntegerOrInfinity (number_of_Z j) = Some j.
Proof.
  intros Hj.
  assert (forallb (λ n, match ToIntegerOrInfinity (number_of_Z (Z.of_nat n))
                        with
                        | Some z => (z =? Z.of_nat n)%Z
                        | None => false
                        end) (seq 0 62) = true) as Hall
    by (vm_compute; reflexivity).
  rewrite forallb_forall in Hall.
  specialize (Hall (Z.to_nat j)). rewrite Z2Nat.id in Hall by lia.
  destruct (ToIntegerOrInfinity (number_of_Z j)) as [z|].
  - f_equal. apply Z.eqb_eq, Hall, in_seq. lia.
  - discriminate Hall. apply in_seq. lia.
Qed.

(** [Math.floor(Math.random() * chars.length)] denotes an index of
    [chars]. *)
Lemma random_index_range (Math_random : Random) (calls : nat) :
  in_unit_interval (Math_random calls) ->
  ∃ j, (0 <= j < 62)%Z
       ∧ ToIntegerOrInfinity (random_index Math_random calls) = Some j.
Proof.
  intros Hr. unfold random_index. rewrite chars_length_number.
  destruct (in_unit_interval_cases _ Hr)
    as [[s ->]|(m & e & -> & He & Hm)].
  - exists 0%Z. split; [lia|]. by destruct s.
  - unfold multiply, SFmul. cbn [xorb].
    pose proof (round_product_below m e He Hm) as Hround.
    destruct (binary_round_aux prec emax false
                (Zpos (m * 8725724278030336)) (e + -47) loc_Exact)
      as [s|s| |s m' e']; try done.
    + exists 0%Z. split; [lia|]. done.
    + destruct Hround as (-> & He' & Hm').
      unfold Math_floor.
      destruct (Z.leb_spec 0 e') as [?|_]; [lia|].
      cbn [cond_Zopp]. rewrite Z.shiftr_div_pow2 by lia.
      assert (0 < 2 ^ (- e'))%Z by (apply Z.pow_pos_nonneg; lia).
      exists (Zpos m' / 2 ^ (- e'))%Z.
      assert (0 <= Zpos m' / 2 ^ (- e') < 62)%Z as Hj.
      { split; [apply Z.div_pos; lia|].
        apply Z.div_lt_upper_bound; lia. }
      split; [done|]. by apply ToIntegerOrInfinity_number_of_Z.
Qed.

(** ** The loop of [createSecret] *)

Lemma less_than_iterations (i : Z) (x : number) :
  (0 <= i)%Z -> x ≠ S754_infinity false ->
  less_than i x = (i <? iterations x)%Z.
Proof.
  intros Hi Hx. destruct x as [s|s| |s m e]; cbn [less_than iterations].
  - done.
  - destruct s; [|done]. symmetry. apply Z.ltb_ge. lia.
  - symmetry. apply Z.ltb_ge. lia.
  - destruct (Z.leb_spec 0 e) as [He|He].
    + destruct s; cbn [cond_Zopp]; [|done].
      assert (0 < 2 ^ e)%Z by (apply Z.pow_pos_nonneg; lia).
      transitivity false; [|symmetry]; apply Z.ltb_ge; nia.
    + assert (0 < 2 ^ (- e))%Z as HD by (apply Z.pow_pos_nonneg; lia).
      destruct s; cbn [cond_Zopp].
      * transitivity false; [|symmetry]; apply Z.ltb_ge; nia.
      * set (D := (2 ^ (- e))%Z) in *.
        destruct (Z.ltb_spec (i * D) (Zpos m)) as [Hlt|Hge]; symmetry.
        -- apply Z.ltb_lt.
           assert (i + 1 <= (Zpos m + D - 1) / D)%Z; [|lia].
           apply Z.div_le_lower_bound; lia.
        -- apply Z.ltb_ge.
           assert ((Zpos m + D - 1) / D < i + 1)%Z; [|lia].
           apply Z.div_lt_upper_bound; lia.
Qed.

Lemma iterations_nonneg (x : number) : (0 <= iterations x)%Z.
Proof.
  destruct x as [s|s| |[|] m e]; cbn [iterations]; try lia.
  destruct (Z.leb_spec 0 e) as [He|He].
  - assert (0 < 2 ^ e)%Z by (apply Z.pow_pos_nonneg; lia). nia.
  - assert (0 < 2 ^ (- e))%Z by (apply Z.pow_pos_nonneg; lia).
    apply Z.div_pos; lia.
Qed.

Lemma string_length_app (s1 s2 : string) :
  String.length (s1 +:+ s2) = String.length s1 + String.length s2.
Proof. induction s1 as [|a s1 IH]; simpl; [done|]. by rewrite IH. Qed.

Lemma string_get_lt (s : string) (i : nat) :
  i < String.length s -> is_Some (String.get i s).
Proof.
  revert i. induction s as [|a s IH]; intros i Hi; simpl in *; [lia|].
  destruct i as [|i]; [by eexists|]. apply IH. lia.
Qed.

Lemma charAt_index (s : string) (pos : number) (i : Z) :
  ToIntegerOrInfinity pos = Some i ->
  (0 <= i < Z.of_nat (String.length s))%Z ->
  ∃ c, String.get (Z.to_nat i) s = Some c
       ∧ charAt s pos = String c EmptyString.
Proof.
  intros Hpos Hi. unfold charAt. rewrite Hpos.
  destruct (Z.ltb_spec i 0) as [?|_]; [lia|].
  destruct (string_get_lt s (Z.to_nat i)) as [c Hc]; [lia|].
  exists c. by rewrite Hc.
Qed.

(** Each draw appends one character, the one of [chars] at the index
    drawn. *)
Lemma drawn_spec (Math_random : Random) (count calls : nat) (acc : string) :
  (∀ c, in_unit_interval (Math_random c)) ->
  let r := drawn Math_random count calls acc in
  String.length r = String.length acc + count
  ∧ (∀ i, i < String.length acc -> String.get i r = String.get i acc)
  ∧ (∀ i, i < count ->
          ∃ j, (0 <= j < 62)%Z
               ∧ ToIntegerOrInfinity (random_index Math_random (calls + i))
                 = Some j
               ∧ String.get (String.length acc + i) r
                 = String.get (Z.to_nat j) chars).
Proof.
  intros HR. revert calls acc.
  induction count as [|count IH]; intros calls acc; cbn [drawn].
  - repeat split; try done; try lia.
  - destruct (random_index_range Math_random calls (HR calls))
      as (j & Hj & Hidx).
    destruct (charAt_index chars (random_index Math_random calls) j Hidx)
      as (c & Hc & Hat).
    { change (String.length chars) with 62. lia. }
    rewrite Hat.
    destruct (IH (S calls) (acc +:+ String c EmptyString))
      as (Hlen & Hpre & Hnew).
    rewrite string_length_app in Hlen, Hpre, Hnew.
    cbn [String.length] in Hlen, Hpre, Hnew.
    split; [lia|]. split.
    + intros i Hi. rewrite Hpre by lia.
      symmetry. by apply String.append_correct1.
    + intros [|i] Hi.
      * exists j. split; [done|]. rewrite !Nat.add_0_r. split; [done|].
        rewrite Hpre by lia.
        pose proof (String.append_correct2 acc (String c EmptyString) 0)
          as Hg.
        cbn [String.get Nat.add] in Hg. by rewrite <- Hg, Hc.
      * destruct (Hnew i) as (j' & Hj' & Hidx' & Hget); [lia|].
        exists j'. split; [done|].
        replace (calls + S i) with (S calls + i) by lia. split; [done|].
        replace (String.length acc + S i)
          with (String.length acc + 1 + i) by lia.
        done.
Qed.

(** The loop makes the draws that remain and returns, given the fuel for
    its tests and a secret that is not too long. *)
Lemma createSecret_loop_returns (Math_random : Random) (x : number)
    (max_length : Z) (fuel k calls : nat) (secret : string) :
  (∀ c, in_unit_interval (Math_random c)) ->
  x ≠ S754_infinity false ->
  (iterations x <= 2 ^ 53)%Z ->
  let n := Z.to_nat (iterations x) in
  k <= n -> n - k < fuel ->
  (Z.of_nat (String.length secret + (n - k)) <= max_length)%Z ->
  createSecret_loop Math_random max_length fuel x (Z.of_nat k) calls secret
  = Returns (drawn Math_random (n - k) calls secret) (calls + (n - k)).
Proof.
  intros HR Hx Hmax n. revert k calls secret.
  pose proof (iterations_nonneg x) as H0.
  induction fuel as [|fuel IH]; intros k calls secret Hk Hf Hlen; [lia|].
  cbn [createSecret_loop].
  rewrite less_than_iterations by (done || lia).
  destruct (Z.ltb_spec (Z.of_nat k) (iterations x)) as [Hlt|Hge].
  - assert (increment (Z.of_nat k) = Z.of_nat (S k)) as ->.
    { unfold increment. destruct (Z.ltb_spec (Z.of_nat k) (2 ^ 53)); lia. }
    cbv zeta.
    assert (String.length
              (secret +:+ charAt chars (random_index Math_random calls))
            = S (String.length secret)) as Hs.
    { destruct (random_index_range Math_random calls (HR calls))
        as (j & Hj & Hidx).
      destruct (charAt_index chars _ j Hidx) as (c & _ & ->).
      { change (String.length chars) with 62. lia. }
      rewrite string_length_app. cbn [String.length]. lia. }
    rewrite Hs.
    destruct (Z.leb_spec (Z.of_nat (S (String.length secret))) max_length)
      as [_|?]; [|lia].
    rewrite IH by lia.
    replace (n - k) with (S (n - S k)) by lia. cbn [drawn].
    f_equal. lia.
  - replace (n - k) with 0 by lia. cbn [drawn]. f_equal. lia.
Qed.

(** With [+Infinity] for [length] the loop does not return, whatever the
    fuel. *)
Lemma createSecret_loop_forever (Math_random : Random) (max_length : Z)
    (fuel : nat) (i : Z) (calls : nat) (secret : string) :
  ¬ returns_secret (createSecret_loop Math_random max_length fuel
                      (S754_infinity false) i calls secret).
Proof.
  revert i calls secret. induction fuel as [|fuel IH]; intros i calls secret;
    [by intros []|]. cbn [createSecret_loop less_than negb]. cbv zeta.
  destruct (_ <=? _)%Z; [apply IH | by intros []].
Qed.

(** Nor does it return when the secret would be longer than a string can
    be. *)
Lemma createSecret_loop_too_long (Math_random : Random) (x : number)
    (max_length : Z) (fuel k calls : nat) (secret : string) :
  (∀ c, in_unit_interval (Math_random c)) ->
  x ≠ S754_infinity false ->
  (max_length < 2 ^ 53)%Z ->
  String.length secret = k -> (Z.of_nat k <= max_length)%Z ->
  (max_length < iterations x)%Z ->
  ¬ returns_secret (createSecret_loop Math_random max_length fuel x
                      (Z.of_nat k) calls secret).
Proof.
  intros HR Hx Hmax. revert k calls secret.
  induction fuel as [|fuel IH]; intros k calls secret Hlen Hk Hn;
    [by intros []|].
  cbn [createSecret_loop].
  rewrite less_than_iterations by (done || lia).
  destruct (Z.ltb_spec (Z.of_nat k) (iterations x)) as [Hlt|Hge]; [|lia].
  cbv zeta.
  assert (String.length
            (secret +:+ charAt chars (random_index Math_random calls))
          = S k) as Hs.
  { destruct (random_index_range Math_random calls (HR calls))
      as (j & Hj & Hidx).
    destruct (charAt_index chars _ j Hidx) as (c & _ & ->).
    { change (String.length chars) with 62. lia. }
    rewrite string_length_app. cbn [String.length]. lia. }
  rewrite Hs.
  destruct (Z.leb_spec (Z.of_nat (S k)) max_length) as [?|?];
    [|by intros []].
  assert (increment (Z.of_nat k) = Z.of_nat (S k)) as ->.
  { unfold increment. destruct (Z.ltb_spec (Z.of_nat k) (2 ^ 53)); lia. }
  by apply IH.
Qed.

Lemma rounding_random_unit (c : nat) : in_unit_interval (rounding_random c).
Proof. repeat split; vm_compute; reflexivity. Qed.

(** ** The requests of a whole run *)

Lemma request_options_ext (H : Host) (this this' : WebhookClient) (d : nat)
    (envelope : Body.t) :
  same_configuration this this' ->
  request_options H this' d envelope = request_options H this d envelope.
Proof.
  intros (_ & Hs & Hm & Hn & _). unfold request_options.
  by rewrite Hs, Hm, Hn.
Qed.

Lemma SentInv_this (H : Host) (rt rt' : Runtime) :
  same_configuration (this rt) (this rt') ->
  uuid_calls rt' = uuid_calls rt -> now_calls rt' = now_calls rt ->
  stringify_calls rt' = stringify_calls rt ->
  posts rt' = posts rt -> log rt' = log rt ->
  SentInv H rt -> SentInv H rt'.
Proof.
  intros Hc Hu Hn Hs Hp Hl [Hcalls Henv Hreq].
  split; rewrite ?Hu, ?Hn, ?Hs, ?Hp, ?Hl; [done| |].
  - intros d c Hd. destruct (Henv d c Hd) as (? & ? & ? & ?).
    destruct Hc as (Ha & _). repeat split; try done. congruence.
  - intros d u o Hin. destruct (Hreq d u o Hin) as (c & ? & ? & ->).
    exists c. repeat split; try done. symmetry.
    by apply request_options_ext.
Qed.

Lemma SentInv_moved (H : Host) (rt : Runtime) (d : nat) (k : Continuation)
    (evs : list Event) :
  Forall (λ ev, is_request ev = false) evs ->
  SentInv H rt -> SentInv H (moved rt d k evs).
Proof.
  intros Hevs [Hcalls Henv Hreq]. split; unfold moved; simpl.
  - by rewrite length_alter.
  - intros i c Hi. rewrite lookup_alter_point in Hi.
    case_decide; [|by apply Henv].
    destruct (posts rt !! i) as [c0|] eqn:Hc0; simplify_eq/=.
    by apply Henv.
  - intros i u o Hin. apply elem_of_app in Hin.
    destruct Hin as [Hin|Hin].
    + destruct (Hreq i u o Hin) as (c & Hc & -> & ->).
      rewrite lookup_alter_point. case_decide.
      * subst. rewrite Hc. simpl. by eexists.
      * by exists c.
    + rewrite Forall_forall in Hevs. by apply Hevs in Hin.
Qed.

Lemma fetch_events_no_request (this : WebhookClient) (d : nat)
    (c : PostCall) (o : Settled Response) :
  Forall (λ ev, is_request ev = false) (fetch_events this d c o).
Proof.
  unfold fetch_events. constructor; [done|].
  destruct o as [result|e]; [|constructor].
  unfold invocations. apply Forall_fmap, Forall_forall. done.
Qed.

Lemma SentInv_trigger (H : Host) (type : EventType) (data : option JSValue)
    (rt : Runtime) :
  SentInv H rt -> SentInv H (trigger H type data rt).2.
Proof.
  intros [(Hu & Hn & Hs) Henv Hreq]. rewrite trigger_eq. simpl.
  set (ws := Array_filter (wants type) (hooks (this rt))).
  assert (∀ d c,
            (posts rt ++ imap (built_call H rt type data) ws) !! d = Some c ->
            (length (posts rt) <= d)%nat ->
            ∃ h, c = built_call H rt type data (d - length (posts rt)) h)
    as Hnew.
  { intros d c Hd Hge. rewrite lookup_app_r in Hd by done.
    rewrite list_lookup_imap in Hd.
    destruct (ws !! _) as [h|]; simplify_eq/=. by exists h. }
  split; simpl.
  - rewrite length_app, length_imap. lia.
  - intros d c Hd.
    destruct (decide (d < length (posts rt))) as [Hlt|Hge].
    + rewrite lookup_app_l in Hd by done. by apply Henv.
    + destruct (Hnew d c Hd) as [h ->]; [lia|]. simpl.
      rewrite Hu, Hn. repeat split; try done; f_equal; lia.
  - intros d u o Hin. apply elem_of_app in Hin.
    destruct Hin as [Hin|Hin].
    + destruct (Hreq d u o Hin) as (c & Hc & -> & ->).
      exists c. split; [|done]. by apply lookup_app_l_Some.
    + apply elem_of_lookup_imap in Hin.
      destruct Hin as (i & h & Heq & Hh). unfold built_fetch in Heq.
      simplify_eq. exists (built_call H rt type data i h).
      split; [|split; [done|]].
      * rewrite lookup_app_r by lia.
        replace (length (posts rt) + i - length (posts rt)) with i by lia.
        by rewrite list_lookup_imap, Hh.
      * unfold built_options, request_options. simpl. by rewrite Hs.
Qed.

Lemma start_SentInv (H : Host) (props : WebhooksProps.t) :
  SentInv H (start props).
Proof.
  split; simpl; try done.
  intros d u o Hin. by apply elem_of_nil in Hin.
Qed.

Lemma step_SentInv (H : Host) (rt : Runtime) (a : Action) :
  SentInv H rt -> SentInv H (step H rt a).
Proof.
  intros Hinv. pose proof (step_environment H rt a) as Henv.
  pose proof (step_this H rt a) as Hthis.
  destruct a as [url events|callback|type data|d o|d k o].
  - by apply (SentInv_this H rt).
  - by apply (SentInv_this H rt).
  - by apply SentInv_trigger.
  - destruct Henv as [->|(c & _ & _ & ->)]; [done|].
    apply SentInv_moved; [|done]. apply fetch_events_no_request.
  - destruct Henv as [->|(c & r & ws & _ & _ & _ & ->)]; [done|].
    apply SentInv_moved; [|done]. by repeat constructor.
Qed.

Lemma run_SentInv (H : Host) (rt : Runtime) (actions : list Action) :
  SentInv H rt -> SentInv H (run H rt actions).
Proof.
  revert rt. induction actions as [|a actions IH]; intros rt Hinv; [done|].
  simpl. by apply IH, step_SentInv.
Qed.

Lemma signature_header_not_fixed (name : option string) :
  signature_header name ≠ "Content-Type"
  ∧ signature_header name ≠ "X-Environment".
Proof.
  rewrite signature_header_cases.
  destruct name as [[|a [|b n]]|]; split; try discriminate.
  simpl. intros [= _ _ Heq].
  apply (f_equal String.length) in Heq.
  rewrite string_length_app in Heq. simpl in Heq. lia.
Qed.

Lemma Array_filter_snoc {A} (f : A -> bool) (arr : list A) (x : A) :
  Array_filter f (arr ++ [x])
  = Array_filter f arr ++ (if f x then [x] else []).
Proof.
  unfold Array_filter at 1. rewrite fold_left_app. simpl.
  fold (Array_filter f arr). destruct (f x); [done|].
  by rewrite app_nil_r.
Qed.

(** ** Counting the events of a delivery *)

Lemma count_invocations (P : Event -> bool) (d : nat) (c : PostCall)
    (result : Response) (n : nat) :
  (∀ j, P (Observer d j (target c) (hookData c) result) = false) ->
  filter (λ ev, P ev = true) (invocations d c result n) = [].
Proof.
  intros HP. unfold invocations. induction (seq 0 n) as [|j l IH]; [done|].
  rewrite fmap_cons, filter_cons_False; [done|]. by rewrite HP.
Qed.

Lemma count_settles (P : Event -> bool) (settles : list Event) :
  (∀ d k o, P (ObserverSettled d k o) = false) ->
  Forall is_observer_settled settles ->
  filter (λ ev, P ev = true) settles = [].
Proof.
  intros HP. induction 1 as [|ev l Hev _ IH]; [done|].
  rewrite filter_cons_False; [done|].
  destruct ev; try done. by rewrite HP.
Qed.

Lemma count_observer_calls (k d : nat) (c : PostCall) (result : Response)
    (n : nat) :
  length (filter (λ ev, is_observer_call k ev = true)
            (invocations d c result n))
  = if decide (k < n) then 1 else 0.
Proof.
  unfold invocations. induction n as [|n IH]; [done|].
  rewrite seq_S, fmap_app, filter_app, length_app, IH. simpl.
  destruct (decide (n = k)) as [->|Hne].
  - rewrite filter_cons_True by (simpl; by rewrite bool_decide_eq_true_2).
    simpl. repeat case_decide; lia.
  - rewrite filter_cons_False
      by (simpl; by rewrite bool_decide_eq_false_2).
    simpl. repeat case_decide; lia.
Qed.

Lemma observer_in_log (rt : Runtime) (d k : nat) (u : string) (b : Body.t)
    (r : Response) :
  LogInv rt -> Observer d k u b r ∈ log rt ->
  ∃ c options,
    posts rt !! d = Some c ∧ u = target c ∧ b = hookData c
    ∧ Fetch d (target c) options ∈ log rt
    ∧ FetchSettled d (Resolves r) ∈ log rt.
Proof.
  intros Hl Hin.
  pose proof (log_bound rt Hl _ Hin) as Hlt. simpl in Hlt.
  destruct (lookup_lt_is_Some_2 _ _ Hlt) as [c Hc].
  apply (in_history d) in Hin; [|done].
  destruct (history_shape rt d c Hl Hc) as
    (options & [[_ Hh]|[(e & _ & Hh)|(res & n & st & _ & _ & Hh & HF)]]);
    rewrite Hh in Hin.
  - apply list_elem_of_singleton in Hin. done.
  - apply elem_of_cons in Hin. destruct Hin as [?|Hin]; [done|].
    apply list_elem_of_singleton in Hin. done.
  - apply elem_of_cons in Hin. destruct Hin as [?|Hin]; [done|].
    apply elem_of_cons in Hin. destruct Hin as [?|Hin]; [done|].
    apply (not_settled_invocation _ _ _ _ _ _ HF) in Hin.
    destruct Hin as (_ & _ & -> & -> & ->).
    exists c, options. do 3 (split; [done|]). split.
    + eapply (proj1 (history_elem d _ _)). rewrite Hh. by left.
    + eapply (proj1 (history_elem d _ _)). rewrite Hh. right. by left.
Qed.

Lemma run_start_invariants (H : Host) (props : WebhooksProps.t)
    (actions : list Action) :
  let rt := run H (start props) actions in
  Inv rt ∧ WaitInv rt ∧ SentInv H rt
  ∧ same_configuration (constructor props) (this rt).
Proof.
  intros rt. split; [apply run_Inv, start_Inv|]. split.
  { apply run_WaitInv; [apply start_Inv | apply start_WaitInv]. }
  split; [apply run_SentInv, start_SentInv|].
  apply (run_this H (start props)).
Qed.

Lemma moved_alls_settled (rt : Runtime) (d t : nat) (k : Continuation)
    (evs : list Event) (p : PromiseAll) :
  settled k = true -> alls rt !! t = Some p ->
  alls (moved rt d k evs) !! t
  = Some (Promise_all_react (alter (at_point k) d (posts rt)) d p).
Proof.
  intros Hk Hp. unfold moved. simpl.
  by rewrite Hk, list_lookup_fmap, Hp.
Qed.

Lemma callback_results_void (u : string) (b : Body.t) (r : Response)
    (cbs : list onDoneCallback) :
  (∀ cb, cb ∈ cbs -> cb u b r = ReturnsVoid) ->
  after_callbacks r (callback_results u b r cbs) = Returned r.
Proof.
  intros Hv.
  assert (∃ ws, callback_results u b r cbs = inr ws
                ∧ forallb is_fulfilled ws = true) as (ws & -> & Hf).
  { induction cbs as [|cb cbs IH]; simpl; [by exists []|].
    rewrite (Hv cb) by by left.
    destruct IH as (ws & -> & Hf); [intros cb' ?; apply Hv; by right|].
    by exists (Fulfilled tt :: ws). }
  unfold after_callbacks. by rewrite Hf.
Qed.

Lemma invoked_snoc (u : string) (b : Body.t) (r : Response)
    (cbs : list onDoneCallback) (cb : onDoneCallback) :
  (∀ cb' e, cb' ∈ cbs -> cb' u b r ≠ Throws e) ->
  length cbs < invoked u b r (cbs ++ [cb]).
Proof.
  induction cbs as [|cb0 cbs IH]; intros Hno; simpl.
  - destruct (cb u b r); lia.
  - destruct (cb0 u b r) as [e| |] eqn:E.
    + exfalso. apply (Hno cb0 e); [by left | done].
    + assert (length cbs < invoked u b r (cbs ++ [cb])); [|lia].
      apply IH. intros cb' e Hin. apply Hno. by right.
    + assert (length cbs < invoked u b r (cbs ++ [cb])); [|lia].
      apply IH. intros cb' e Hin. apply Hno. by right.
Qed.

Lemma run_alls_settled (H : Host) (rt : Runtime) (t : nat) (p : PromiseAll)
    (actions : list Action) :
  alls rt !! t = Some p -> outcome p ≠ Pending ->
  alls (run H rt actions) !! t = Some p.
Proof.
  intros Ht Hp.
  destruct (run_alls H rt actions t p Ht) as (p' & Hp' & _ & Hs).
  rewrite Hp'. f_equal. by apply Hs.
Qed.

(** ** The log only grows *)



(** ** What a call of [post] has waited for *)

Lemma invoked_le (u : string) (b : Body.t) (r : Response)
    (cbs : list onDoneCallback) :
  invoked u b r cbs <= length cbs.
Proof.
  induction cbs as [|cb cbs IH]; simpl; [done|].
  destruct (cb u b r); lia.
Qed.

Lemma callback_results_pending (u : string) (b : Body.t) (r : Response)
    (cbs : list onDoneCallback) (ws : list (PromiseState unit)) (k : nat)
    (cb : onDoneCallback) :
  callback_results u b r cbs = inr ws ->
  cbs !! k = Some cb -> cb u b r = ReturnsPromise ->
  ws !! k = Some Pending.
Proof.
  revert ws k. induction cbs as [|cb0 cbs IH]; intros ws k Hr Hk Hcb;
    [done|]. simpl in Hr.
  destruct (cb0 u b r) as [e| |] eqn:E; [done| |];
    destruct (callback_results u b r cbs) as [e|ws'] eqn:Ecb;
    simplify_eq/=; destruct k as [|k]; simplify_eq/=;
    try done; try congruence; by eapply IH.
Qed.

Lemma fulfilled_not_pending (ws : list (PromiseState unit)) (k : nat) :
  forallb is_fulfilled ws = true -> ws !! k ≠ Some Pending.
Proof.
  intros Hf Hk. apply list_elem_of_lookup_2 in Hk.
  rewrite forallb_forall in Hf. apply list_elem_of_In in Hk.
  by apply Hf in Hk.
Qed.

(** The condition survives events that are no call of an observer for
    the call, and a receiver with more observers. *)
Lemma awaited_ok_mono (this this' : WebhookClient) (l evs : list Event)
    (d : nat) (c : PostCall) :
  (∀ k cb, k < length (internalEvent this) ->
           internalEvent this' !! k = Some cb ->
           internalEvent this !! k = Some cb) ->
  (∀ k u b r, Observer d k u b r ∈ l -> k < length (internalEvent this)) ->
  (∀ k u b r, Observer d k u b r ∉ evs) ->
  awaited_ok this l d c -> awaited_ok this' (l ++ evs) d c.
Proof.
  intros Hcb Hbound Hevs Hold k result cb Hin Hk Hret.
  apply elem_of_app in Hin. destruct Hin as [Hin|Hin]; [|by apply Hevs in Hin].
  specialize (Hold k result cb Hin (Hcb k cb (Hbound _ _ _ _ Hin) Hk) Hret).
  destruct (point c); try done.
  - destruct Hold as [?|?]; [by left|right]. apply elem_of_app. by left.
  - apply elem_of_app. by left.
Qed.

Lemma start_AwaitInv (props : WebhooksProps.t) : AwaitInv (start props).
Proof.
  split; simpl.
  - intros d k u b r Hin. by apply elem_of_nil in Hin.
  - intros d k o Hin. by apply elem_of_nil in Hin.
  - intros d c Hc. by rewrite lookup_nil in Hc.
Qed.

Lemma AwaitInv_this (rt : Runtime) (this' : WebhookClient) :
  internalEvent (this rt) `prefix_of` internalEvent this' ->
  AwaitInv rt ->
  AwaitInv {| this := this';
              uuid_calls := uuid_calls rt; now_calls := now_calls rt;
              stringify_calls := stringify_calls rt;
              posts := posts rt; alls := alls rt; log := log rt |}.
Proof.
  intros [more Hpre] [Hb Hs Ha]. split; simpl.
  - intros d k u b r Hin. apply Hb in Hin. rewrite Hpre, length_app. lia.
  - done.
  - intros d c Hc. specialize (Ha d c Hc).
    apply (awaited_ok_mono (this rt) this' (log rt) [] d c) in Ha.
    + by rewrite app_nil_r in Ha.
    + intros k cb Hk Hcb. rewrite Hpre in Hcb.
      by rewrite lookup_app_l in Hcb.
    + intros k u b r Hin. by eapply Hb.
    + intros k u b r Hin. by apply elem_of_nil in Hin.
Qed.

Lemma AwaitInv_trigger (H : Host) (type : EventType) (data : option JSValue)
    (rt : Runtime) :
  LogInv rt -> AwaitInv rt -> AwaitInv (trigger H type data rt).2.
Proof.
  intros Hl [Hb Hs Ha]. rewrite trigger_eq.
  assert (∀ d k u b r,
            Observer d k u b r
            ∉ imap (built_fetch H rt type data)
                (getWebhooks (this rt) type).1) as Hnew.
  { intros d k u b r Hin. apply elem_of_lookup_imap in Hin.
    by destruct Hin as (? & ? & ? & _). }
  split; simpl.
  - intros d k u b r Hin. apply elem_of_app in Hin.
    destruct Hin as [Hin|Hin]; [by eapply Hb | by apply Hnew in Hin].
  - intros d k o Hin. apply elem_of_app in Hin. destruct Hin as [Hin|Hin].
    + destruct (Hs d k o Hin) as (u & b & r & Hobs).
      exists u, b, r. apply elem_of_app. by left.
    + apply elem_of_lookup_imap in Hin. by destruct Hin as (? & ? & ? & _).
  - intros d c Hc. apply lookup_app_Some in Hc. destruct Hc as [Hc|[Hge Hc]].
    + apply (awaited_ok_mono (this rt)); try done.
      * intros k u b r Hin. by eapply Hb.
      * by apply Ha.
    + intros k result cb Hin _ _. exfalso.
      apply elem_of_app in Hin. destruct Hin as [Hin|Hin].
      * apply (log_bound rt Hl) in Hin. simpl in Hin. lia.
      * by apply Hnew in Hin.
Qed.

Lemma AwaitInv_moved (rt : Runtime) (d : nat) (c : PostCall)
    (k : Continuation) (evs : list Event) :
  posts rt !! d = Some c ->
  Forall (λ ev, delivery ev = d) evs ->
  (∀ j u b r, Observer d j u b r ∈ evs ->
              j < length (internalEvent (this rt))) ->
  (∀ j o, ObserverSettled d j o ∈ evs ->
          ∃ u b r, Observer d j u b r ∈ log rt ++ evs) ->
  awaited_ok (this rt) (log rt ++ evs) d (at_point k c) ->
  AwaitInv rt -> AwaitInv (moved rt d k evs).
Proof.
  intros Hc Hevs Hnewb Hnews Hnew [Hb Hs Ha].
  rewrite Forall_forall in Hevs. split; unfold moved; simpl.
  - intros d' j u b r Hin. apply elem_of_app in Hin.
    destruct Hin as [Hin|Hin]; [by eapply Hb|].
    pose proof (Hevs _ Hin) as Hd. simpl in Hd. subst d'. by eapply Hnewb.
  - intros d' j o Hin. apply elem_of_app in Hin. destruct Hin as [Hin|Hin].
    + destruct (Hs d' j o Hin) as (u & b & r & Hobs).
      exists u, b, r. apply elem_of_app. by left.
    + pose proof (Hevs _ Hin) as Hd. simpl in Hd. subst d'. by apply (Hnews j o).
  - intros d' c' Hc'. rewrite lookup_alter_point in Hc'.
    case_decide as Hd.
    + subst d'. rewrite Hc in Hc'. by simplify_eq/=.
    + apply (awaited_ok_mono (this rt)); try done.
      * intros j u b r Hin. by eapply Hb.
      * intros j u b r Hin. apply Hevs in Hin. simpl in Hin. congruence.
      * by apply Ha.
Qed.

Lemma AwaitInv_fetch (rt : Runtime) (d : nat) (c : PostCall)
    (o : Settled Response) :
  posts rt !! d = Some c -> point c = AtFetch ->
  LogInv rt -> AwaitInv rt ->
  AwaitInv (moved rt d (after_fetch (this rt) c o)
              (fetch_events (this rt) d c o)).
Proof.
  intros Hc Hp Hl.
  assert (∀ j u b r, Observer d j u b r ∉ log rt) as Hold.
  { intros j u b r Hev. apply (in_history d) in Hev; [|done].
    destruct (history_shape rt d c Hl Hc) as
      (options & [[_ Hh]|[(e & Hp' & _)|(res & n & st & Hp' & _)]]);
      try congruence.
    rewrite Hh in Hev. apply list_elem_of_singleton in Hev. done. }
  assert (∀ j u b r, Observer d j u b r
                     ∈ log rt ++ fetch_events (this rt) d c o ->
            ∃ result, o = Resolves result ∧ u = target c ∧ b = hookData c
              ∧ r = result
              ∧ j < invoked (target c) (hookData c) result
                      (internalEvent (this rt))) as Hobs.
  { intros j u b r Hin. apply elem_of_app in Hin. destruct Hin as [Hin|Hin].
    { by apply Hold in Hin. }
    unfold fetch_events in Hin.
    apply elem_of_cons in Hin. destruct Hin as [?|Hin]; [done|].
    destruct o as [result|e]; [|by apply elem_of_nil in Hin].
    unfold invocations in Hin. apply list_elem_of_fmap in Hin.
    destruct Hin as (j' & Heq & Hj'). apply elem_of_seq in Hj'.
    simplify_eq. exists result. repeat split; try done. lia. }
  apply (AwaitInv_moved rt d c); [done|apply fetch_events_delivery| | |].
  - intros j u b r Hin.
    destruct (Hobs j u b r) as (result & _ & _ & _ & _ & Hj).
    { apply elem_of_app. by right. }
    pose proof (invoked_le (target c) (hookData c) result
                  (internalEvent (this rt))). lia.
  - intros j o' Hin. unfold fetch_events in Hin.
    apply elem_of_cons in Hin. destruct Hin as [?|Hin]; [done|].
    destruct o as [result|e]; [|by apply elem_of_nil in Hin].
    unfold invocations in Hin. apply list_elem_of_fmap in Hin.
    by destruct Hin as (? & ? & _).
  - intros j result cb Hin Hcb Hret. simpl in *.
    destruct (Hobs _ _ _ _ Hin) as (res & -> & _ & _ & -> & Hj).
    unfold after_fetch.
    destruct (callback_results (target c) (hookData c) res
                (internalEvent (this rt))) as [e|ws] eqn:Ecb; simpl; [done|].
    pose proof (callback_results_pending _ _ _ _ _ _ _ Ecb Hcb Hret) as Hpend.
    destruct (forallb is_fulfilled ws) eqn:Hf.
    + by apply fulfilled_not_pending in Hpend.
    + by left.
Qed.

Lemma AwaitInv_observer (rt : Runtime) (d k : nat) (c : PostCall)
    (result : Response) (ws : list (PromiseState unit)) (o : Settled unit) :
  posts rt !! d = Some c -> point c = AtObservers result ws ->
  ws !! k = Some Pending ->
  WaitInv rt -> AwaitInv rt ->
  AwaitInv (moved rt d (after_observer result ws k o)
              [ObserverSettled d k o]).
Proof.
  intros Hc Hp Hk Hw Hinv.
  pose proof (Hw d c Hc) as Hwait. unfold wait_ok in Hwait.
  rewrite Hp in Hwait. destruct Hwait as (_ & _ & Hall).
  destruct (Hall k Hk) as (_ & Hcalled & _).
  apply (AwaitInv_moved rt d c); [done|by repeat constructor| | | |done].
  - intros j u b r Hin. apply list_elem_of_singleton in Hin. done.
  - intros j o' Hin. apply list_elem_of_singleton in Hin. simplify_eq.
    eexists _, _, _. apply elem_of_app. left. exact Hcalled.
  - intros j res cb Hin Hcb Hret. simpl in *.
    apply elem_of_app in Hin. destruct Hin as [Hin|Hin];
      [|by apply list_elem_of_singleton in Hin].
    pose proof (awaited rt Hinv d c Hc j res cb Hin Hcb Hret) as Hold.
    rewrite Hp in Hold. unfold after_observer.
    destruct o as [[]|e]; [|done]. unfold after_callbacks.
    destruct (decide (j = k)) as [->|Hjk].
    { assert (ObserverSettled d k (Resolves tt)
              ∈ log rt ++ [ObserverSettled d k (Resolves tt)]) as Hnew
        by (apply elem_of_app; right; by left).
      destruct (forallb is_fulfilled _); [done | by right]. }
    destruct Hold as [Hpend|Hset].
    + assert (<[k := Fulfilled tt]> ws !! j = Some Pending) as Hpend'
        by by rewrite list_lookup_insert_ne.
      destruct (forallb is_fulfilled _) eqn:Hf.
      * by apply fulfilled_not_pending in Hpend'.
      * by left.
    + assert (ObserverSettled d j (Resolves tt)
              ∈ log rt ++ [ObserverSettled d k (Resolves tt)]) as Hnew
        by (apply elem_of_app; by left).
      destruct (forallb is_fulfilled _); [done | by right].
Qed.

Lemma step_AwaitInv (H : Host) (rt : Runtime) (a : Action) :
  Inv rt -> WaitInv rt -> AwaitInv rt -> AwaitInv (step H rt a).
Proof.
  intros [_ Hl] Hw Ha. pose proof (step_environment H rt a) as Henv.
  destruct a as [url events|callback|type data|d o|d k o].
  - by apply (AwaitInv_this rt).
  - apply (AwaitInv_this rt); [|done]. simpl. by apply prefix_app_r.
  - by apply AwaitInv_trigger.
  - destruct Henv as [->|(c & Hc & Hp & ->)]; [done|].
    by apply AwaitInv_fetch.
  - destruct Henv as [->|(c & result & ws & Hc & Hp & Hk & ->)]; [done|].
    by eapply AwaitInv_observer.
Qed.

Lemma run_AwaitInv (H : Host) (rt : Runtime) (actions : list Action) :
  Inv rt -> WaitInv rt -> AwaitInv rt -> AwaitInv (run H rt actions).
Proof.
  revert rt. induction actions as [|a actions IH]; intros rt Hi Hw Ha;
    [done|].
  simpl. apply IH;
    [by apply step_Inv | by apply step_WaitInv | by apply step_AwaitInv].
Qed.

Lemma run_start_AwaitInv (H : Host) (props : WebhooksProps.t)
    (actions : list Action) :
  AwaitInv (run H (start props) actions).
Proof.
  apply run_AwaitInv;
    [apply start_Inv | apply start_WaitInv | apply start_AwaitInv].
Qed.

(** ** The scenarios of [test/dispatch.test.ts], run on the sample host *)

(** ['nothing should happen']: no hook, so no request, and the promise is
    fulfilled with the empty list. *)
Example nothing_should_happen :
  let rt := run sample_host (start test_props)
              [CallTrigger "did_something" None] in
  requests (start test_props) rt = []
  ∧ alls rt = [{| inputs := []; outcome := Fulfilled [] |}].
Proof. vm_compute. by split. Qed.

(** ['should trigger']: one request, to the hook's URL, with the data in
    the envelope. *)
Example should_trigger :
  let rt0 := run sample_host (start test_props)
               [CallAdd "https://myhook.com" (Some ["did_something"])] in
  let rt := step sample_host rt0
              (CallTrigger "did_something" (OmitBody.data sample_data)) in
  (λ r, (r.1.1, r.1.2)) <$> requests rt0 rt = [(0, "https://myhook.com")]
  ∧ Body.data <$> envelopes rt0 rt = [OmitBody.data sample_data].
Proof. vm_compute. by split. Qed.

(** ['should not trigger a different event']. *)
Example should_not_trigger_a_different_event :
  let rt0 := run sample_host (start test_props)
               [CallAdd "https://myhook.com" (Some ["did_something"])] in
  requests rt0 (step sample_host rt0 (CallTrigger "something_else" None))
  = [].
Proof. vm_compute. reflexivity. Qed.

(** ['should send the correct headers']: production mode and the name
    [EatingDots]. *)
Example should_send_the_correct_headers :
  let props :=
    {| WebhooksProps.api_version := "2020-08-27";
       WebhooksProps.secret := "s3cr3t";
       WebhooksProps.hooks :=
         Some [{| url := "https://localhost/webhook";
                  events := Some ["did_something"] |}];
       WebhooksProps.mode := Some production;
       WebhooksProps.name := Some "EatingDots" |} in
  let rt := step sample_host (start props)
              (CallTrigger "did_something" (OmitBody.data sample_data)) in
  ∃ options signature,
    requests (start props) rt = [(0, "https://localhost/webhook", options)]
    ∧ headers options !! "X-Environment" = Some "production"
    ∧ headers options !! "X-EatingDots-Signature" = Some signature
    ∧ verifySignature sample_host "s3cr3t" signature (body options) = true.
Proof.
  intros props rt.
  exists (built_options sample_host (start props) "did_something"
            (OmitBody.data sample_data) 0).
  eexists. vm_compute. repeat split.
Qed.

(** ['should trigger onDone function']: the observer is called with the
    URL, the envelope and the response once [fetch] has resolved, and
    [trigger] is then fulfilled with the response. *)
Example should_trigger_onDone :
  let rt := run sample_host (start test_props)
              [CallOnDone plain_observer;
               CallAdd "https://myhook.com" (Some ["did_something"]);
               CallTrigger "did_something" (OmitBody.data sample_data);
               FetchSettles 0 (Resolves sample_response)] in
  ∃ options b,
    log rt = [Fetch 0 "https://myhook.com" options;
              FetchSettled 0 (Resolves sample_response);
              Observer 0 0 "https://myhook.com" b sample_response]
    ∧ Body.data b = OmitBody.data sample_data
    ∧ alls rt = [{| inputs := [0];
                    outcome := Fulfilled [sample_response] |}].
Proof.
  intros rt.
  exists (built_options sample_host
            (run sample_host (start test_props)
               [CallOnDone plain_observer;
                CallAdd "https://myhook.com" (Some ["did_something"])])
            "did_something" (OmitBody.data sample_data) 0).
  eexists. vm_compute. repeat split.
Qed.

(** A rejected [fetch] rejects the promise of [trigger] at once, and the
    other delivery still completes. *)
Example first_rejection_wins :
  let rt := run sample_host (start (sample_props None))
              [CallTrigger "did_something" None;
               FetchSettles 1 (Rejects "ECONNREFUSED");
               FetchSettles 0 (Resolves sample_response)] in
  alls rt = [{| inputs := [0; 1]; outcome := Rejected "ECONNREFUSED" |}]
  ∧ point <$> posts rt = [Returned sample_response; Threw "ECONNREFUSED"].
Proof. vm_compute. by split. Qed.

(** The secrets of that instance and of the default length. *)
Example createSecret_rounds :
  createSecret rounding_random 536870888 4 0
    (Some (S754_finite false 5629499534213120 (-51)))
  = Returns "HHH" 3
  ∧ createSecret sample_random 536870888 33 0 None
    = Returns "agnuBHOV29fmtAGNU18elszFMT07dkry" 32
  ∧ createSecret sample_random 3 33 0 None = RangeError
  ∧ createSecret sample_random 536870888 33 0 (Some (S754_infinity false))
    = Running.
Proof. vm_compute. repeat split. Qed.

(** * The claims *)

(** C1 (as amended). In a [trigger] call, [uuidv4()] is evaluated for
    [idempotency_key] inside the callback of [map], once per matched
    subscriber, and once more in [post] for [id].  When the identifiers
    drawn during the call are pairwise different, any two subscribers'
    envelopes of the call differ in [idempotency_key] and differ in [id];
    there is one envelope per matched subscriber. *)
Theorem trigger_keys_per_subscriber (H : Host) (rt : Runtime)
    (type : EventType) (data : option JSValue) :
  let ws := (getWebhooks (this rt) type).1 in
  let envs := envelopes rt (trigger H type data rt).2 in
  NoDup (uuidv4 H <$> seq (uuid_calls rt) (2 * length ws)) ->
  length envs = length ws
  ∧ ∀ i j bi bj,
      envs !! i = Some bi -> envs !! j = Some bj -> i ≠ j ->
      Body.idempotency_key bi ≠ Body.idempotency_key bj
      ∧ Body.id bi ≠ Body.id bj.
Proof.
  intros ws envs Hnd. unfold envs. rewrite envelopes_trigger. fold ws.
  split; [by rewrite length_imap|].
  intros i j bi bj Hi Hj Hij.
  apply built_envelope_lookup in Hi. destruct Hi as [Hi ->].
  apply built_envelope_lookup in Hj. destruct Hj as [Hj ->].
  simpl. split; intros Heq;
    apply (NoDup_fmap_seq_inj _ _ _ _ _ Hnd) in Heq; lia.
Qed.

(** An instance: the sample client, whose first two hooks match. *)
Lemma trigger_keys_per_subscriber_witness :
  let H := sample_host in
  let rt := start (sample_props None) in
  let ws := (getWebhooks (this rt) "did_something").1 in
  let envs := envelopes rt (trigger H "did_something" None rt).2 in
  NoDup (uuidv4 H <$> seq (uuid_calls rt) (2 * length ws))
  ∧ length envs = length ws
  ∧ ∀ i j bi bj,
      envs !! i = Some bi -> envs !! j = Some bj -> i ≠ j ->
      Body.idempotency_key bi ≠ Body.idempotency_key bj
      ∧ Body.id bi ≠ Body.id bj.
Proof.
  intros H rt ws envs.
  assert (NoDup (uuidv4 H <$> seq (uuid_calls rt) (2 * length ws))) as Hnd.
  { apply (bool_decide_unpack _). vm_compute. exact I. }
  split; [exact Hnd|].
  exact (trigger_keys_per_subscriber H rt "did_something" None Hnd).
Defined.

(** C1, the claim as stated, fails: with two matched subscribers and
    pairwise different identifiers, the two envelopes of one [trigger]
    call carry different [idempotency_key]s. *)
Lemma idempotency_key_not_shared :
  let rt := start (sample_props None) in
  let envs := envelopes rt (trigger sample_host "did_something" None rt).2 in
  length envs = 2
  ∧ NoDup (uuidv4 sample_host <$> seq 0 4)
  ∧ ∃ b0 b1,
      envs !! 0 = Some b0 ∧ envs !! 1 = Some b1
      ∧ Body.idempotency_key b0 = "uuid-0"
      ∧ Body.idempotency_key b1 = "uuid-2"
      ∧ Body.idempotency_key b0 ≠ Body.idempotency_key b1.
Proof.
  split; [vm_compute; reflexivity|]. split.
  - apply (bool_decide_unpack _). vm_compute. exact I.
  - eexists _, _. vm_compute.
    split; [reflexivity|]. split; [reflexivity|].
    split; [reflexivity|]. split; [reflexivity|]. discriminate.
Qed.

(** C2. Verifying the signature that [getSignature] produced for a secret
    and a body succeeds, and in general [verifySignature] answers [true]
    exactly when [getSignature secret body] is the given signature. *)
Theorem verifySignature_iff (H : Host) (secret body : string) :
  verifySignature H secret (getSignature H secret body) body = true
  ∧ ∀ signature,
      verifySignature H secret signature body = true
      ↔ getSignature H secret body = signature.
Proof.
  unfold verifySignature. split.
  - apply String.eqb_refl.
  - intros signature. apply String.eqb_eq.
Qed.

(** C3. A call of [post] calls [JSON.stringify] exactly once, and the
    string that call returned is both the [body] of the request given to
    [fetch] and the message of the signature in the request's signature
    header; this holds even for a serialisation that would answer
    differently when called again.  In a [trigger] call the [i]-th request
    carries the result of the [i]-th serialisation, so there is one
    serialisation per request. *)
Theorem post_signs_sent_body (H : Host) (rt : Runtime) :
  (∀ url data,
     let rt' := (post H url data rt).2 in
     stringify_calls rt' = S (stringify_calls rt)
     ∧ ∃ c options,
         posts rt' = posts rt ++ [c]
         ∧ log rt' = log rt ++ [Fetch (length (posts rt)) url options]
         ∧ body options
           = JSON_stringify H (stringify_calls rt) (hookData c)
         ∧ headers options !! signature_header (name (this rt))
           = Some (getSignature H (secret (this rt)) (body options)))
  ∧ (∀ type data,
       let rt' := (trigger H type data rt).2 in
       stringify_calls rt'
       = stringify_calls rt + length (requests rt rt')
       ∧ ∀ i d url options,
           requests rt rt' !! i = Some (d, url, options) ->
           ∃ c, posts rt' !! d = Some c
                ∧ target c = url
                ∧ body options
                  = JSON_stringify H (stringify_calls rt + i) (hookData c)
                ∧ headers options !! signature_header (name (this rt))
                  = Some (getSignature H (secret (this rt))
                            (body options))).
Proof.
  split.
  - intros url data rt'. unfold rt'. rewrite post_eq. simpl.
    split; [done|]. eexists _, _. split; [done|]. split; [done|].
    split; [done|]. simpl. apply lookup_insert_eq.
  - intros type data rt'. unfold rt'. rewrite requests_trigger.
    rewrite trigger_eq. simpl. rewrite length_imap. split; [done|].
    intros i d url options Hi. rewrite list_lookup_imap in Hi.
    destruct (Array_filter (wants type) (hooks (this rt)) !! i)
      as [h|] eqn:Hh; simplify_eq/=.
    exists (built_call H rt type data i h).
    rewrite lookup_app_r by lia.
    replace (length (posts rt) + i - length (posts rt)) with i by lia.
    rewrite list_lookup_imap, Hh. simpl.
    split; [done|]. split; [done|]. split; [done|].
    apply lookup_insert_eq.
Qed.

(** C4. [getWebhooks] returns the registry entries whose [events] is absent
    or contains the event, all of them and no other, in registry order, it
    is the only list doing so, and the receiver is the same after the
    call. *)
Theorem getWebhooks_selects (this : WebhookClient) (event : EventType) :
  selects (interested event) (hooks this) (getWebhooks this event).1
  ∧ (∀ out, selects (interested event) (hooks this) out ->
            out = (getWebhooks this event).1)
  ∧ (getWebhooks this event).2 = this.
Proof.
  split; [apply Array_filter_selects|]. split; [|done].
  intros out Hout.
  exact (selects_functional _ _ _ _ Hout (Array_filter_selects event _)).
Qed.


(** C6. When no subscriber matches the event type, [trigger] returns a
    promise that is already fulfilled with the empty list and stays so
    whatever happens later; the call makes no request, starts no call of
    [post] (so no observer is ever invoked for it), logs nothing, and the
    promise is never rejected. *)
Theorem trigger_without_match (H : Host) (rt : Runtime) (type : EventType)
    (data : option JSValue) :
  (getWebhooks (this rt) type).1 = [] ->
  let t := (trigger H type data rt).1 in
  let rt' := (trigger H type data rt).2 in
  alls rt' !! t = Some {| inputs := []; outcome := Fulfilled [] |}
  ∧ requests rt rt' = []
  ∧ log rt' = log rt
  ∧ posts rt' = posts rt
  ∧ ∀ actions,
      alls (run H rt' actions) !! t
      = Some {| inputs := []; outcome := Fulfilled [] |}.
Proof.
  intros Hws t rt'.
  assert (alls rt' !! t = Some {| inputs := []; outcome := Fulfilled [] |})
    as Ht.
  { unfold t, rt'. rewrite trigger_eq. simpl in *. rewrite Hws. simpl.
    by rewrite list_lookup_middle. }
  split; [done|]. split.
  { unfold rt'. rewrite requests_trigger. by rewrite Hws. }
  split.
  { unfold rt'. rewrite trigger_eq. simpl in *. rewrite Hws. simpl.
    by rewrite app_nil_r. }
  split.
  { unfold rt'. rewrite trigger_eq. simpl in *. rewrite Hws. simpl.
    by rewrite app_nil_r. }
  intros actions.
  destruct (run_alls H rt' actions t _ Ht) as (p' & Hp' & _ & Hsame).
  rewrite Hp'. f_equal. by apply Hsame.
Qed.

(** An instance: the client of the test file with one hook for
    [did_something], triggered with [something_else]. *)
Lemma trigger_without_match_witness :
  let H := sample_host in
  let rt := run H (start test_props)
              [CallAdd "https://myhook.com" (Some ["did_something"])] in
  let t := (trigger H "something_else" None rt).1 in
  let rt' := (trigger H "something_else" None rt).2 in
  (getWebhooks (this rt) "something_else").1 = []
  ∧ alls rt' !! t = Some {| inputs := []; outcome := Fulfilled [] |}
  ∧ requests rt rt' = []
  ∧ log rt' = log rt
  ∧ posts rt' = posts rt
  ∧ ∀ actions,
      alls (run H rt' actions) !! t
      = Some {| inputs := []; outcome := Fulfilled [] |}.
Proof.
  intros H rt t rt'.
  assert ((getWebhooks (this rt) "something_else").1 = []) as Hws
    by (vm_compute; reflexivity).
  split; [exact Hws|].
  exact (trigger_without_match H rt "something_else" None Hws).
Defined.

(** C7 (as amended). When the [fetch] of a delivery resolves, the
    observers registered at that moment are called with the delivery's
    URL, its envelope and the response, in registration order and in the
    same turn, up to the first one that throws, so all of them when none
    throws; when the [fetch] rejects, none is called.  In every log, a
    call of an observer comes after the resolution of the [fetch] of its
    delivery and after the calls of the observers registered before it,
    that [fetch] has not rejected, and no promise returned by an observer
    of the delivery has settled before the call: the observers are all
    started before any of them is awaited.  The promises they returned are
    then awaited together: the call of [post] is suspended while one of
    them is unsettled (unless it has ended with an exception), any of them
    may settle next, the first rejection ends the call with its reason,
    the call returns the response when the last one is fulfilled, and a
    call that has returned has seen every one of them fulfilled. *)
Theorem observers_follow_transport (H : Host) (props : WebhooksProps.t)
    (actions : list Action) :
  let rt := run H (start props) actions in
  (∀ d c result,
     posts rt !! d = Some c -> point c = AtFetch ->
     let callbacks := internalEvent (this rt) in
     let n := invoked (target c) (hookData c) result callbacks in
     log (step H rt (FetchSettles d (Resolves result)))
     = log rt ++ FetchSettled d (Resolves result)
                 :: invocations d c result n
     ∧ ((∀ callback e,
           callback ∈ callbacks ->
           callback (target c) (hookData c) result ≠ Throws e) ->
        n = length callbacks))
  ∧ (∀ d c e,
       posts rt !! d = Some c -> point c = AtFetch ->
       log (step H rt (FetchSettles d (Rejects e)))
       = log rt ++ [FetchSettled d (Rejects e)])
  ∧ (∀ l1 l2 d k u b r,
       log rt = l1 ++ Observer d k u b r :: l2 ->
       (∃ c, posts rt !! d = Some c ∧ u = target c ∧ b = hookData c)
       ∧ FetchSettled d (Resolves r) ∈ l1
       ∧ (∀ e, FetchSettled d (Rejects e) ∉ log rt)
       ∧ (∀ j, j < k -> Observer d j u b r ∈ l1)
       ∧ (∀ j o, ObserverSettled d j o ∉ l1))
  ∧ (∀ d c k u b r cb,
       posts rt !! d = Some c ->
       Observer d k u b r ∈ log rt ->
       internalEvent (this rt) !! k = Some cb ->
       cb u b r = ReturnsPromise ->
       (∀ r', point c = Returned r' ->
              ObserverSettled d k (Resolves tt) ∈ log rt)
       ∧ ((∀ o, ObserverSettled d k o ∉ log rt) ->
          (∃ result ws, point c = AtObservers result ws
                        ∧ ws !! k = Some Pending)
          ∨ ∃ e, point c = Threw e))
  ∧ (∀ d c result ws k o,
       posts rt !! d = Some c -> point c = AtObservers result ws ->
       ws !! k = Some Pending ->
       let rt' := step H rt (ObserverSettles d k o) in
       log rt' = log rt ++ [ObserverSettled d k o]
       ∧ ∃ c', posts rt' !! d = Some c'
               ∧ point c'
                 = match o with
                   | Rejects e => Threw e
                   | Resolves _ =>
                       if forallb is_fulfilled (<[k := Fulfilled tt]> ws)
                       then Returned result
                       else AtObservers result (<[k := Fulfilled tt]> ws)
                   end)
  ∧ (∀ d c r,
       posts rt !! d = Some c ->
       FetchSettled d (Resolves r) ∈ log rt ->
       (∀ k cb u b r',
          internalEvent (this rt) !! k = Some cb ->
          Observer d k u b r' ∈ log rt ->
          (∀ e, cb u b r' ≠ Throws e)
          ∧ (cb u b r' = ReturnsPromise ->
             ∃ o, ObserverSettled d k o ∈ log rt)) ->
       (∀ k e, ObserverSettled d k (Rejects e) ∉ log rt) ->
       point c = Returned r).
Proof.
  intros rt.
  assert (Inv rt) as [_ Hl] by (apply run_Inv, start_Inv).
  assert (WaitInv rt) as Hw
    by (apply run_WaitInv; [apply start_Inv | apply start_WaitInv]).
  pose proof (run_start_AwaitInv H props actions) as Haw. fold rt in Haw.
  split; [|split; [|split; [|split; [|split]]]].
  - intros d c result Hc Hp callbacks n. split.
    + cbn [step]. by rewrite (resume_fetch_eq d _ rt c Hc Hp).
    + apply invoked_no_throw.
  - intros d c e Hc Hp. cbn [step].
    by rewrite (resume_fetch_eq d _ rt c Hc Hp).
  - intros l1 l2 d k u b r Hlog.
    assert (Observer d k u b r ∈ log rt) as Hin
      by (rewrite Hlog; set_solver).
    pose proof (log_bound rt Hl _ Hin) as Hlt. simpl in Hlt.
    destruct (lookup_lt_is_Some_2 _ _ Hlt) as [c Hc].
    destruct (history_shape rt d c Hl Hc) as
      (options & [[_ Hh]|[(e & _ & Hh)|(res & n & st & _ & _ & Hh & HF)]]).
    + apply (in_history d) in Hin; [|done]. rewrite Hh in Hin.
      apply list_elem_of_singleton in Hin. done.
    + apply (in_history d) in Hin; [|done]. rewrite Hh in Hin.
      apply elem_of_cons in Hin. destruct Hin as [?|Hin]; [done|].
      apply list_elem_of_singleton in Hin. done.
    + pose proof Hh as Hsplit. rewrite Hlog, history_split in Hsplit by done.
      apply observer_position in Hsplit; [|done|done].
      destruct Hsplit as (-> & -> & -> & Hk & HA).
      split; [by exists c|]. split; [|split; [|split]].
      * eapply (proj1 (history_elem d _ _)). rewrite HA. set_solver.
      * intros e He. apply (in_history d) in He; [|done].
        rewrite Hh in He.
        apply elem_of_cons in He. destruct He as [?|He]; [done|].
        apply elem_of_cons in He. destruct He as [?|He]; [done|].
        by apply (not_settled_invocation _ _ _ _ _ _ HF) in He.
      * intros j Hj. eapply (proj1 (history_elem d _ _)). rewrite HA.
        do 2 right. unfold invocations. apply list_elem_of_fmap.
        exists j. split; [done|]. apply elem_of_seq. lia.
      * intros j o Ho. apply (in_history d) in Ho; [|done].
        rewrite HA in Ho.
        apply elem_of_cons in Ho. destruct Ho as [?|Ho]; [done|].
        apply elem_of_cons in Ho. destruct Ho as [?|Ho]; [done|].
        unfold invocations in Ho. apply list_elem_of_fmap in Ho.
        by destruct Ho as (? & ? & _).
  - intros d c k u b r cb Hc Hin Hcb Hret.
    destruct (observer_in_log rt d k u b r Hl Hin)
      as (c' & _ & Hc' & -> & -> & _). simplify_eq.
    pose proof (awaited rt Haw d c Hc k r cb Hin Hcb Hret) as Hdone.
    split.
    + intros r' Hp. by rewrite Hp in Hdone.
    + intros Hno. destruct (point c) as [|result ws|result|e]; [done| | |].
      * left. exists result, ws. split; [done|].
        destruct Hdone as [?|Hset]; [done|]. by apply Hno in Hset.
      * by apply Hno in Hdone.
      * right. by exists e.
  - intros d c result ws k o Hc Hp Hk rt'. unfold rt'. cbn [step].
    rewrite (resume_observer_eq d k o rt c result ws Hc Hp Hk).
    unfold moved. cbn [log posts]. split; [done|].
    exists (at_point (after_observer result ws k o) c).
    rewrite lookup_alter_point, decide_True, Hc by done.
    split; [done|]. by destruct o as [[]|e].
  - intros d c r Hc Hres Hobs Hnorej.
    by apply (returned_when_complete rt d c r).
Qed.

(** C7, the claim as stated, fails: the observers of a delivery are not
    run one after the other, each awaited before the next starts.  With
    two observers, the first returning a promise, the second is called
    while that promise is pending; its settlement comes later in the
    log. *)
Lemma observers_not_sequential :
  let rt := run sample_host (start (sample_props None))
              [CallOnDone async_observer; CallOnDone plain_observer;
               CallTrigger "did_something" None;
               FetchSettles 0 (Resolves sample_response);
               ObserverSettles 0 0 (Resolves tt)] in
  ∃ l1 l2 u b,
    log rt = l1 ++ Observer 0 1 u b sample_response
                   :: l2 ++ [ObserverSettled 0 0 (Resolves tt)]
    ∧ Observer 0 0 u b sample_response ∈ l1
    ∧ async_observer u b sample_response = ReturnsPromise
    ∧ Forall (λ ev, match ev with
                    | ObserverSettled _ _ _ => False
                    | _ => True
                    end) l1.
Proof.
  intros rt.
  exists (take 4 (log rt)), [], "https://a.example",
    (Body.mk "uuid-1" "did_something" "uuid-0" "2020-08-27"
       1648135876829%Z None).
  vm_compute. split; [reflexivity|].
  split; [|split; [reflexivity|]].
  - do 3 right. left.
  - repeat constructor.
Qed.

(** C8 (as amended). The request of every call of [post] carries the
    signature in a header named [X-Signature] when no instance name is
    configured or the configured name is the empty string, and
    [X-<Name>-Signature] when a non-empty name is configured; in each
    case [verifySignature] accepts the header value for the body sent and
    the dispatcher's secret. *)
Theorem signature_header_verifies (H : Host) (url : string)
    (data : OmitBody.t) (rt : Runtime) :
  ∃ options signature,
    log (post H url data rt).2
    = log rt ++ [Fetch (length (posts rt)) url options]
    ∧ verifySignature H (secret (this rt)) signature (body options) = true
    ∧ (name (this rt) = None ∨ name (this rt) = Some EmptyString ->
       headers options !! "X-Signature" = Some signature)
    ∧ (∀ n, name (this rt) = Some n -> n ≠ EmptyString ->
            headers options !! ("X-" +:+ n +:+ "-Signature")
            = Some signature).
Proof.
  rewrite post_eq. simpl. eexists _, _. split; [done|]. simpl.
  split; [apply String.eqb_refl|]. split.
  - intros [Hn|Hn]; rewrite Hn; apply lookup_insert_eq.
  - intros n Hn Hne. rewrite Hn, signature_header_cases.
    destruct n as [|a n]; [done|]. apply lookup_insert_eq.
Qed.

(** C8, the claim as stated, fails for a configured name that is empty:
    the header [X-<Name>-Signature], here [X--Signature], is not in the
    request; the signature is under [X-Signature]. *)
Lemma empty_name_header :
  let rt := start (sample_props (Some EmptyString)) in
  let sent := requests rt (trigger sample_host "did_something" None rt).2 in
  name (this rt) = Some EmptyString
  ∧ ∃ options,
      sent !! 0 = Some (0, "https://a.example", options)
      ∧ headers options !! ("X-" +:+ EmptyString +:+ "-Signature") = None
      ∧ headers options !! "X-Signature"
        = Some (getSignature sample_host "this-is-a-secret" (body options)).
Proof.
  intros rt sent. split; [reflexivity|].
  exists (built_options sample_host rt "did_something" None 0).
  vm_compute. repeat split.
Qed.

(** C9. After any turns of the event loop (calls of [add], [$onDone] and
    [trigger], and settlements of promises), [api_version], [secret],
    [mode] and [name] hold what the constructor stored; [hooks] and
    [internalEvent] only grow at the end; only [add] changes [hooks], by
    one entry, and only [$onDone] changes [internalEvent], by one
    callback. *)
Theorem configuration_is_fixed (H : Host) (props : WebhooksProps.t)
    (before after : list Action) :
  let c1 := this (run H (start props) before) in
  let c2 := this (run H (start props) (before ++ after)) in
  api_version c2 = WebhooksProps.api_version props
  ∧ secret c2 = WebhooksProps.secret props
  ∧ mode c2 = default sandbox (WebhooksProps.mode props)
  ∧ name c2 = WebhooksProps.name props
  ∧ hooks c1 `prefix_of` hooks c2
  ∧ internalEvent c1 `prefix_of` internalEvent c2
  ∧ ∀ a,
      let c3 := this (step H (run H (start props) before) a) in
      hooks c3 = match a with
                 | CallAdd url events =>
                     hooks c1 ++ [{| url := url; events := events |}]
                 | _ => hooks c1
                 end
      ∧ internalEvent c3 = match a with
                           | CallOnDone callback =>
                               internalEvent c1 ++ [callback]
                           | _ => internalEvent c1
                           end.
Proof.
  intros c1 c2.
  destruct (run_this H (start props) (before ++ after))
    as (A & S & M & N & _ & _).
  assert (same_configuration c1 c2) as (_ & _ & _ & _ & Hh & Hi).
  { unfold c1, c2. rewrite run_app. apply run_this. }
  do 4 (split; [done|]). split; [done|]. split; [done|].
  intros a c3. unfold c3.
  pose proof (step_environment H (run H (start props) before) a) as Henv.
  destruct a as [url events|callback|type data|d o|d k o]; try done.
  - cbn [step]. by rewrite trigger_eq.
  - by destruct Henv as [->|(c & _ & _ & ->)].
  - by destruct Henv as [->|(c & r & ws & _ & _ & _ & ->)].
Qed.

(** C10. With the empty string as instance name, the request of every
    call of [post] has exactly the headers [Content-Type],
    [X-Environment] and [X-Signature], the last one holding the signature
    of the body, and it is the very request the same dispatcher sends with
    no name configured. *)
Theorem empty_name_like_absent (H : Host) (url : string) (data : OmitBody.t)
    (rt : Runtime) :
  name (this rt) = Some EmptyString ->
  ∃ options,
    log (post H url data rt).2
    = log rt ++ [Fetch (length (posts rt)) url options]
    ∧ headers options !! "X-Signature"
      = Some (getSignature H (secret (this rt)) (body options))
    ∧ dom (headers options)
      = {["Content-Type"; "X-Environment"; "X-Signature"]}
    ∧ log (post H url data (with_name None rt)).2
      = log rt ++ [Fetch (length (posts rt)) url options].
Proof.
  intros Hn. rewrite !post_eq. simpl. rewrite Hn. eexists.
  split; [done|]. simpl. split; [apply lookup_insert_eq|].
  split; [|done].
  rewrite !dom_insert_L, dom_empty_L. set_solver.
Qed.

(** An instance: the sample client constructed with the empty name. *)
Lemma empty_name_like_absent_witness :
  let H := sample_host in
  let rt := start (sample_props (Some EmptyString)) in
  name (this rt) = Some EmptyString
  ∧ ∃ options,
      log (post H "https://a.example" sample_data rt).2
      = log rt ++ [Fetch (length (posts rt)) "https://a.example" options]
      ∧ headers options !! "X-Signature"
        = Some (getSignature H (secret (this rt)) (body options))
      ∧ dom (headers options)
        = {["Content-Type"; "X-Environment"; "X-Signature"]}
      ∧ log (post H "https://a.example" sample_data (with_name None rt)).2
        = log rt ++ [Fetch (length (posts rt)) "https://a.example" options].
Proof.
  intros H rt. split; [reflexivity|].
  exact (empty_name_like_absent H "https://a.example" sample_data rt
           eq_refl).
Defined.

(** * Further properties of the code *)

(** X1. [createSecret(length)], with [Math.random] keeping to its range
    [0 <= r < 1]: the loop runs once per integer [i >= 0] below [length],
    that is 32 times without argument, [length] rounded up when it has a
    fraction, and not at all when it is zero, negative or [NaN].  When a
    string may be that long, the call returns a secret of that many
    characters, each being the character of the 62-character alphabet at
    the index [Math.floor(Math.random() * chars.length)] of its draw,
    computed in the arithmetic of numbers, and it has called [Math.random]
    once per character.  When a string may not be that long, or [length]
    is [+Infinity], the call returns no secret. *)
Theorem createSecret_spec (Math_random : Random) (max_length : Z)
    (calls : nat) (length : option number) :
  (∀ c, in_unit_interval (Math_random c)) ->
  (0 <= max_length < 2 ^ 53)%Z ->
  let x := default (number_of_Z 32) length in
  let n := Z.to_nat (iterations x) in
  (length = None -> n = 32)
  ∧ (x = S754_infinity false
     ∨ (x ≠ S754_infinity false ∧ (max_length < iterations x)%Z) ->
     ∀ fuel,
       ¬ returns_secret
           (createSecret Math_random max_length fuel calls length))
  ∧ (x ≠ S754_infinity false -> (iterations x <= max_length)%Z ->
     ∀ fuel, n < fuel ->
       ∃ secret,
         createSecret Math_random max_length fuel calls length
         = Returns secret (calls + n)
         ∧ String.length secret = n
         ∧ ∀ i, i < n ->
             ∃ j c,
               (0 <= j < 62)%Z
               ∧ ToIntegerOrInfinity (random_index Math_random (calls + i))
                 = Some j
               ∧ String.get (Z.to_nat j) chars = Some c
               ∧ String.get i secret = Some c).
Proof.
  intros HR Hmax x n. split; [|split].
  - intros ->. vm_compute. reflexivity.
  - intros [Hx|[Hx Hn]] fuel; unfold createSecret; fold x.
    + rewrite Hx. apply createSecret_loop_forever.
    + apply (createSecret_loop_too_long Math_random x max_length fuel 0);
        try done; lia.
  - intros Hx Hn fuel Hfuel. unfold createSecret. fold x.
    pose proof (iterations_nonneg x) as H0.
    assert (iterations x <= 2 ^ 53)%Z as Hit by lia.
    assert (Z.of_nat n = iterations x) as Hnz by (unfold n; lia).
    pose proof (createSecret_loop_returns Math_random x max_length fuel 0
                  calls EmptyString HR Hx Hit) as Hloop.
    cbv zeta in Hloop. fold n in Hloop.
    rewrite Nat.sub_0_r in Hloop. change (Z.of_nat 0) with 0%Z in Hloop.
    rewrite Hloop by (cbn [String.length]; lia).
    destruct (drawn_spec Math_random n calls EmptyString HR)
      as (Hlen & _ & Hget).
    cbn [String.length Nat.add] in Hlen, Hget.
    eexists. split; [done|]. split; [exact Hlen|].
    intros i Hi. destruct (Hget i Hi) as (j & Hj & Hidx & Hc).
    destruct (string_get_lt chars (Z.to_nat j)) as [c Hcj].
    { change (String.length chars) with 62. lia. }
    exists j, c. split; [done|]. split; [done|]. split; [done|].
    by rewrite Hc.
Qed.

(** An instance: [createSecret(2.5)] where a string has up to [2^29 - 24]
    characters, with the draw [2397077221019780 / 2^52] each time, whose
    product with 62 rounds to 33: three draws. *)
Lemma createSecret_spec_witness :
  let R := rounding_random in
  let max_length := 536870888%Z in
  let length := Some (S754_finite false 5629499534213120 (-51)) in
  let x := default (number_of_Z 32) length in
  let n := Z.to_nat (iterations x) in
  ((∀ c, in_unit_interval (R c)) ∧ (0 <= max_length < 2 ^ 53)%Z)
  ∧ (length = None -> n = 32)
  ∧ (x = S754_infinity false
     ∨ (x ≠ S754_infinity false ∧ (max_length < iterations x)%Z) ->
     ∀ fuel, ¬ returns_secret (createSecret R max_length fuel 0 length))
  ∧ (x ≠ S754_infinity false -> (iterations x <= max_length)%Z ->
     ∀ fuel, n < fuel ->
       ∃ secret,
         createSecret R max_length fuel 0 length = Returns secret (0 + n)
         ∧ String.length secret = n
         ∧ ∀ i, i < n ->
             ∃ j c,
               (0 <= j < 62)%Z
               ∧ ToIntegerOrInfinity (random_index R (0 + i)) = Some j
               ∧ String.get (Z.to_nat j) chars = Some c
               ∧ String.get i secret = Some c).
Proof.
  intros R max_length length x n.
  assert (0 <= max_length < 2 ^ 53)%Z as Hmax
    by (split; [discriminate | reflexivity]).
  split; [split; [exact rounding_random_unit | exact Hmax]|].
  exact (createSecret_spec R max_length 0 length rounding_random_unit Hmax).
Defined.

(** X2. [add] then [getWebhooks]: the hooks matched before are matched
    as before, and the new hook comes last when it wants the event.  So
    [add(url)] subscribes the URL to every event, [add(url, [])] to none,
    and adding a URL twice subscribes it twice. *)
Theorem add_then_getWebhooks (this : WebhookClient) (url : string)
    (events : option (list EventType)) (event : EventType) :
  let hook := {| url := url; events := events |} in
  let matched this := (getWebhooks this event).1 in
  matched (add this url events).2
  = matched this ++ (if wants event hook then [hook] else [])
  ∧ (events = None -> matched (add this url events).2 = matched this ++ [hook])
  ∧ (events = Some [] -> matched (add this url events).2 = matched this)
  ∧ matched (add (add this url events).2 url events).2
    = matched this
      ++ (if wants event hook then [hook; hook] else []).
Proof.
  intros hook matched.
  assert (∀ c, matched (add c url events).2
               = matched c ++ (if wants event hook then [hook] else []))
    as Hadd.
  { intros c. unfold matched, getWebhooks, add, Array_push. simpl.
    apply Array_filter_snoc. }
  split; [apply Hadd|]. split; [|split].
  - intros ->. by rewrite Hadd.
  - intros ->. rewrite Hadd. simpl. by rewrite app_nil_r.
  - rewrite !Hadd, <- app_assoc. by destruct (wants event hook).
Qed.

(** X3. Whatever the instance name, the request of [post] is a [POST]
    with exactly three headers: the computed signature header never
    replaces [Content-Type: application/json] or [X-Environment], which
    holds the mode, [sandbox] or [production]. *)
Theorem fixed_headers_survive (H : Host) (url : string) (data : OmitBody.t)
    (rt : Runtime) :
  ∃ options,
    log (post H url data rt).2
    = log rt ++ [Fetch (length (posts rt)) url options]
    ∧ method options = "POST"
    ∧ headers options !! "Content-Type" = Some "application/json"
    ∧ headers options !! "X-Environment"
      = Some (Environment_string (mode (this rt)))
    ∧ (headers options !! "X-Environment" = Some "sandbox"
       ∨ headers options !! "X-Environment" = Some "production")
    ∧ size (headers options) = 3.
Proof.
  rewrite post_eq. simpl. eexists. split; [done|]. simpl.
  destruct (signature_header_not_fixed (name (this rt))) as [Hc He].
  assert (∀ v : string,
            <[signature_header (name (this rt)) := v]>
              (<["X-Environment" := Environment_string (mode (this rt))]>
                 (<["Content-Type" := "application/json"]>
                    (∅ : gmap string string))) !! "X-Environment"
            = Some (Environment_string (mode (this rt)))) as Hx.
  { intros v. rewrite lookup_insert_ne by done. apply lookup_insert_eq. }
  split; [done|]. split; [|split; [apply Hx|split]].
  - rewrite lookup_insert_ne by done. rewrite lookup_insert_ne by done.
    apply lookup_insert_eq.
  - rewrite Hx. destruct (mode (this rt)); [by left | by right].
  - rewrite !map_size_insert_None, map_size_empty; try done.
    rewrite lookup_insert_ne by done. by rewrite lookup_insert_ne.
Qed.

(** X4. [trigger] sends one request per hook that wants the event, to
    the hook's URL and in registry order (so a URL registered twice is
    requested twice, and a hook that does not want the event gets
    nothing); every envelope carries the event type and the data given to
    [trigger] and the client's [api_version]; and [trigger] leaves the
    client as it is. *)
Theorem trigger_requests_matched (H : Host) (rt : Runtime)
    (type : EventType) (data : option JSValue) :
  let rt' := (trigger H type data rt).2 in
  (λ r, r.1.2) <$> requests rt rt' = url <$> (getWebhooks (this rt) type).1
  ∧ (λ r, r.1.1) <$> requests rt rt'
    = seq (length (posts rt)) (length (getWebhooks (this rt) type).1)
  ∧ Forall (λ b, Body.type b = type ∧ Body.data b = data
                 ∧ Body.api_version b = api_version (this rt))
      (envelopes rt rt')
  ∧ length (envelopes rt rt') = length (getWebhooks (this rt) type).1
  ∧ this rt' = this rt.
Proof.
  intros rt'. unfold rt'. rewrite requests_trigger, envelopes_trigger.
  generalize (getWebhooks (this rt) type).1. intros ws.
  split; [|split; [|split; [|split]]].
  - apply list_eq. intros i.
    rewrite !list_lookup_fmap, list_lookup_imap.
    by destruct (ws !! i).
  - apply list_eq. intros i.
    rewrite list_lookup_fmap, list_lookup_imap.
    destruct (ws !! i) as [h|] eqn:Hh; simpl.
    + apply lookup_lt_Some in Hh. by rewrite lookup_seq_lt.
    + apply lookup_ge_None in Hh. symmetry. apply lookup_ge_None.
      by rewrite length_seq.
  - apply Forall_forall. intros b Hb.
    apply elem_of_lookup_imap in Hb. by destruct Hb as (i & h & -> & _).
  - by rewrite length_imap.
  - by rewrite trigger_eq.
Qed.



(** X6. Every request a client ever sends is the request of one call of
    [post]: its body is the serialisation of that call's envelope, its
    signature header, named after the name given to the constructor,
    holds a signature that [verifySignature] accepts for this body and
    the secret given to the constructor, and [X-Environment] holds the
    mode given to the constructor ([sandbox] by default). *)
Theorem every_request_verifies (H : Host) (props : WebhooksProps.t)
    (actions : list Action) (d : nat) (u : string) (o : Options) :
  let rt := run H (start props) actions in
  Fetch d u o ∈ log rt ->
  ∃ c signature,
    posts rt !! d = Some c ∧ u = target c
    ∧ body o = JSON_stringify H d (hookData c)
    ∧ headers o !! signature_header (WebhooksProps.name props)
      = Some signature
    ∧ verifySignature H (WebhooksProps.secret props) signature (body o)
      = true
    ∧ headers o !! "X-Environment"
      = Some (Environment_string
                (default sandbox (WebhooksProps.mode props))).
Proof.
  intros rt Hin.
  destruct (run_start_invariants H props actions)
    as (_ & _ & [_ _ Hreq] & (_ & Hs & Hm & Hn & _)).
  fold rt in Hreq, Hs, Hm, Hn. simpl in Hs, Hm, Hn.
  destruct (Hreq d u o Hin) as (c & Hc & -> & ->).
  exists c, (getSignature H (secret (this rt))
               (JSON_stringify H d (hookData c))).
  split; [done|]. split; [done|]. split; [done|].
  unfold request_options. simpl. rewrite <- Hn, <- Hs, <- Hm.
  split; [apply lookup_insert_eq|]. split; [apply String.eqb_refl|].
  destruct (signature_header_not_fixed (name (this rt))) as [_ He].
  rewrite lookup_insert_ne by done. apply lookup_insert_eq.
Qed.

(** An instance: the first request of a [trigger] on the sample client
    named [EatingDots]. *)
Lemma every_request_verifies_witness :
  let H := sample_host in
  let props := sample_props (Some "EatingDots") in
  let actions := [CallTrigger "did_something" None] in
  let rt := run H (start props) actions in
  let o := built_options H (start props) "did_something" None 0 in
  Fetch 0 "https://a.example" o ∈ log rt
  ∧ ∃ c signature,
      posts rt !! 0 = Some c ∧ "https://a.example" = target c
      ∧ body o = JSON_stringify H 0 (hookData c)
      ∧ headers o !! signature_header (WebhooksProps.name props)
        = Some signature
      ∧ verifySignature H (WebhooksProps.secret props) signature (body o)
        = true
      ∧ headers o !! "X-Environment"
        = Some (Environment_string
                  (default sandbox (WebhooksProps.mode props))).
Proof.
  intros H props actions rt o.
  assert (Fetch 0 "https://a.example" o ∈ log rt) as Hin
    by (vm_compute; left).
  split; [exact Hin|].
  exact (every_request_verifies H props actions 0 "https://a.example" o
           Hin).
Defined.

(** X7. What an observer is told is what happened to the delivery: for
    every call of an observer in the log, the request of that delivery
    went to the URL the observer got, the response the observer got is the
    one, and the only one, that [fetch] resolved with for that delivery
    (it did not reject), it is the response the call of [post] returns
    when it returns, and the one in the delivery's place in the value of
    the promise of [trigger] once that promise is fulfilled. *)
Theorem observer_gets_the_response (H : Host) (props : WebhooksProps.t)
    (actions : list Action) (d k : nat) (u : string) (b : Body.t)
    (r : Response) :
  let rt := run H (start props) actions in
  Observer d k u b r ∈ log rt ->
  (∃ o, Fetch d u o ∈ log rt)
  ∧ FetchSettled d (Resolves r) ∈ log rt
  ∧ (∀ o, FetchSettled d o ∈ log rt -> o = Resolves r)
  ∧ (∀ c r', posts rt !! d = Some c -> point c = Returned r' -> r' = r)
  ∧ (∀ t p results i,
       alls rt !! t = Some p -> outcome p = Fulfilled results ->
       inputs p !! i = Some d -> results !! i = Some r).
Proof.
  intros rt Hin.
  destruct (run_start_invariants H props actions)
    as ([Ha Hl] & _ & _ & _). fold rt in Ha, Hl.
  destruct (observer_in_log rt d k u b r Hl Hin)
    as (c & o & Hc & -> & -> & Hf & Hs).
  assert (∀ c' r', posts rt !! d = Some c' -> point c' = Returned r' ->
                   r' = r) as Hret.
  { intros c' r' Hc' Hp. simplify_eq.
    destruct (returned_after_resolve rt d c r' Hl Hc Hp) as [Hs' _].
    apply (in_history d) in Hs; [|done].
    apply (in_history d) in Hs'; [|done].
    destruct (history_shape rt d c Hl Hc) as
      (options & [[Hp' _]|[(e & Hp' & _)|(res & n & st & _ & _ & Hh & HF)]]);
      try congruence.
    rewrite Hh in Hs, Hs'.
    apply elem_of_cons in Hs. destruct Hs as [?|Hs]; [done|].
    apply elem_of_cons in Hs. destruct Hs as [?|Hs].
    2:{ by apply (not_settled_invocation _ _ _ _ _ _ HF) in Hs. }
    apply elem_of_cons in Hs'. destruct Hs' as [?|Hs']; [done|].
    apply elem_of_cons in Hs'. destruct Hs' as [?|Hs'].
    2:{ by apply (not_settled_invocation _ _ _ _ _ _ HF) in Hs'. }
    congruence. }
  split; [by exists o|]. split; [done|]. split; [|split; [done|]].
  - intros o' Ho'.
    apply (in_history d) in Hs; [|done].
    apply (in_history d) in Ho'; [|done].
    destruct (history_shape rt d c Hl Hc) as
      (options & [[_ Hh]|[(e & _ & Hh)|(res & n & st & _ & _ & Hh & HF)]]);
      rewrite Hh in Hs, Ho'.
    + apply list_elem_of_singleton in Hs. done.
    + apply elem_of_cons in Hs. destruct Hs as [?|Hs]; [done|].
      apply list_elem_of_singleton in Hs. done.
    + apply elem_of_cons in Hs. destruct Hs as [?|Hs]; [done|].
      apply elem_of_cons in Hs. destruct Hs as [?|Hs].
      2:{ by apply (not_settled_invocation _ _ _ _ _ _ HF) in Hs. }
      apply elem_of_cons in Ho'. destruct Ho' as [?|Ho']; [done|].
      apply elem_of_cons in Ho'. destruct Ho' as [?|Ho'].
      2:{ by apply (not_settled_invocation _ _ _ _ _ _ HF) in Ho'. }
      congruence.
  - intros t p results i Ht Hout Hi.
    pose proof (outcomes_ok rt Ha t p Ht) as Hok. unfold outcome_ok in Hok.
    rewrite Hout in Hok.
    destruct (Forall2_lookup_l _ _ _ _ _ Hok Hi) as (r' & Hr' & c' & Hc' & Hp).
    by rewrite (Hret c' r' Hc' Hp) in Hr'.
Qed.

(** An instance: the test of [$onDone], one observer and one hook, the
    promise of [trigger] fulfilled with the response. *)
Lemma observer_gets_the_response_witness :
  let H := sample_host in
  let actions := [CallOnDone plain_observer;
                  CallAdd "https://myhook.com" (Some ["did_something"]);
                  CallTrigger "did_something" None;
                  FetchSettles 0 (Resolves sample_response)] in
  let rt := run H (start test_props) actions in
  let b := Body.mk "uuid-1" "did_something" "uuid-0" "2020-08-27"
             1648135876829%Z None in
  (Observer 0 0 "https://myhook.com" b sample_response ∈ log rt
   ∧ alls rt !! 0
     = Some {| inputs := [0]; outcome := Fulfilled [sample_response] |})
  ∧ (∃ o, Fetch 0 "https://myhook.com" o ∈ log rt)
  ∧ FetchSettled 0 (Resolves sample_response) ∈ log rt
  ∧ (∀ o, FetchSettled 0 o ∈ log rt -> o = Resolves sample_response)
  ∧ (∀ c r', posts rt !! 0 = Some c -> point c = Returned r' ->
             r' = sample_response)
  ∧ (∀ t p results i,
       alls rt !! t = Some p -> outcome p = Fulfilled results ->
       inputs p !! i = Some 0 -> results !! i = Some sample_response).
Proof.
  intros H actions rt b.
  assert (Observer 0 0 "https://myhook.com" b sample_response ∈ log rt)
    as Hin by (vm_compute; do 2 right; left).
  split; [split; [exact Hin | vm_compute; reflexivity]|].
  exact (observer_gets_the_response H test_props actions 0 0
           "https://myhook.com" b sample_response Hin).
Defined.

(** X8. There is no retry and no second notification: among the events
    of one delivery there is exactly one request, at most one settlement
    of its [fetch], and at most one call of each observer; an index that
    is no delivery has no request. *)
Theorem one_request_per_delivery (H : Host) (props : WebhooksProps.t)
    (actions : list Action) (d : nat) :
  let rt := run H (start props) actions in
  let events := history d (log rt) in
  length (filter (λ ev, is_request ev = true) events)
  = (if decide (d < length (posts rt)) then 1 else 0)
  ∧ (length (filter (λ ev, is_fetch_settled ev = true) events) <= 1)%nat
  ∧ ∀ k,
      (length (filter (λ ev, is_observer_call k ev = true) events)
       <= 1)%nat.
Proof.
  intros rt events.
  destruct (run_start_invariants H props actions) as ([_ Hl] & _).
  fold rt in Hl. case_decide as Hd.
  - destruct (lookup_lt_is_Some_2 _ _ Hd) as [c Hc].
    destruct (history_shape rt d c Hl Hc) as
      (options & [[_ Hh]|[(e & _ & Hh)|(res & n & st & _ & _ & Hh & HF)]]);
      unfold events; rewrite Hh.
    + repeat split; simpl; lia.
    + repeat split; simpl; lia.
    + split; [|split].
      * rewrite filter_cons_True by done.
        rewrite filter_cons_False by done.
        rewrite filter_app, count_invocations, count_settles; done.
      * rewrite filter_cons_False by done.
        rewrite filter_cons_True by done.
        rewrite filter_app, count_invocations, count_settles; simpl;
          done || lia.
      * intros k. rewrite filter_cons_False by done.
        rewrite filter_cons_False by done.
        rewrite filter_app, length_app, count_observer_calls.
        rewrite count_settles by done. simpl. case_decide; lia.
  - unfold events. rewrite history_none.
    + repeat split; simpl; lia.
    + apply Forall_forall. intros ev Hev.
      pose proof (log_bound rt Hl ev Hev). lia.
Qed.

(** X9. The first rejection wins and cancels nothing: when the [fetch]
    of a delivery rejects while the promise of its [trigger] is pending,
    the promise is rejected with that very reason, for good, and the
    other calls of [post] stand where they stood. *)
Theorem rejected_fetch_rejects_trigger (H : Host) (rt : Runtime) (d t : nat)
    (c : PostCall) (p : PromiseAll) (e : Error) :
  posts rt !! d = Some c -> point c = AtFetch ->
  alls rt !! t = Some p -> d ∈ inputs p -> outcome p = Pending ->
  let rt' := step H rt (FetchSettles d (Rejects e)) in
  let rejected := {| inputs := inputs p; outcome := Rejected e |} in
  alls rt' !! t = Some rejected
  ∧ (∀ d', d' ≠ d -> posts rt' !! d' = posts rt !! d')
  ∧ ∀ actions, alls (run H rt' actions) !! t = Some rejected.
Proof.
  intros Hc Hp Ht Hd Ho rt' rejected.
  assert (rt' = moved rt d (Threw e) (fetch_events (this rt) d c (Rejects e)))
    as Hrt' by (unfold rt'; cbn [step]; by rewrite (resume_fetch_eq d _ rt c)).
  assert (alls rt' !! t = Some rejected) as Ht'.
  { rewrite Hrt', (moved_alls_settled rt d t _ _ p) by done. f_equal.
    unfold Promise_all_react.
    rewrite bool_decide_eq_true_2, Ho by done.
    by rewrite lookup_alter_point, decide_True, Hc. }
  split; [done|]. split.
  - intros d' Hd'. rewrite Hrt'. unfold moved. simpl.
    by rewrite lookup_alter_point, decide_False.
  - intros actions. by apply run_alls_settled.
Qed.

(** An instance: the second of two deliveries fails first. *)
Lemma rejected_fetch_rejects_trigger_witness :
  let H := sample_host in
  let rt := run H (start (sample_props None))
              [CallTrigger "did_something" None] in
  let c := built_call H (start (sample_props None)) "did_something" None 1
             {| url := "https://b.example";
                events := Some ["did_something"] |} in
  let p := {| inputs := [0; 1]; outcome := Pending |} in
  let rt' := step H rt (FetchSettles 1 (Rejects "ECONNREFUSED")) in
  let rejected := {| inputs := inputs p;
                     outcome := Rejected "ECONNREFUSED" |} in
  (posts rt !! 1 = Some c ∧ point c = AtFetch ∧ alls rt !! 0 = Some p
   ∧ 1 ∈ inputs p ∧ outcome p = Pending)
  ∧ alls rt' !! 0 = Some rejected
  ∧ (∀ d', d' ≠ 1 -> posts rt' !! d' = posts rt !! d')
  ∧ ∀ actions, alls (run H rt' actions) !! 0 = Some rejected.
Proof.
  intros H rt c p rt' rejected.
  assert (posts rt !! 1 = Some c) as Hc by (vm_compute; reflexivity).
  assert (point c = AtFetch) as Hp by reflexivity.
  assert (alls rt !! 0 = Some p) as Ht by (vm_compute; reflexivity).
  assert (1 ∈ inputs p) as Hd by (right; left).
  assert (outcome p = Pending) as Ho by reflexivity.
  split; [by repeat split|].
  exact (rejected_fetch_rejects_trigger H rt 1 0 c p "ECONNREFUSED" Hc Hp Ht Hd Ho).
Defined.

(** X10. A promise of [trigger] is rejected only for a reason that arose
    in one of its deliveries: the reason its [fetch] rejected with, the
    exception an observer threw when called for it, or the reason the
    promise of an observer called for it rejected with. *)
Theorem rejection_has_a_cause (H : Host) (props : WebhooksProps.t)
    (actions : list Action) (t : nat) (p : PromiseAll) (e : Error) :
  let rt := run H (start props) actions in
  alls rt !! t = Some p -> outcome p = Rejected e ->
  ∃ d, d ∈ inputs p
       ∧ (FetchSettled d (Rejects e) ∈ log rt
          ∨ (∃ k cb u b r,
               internalEvent (this rt) !! k = Some cb
               ∧ Observer d k u b r ∈ log rt
               ∧ cb u b r = Throws e)
          ∨ (∃ k, ObserverSettled d k (Rejects e) ∈ log rt)).
Proof.
  intros rt Ht Ho.
  destruct (run_start_invariants H props actions) as ([Ha _] & Hw & _).
  fold rt in Ha, Hw.
  pose proof (outcomes_ok rt Ha t p Ht) as Hok.
  unfold outcome_ok in Hok. rewrite Ho in Hok.
  destruct Hok as (d & c & Hd & Hc & Hp).
  exists d. split; [done|].
  pose proof (Hw d c Hc) as Hwait. unfold wait_ok in Hwait.
  rewrite Hp in Hwait.
  destruct Hwait as [?|[(k & cb & r & ? & ? & ?)|?]]; [by left| |by right; right].
  right. left. by exists k, cb, (target c), (hookData c), r.
Qed.

(** An instance: an observer that throws rejects the promise. *)
Lemma rejection_has_a_cause_witness :
  let H := sample_host in
  let actions := [CallOnDone (λ _ _ _, Throws "observer failed");
                  CallAdd "https://myhook.com" None;
                  CallTrigger "did_something" None;
                  FetchSettles 0 (Resolves sample_response)] in
  let rt := run H (start test_props) actions in
  let p := {| inputs := [0]; outcome := Rejected "observer failed" |} in
  (alls rt !! 0 = Some p ∧ outcome p = Rejected "observer failed")
  ∧ ∃ d, d ∈ inputs p
         ∧ (FetchSettled d (Rejects "observer failed") ∈ log rt
            ∨ (∃ k cb u b r,
                 internalEvent (this rt) !! k = Some cb
                 ∧ Observer d k u b r ∈ log rt
                 ∧ cb u b r = Throws "observer failed")
            ∨ (∃ k, ObserverSettled d k (Rejects "observer failed")
                    ∈ log rt)).
Proof.
  intros H actions rt p.
  assert (alls rt !! 0 = Some p) as Ht by (vm_compute; reflexivity).
  assert (outcome p = Rejected "observer failed") as Ho by reflexivity.
  split; [by split|].
  exact (rejection_has_a_cause H test_props actions 0 p "observer failed"
           Ht Ho).
Defined.

(** X11. The response is not inspected: whatever its status, when the
    observers called with it all return nothing, the call of [post]
    returns the response as soon as [fetch] resolves, and a pending
    promise of [trigger] that waits for this call alone is fulfilled with
    the one response. *)
Theorem any_response_is_delivered (H : Host) (rt : Runtime) (d : nat)
    (c : PostCall) (r : Response) :
  posts rt !! d = Some c -> point c = AtFetch ->
  (∀ cb, cb ∈ internalEvent (this rt) ->
         cb (target c) (hookData c) r = ReturnsVoid) ->
  let rt' := step H rt (FetchSettles d (Resolves r)) in
  posts rt' !! d = Some (at_point (Returned r) c)
  ∧ ∀ t p, alls rt !! t = Some p -> inputs p = [d] ->
           outcome p = Pending ->
           alls rt' !! t
           = Some {| inputs := [d]; outcome := Fulfilled [r] |}.
Proof.
  intros Hc Hp Hv rt'.
  assert (rt' = moved rt d (Returned r)
                  (fetch_events (this rt) d c (Resolves r))) as Hrt'.
  { unfold rt'. cbn [step]. rewrite (resume_fetch_eq d _ rt c) by done.
    unfold after_fetch. by rewrite callback_results_void. }
  assert (alter (at_point (Returned r)) d (posts rt) !! d
          = Some (at_point (Returned r) c)) as Hd
    by by rewrite lookup_alter_point, decide_True, Hc.
  split.
  - by rewrite Hrt'.
  - intros t p Ht Hin Ho.
    rewrite Hrt', (moved_alls_settled rt d t _ _ p) by done. f_equal.
    unfold Promise_all_react.
    rewrite Hin, bool_decide_eq_true_2, Ho, Hd by by left.
    simpl. by rewrite Hd.
Qed.

(** An instance: a response with status 500. *)
Lemma any_response_is_delivered_witness :
  let H := sample_host in
  let rt := run H (start test_props)
              [CallOnDone plain_observer;
               CallAdd "https://myhook.com" None;
               CallTrigger "did_something" None] in
  let r := {| status := 500; statusText := "Internal Server Error" |} in
  let c := {| target := "https://myhook.com";
              hookData := Body.mk "uuid-1" "did_something" "uuid-0"
                            "2020-08-27" 1648135876829%Z None;
              point := AtFetch |} in
  let rt' := step H rt (FetchSettles 0 (Resolves r)) in
  (posts rt !! 0 = Some c ∧ point c = AtFetch
   ∧ ∀ cb, cb ∈ internalEvent (this rt) ->
           cb (target c) (hookData c) r = ReturnsVoid)
  ∧ posts rt' !! 0 = Some (at_point (Returned r) c)
  ∧ ∀ t p, alls rt !! t = Some p -> inputs p = [0] ->
           outcome p = Pending ->
           alls rt' !! t
           = Some {| inputs := [0]; outcome := Fulfilled [r] |}.
Proof.
  intros H rt r c rt'.
  assert (posts rt !! 0 = Some c) as Hc by (vm_compute; reflexivity).
  assert (point c = AtFetch) as Hp by reflexivity.
  assert (∀ cb, cb ∈ internalEvent (this rt) ->
                cb (target c) (hookData c) r = ReturnsVoid) as Hv.
  { intros cb Hcb. change (internalEvent (this rt)) with [plain_observer]
      in Hcb. apply list_elem_of_singleton in Hcb. by subst. }
  split; [by repeat split|].
  exact (any_response_is_delivered H rt 0 c r Hc Hp Hv).
Defined.

(** X12. The observers are read when [fetch] resolves, not when
    [trigger] is called: an observer registered while a delivery is in
    flight is called for it, after the observers registered before, when
    none of those throws. *)
Theorem late_observer_is_called (H : Host) (rt : Runtime) (d : nat)
    (c : PostCall) (callback : onDoneCallback) (r : Response) :
  posts rt !! d = Some c -> point c = AtFetch ->
  (∀ cb e, cb ∈ internalEvent (this rt) ->
           cb (target c) (hookData c) r ≠ Throws e) ->
  let rt' := step H (step H rt (CallOnDone callback))
               (FetchSettles d (Resolves r)) in
  ∃ n, length (internalEvent (this rt)) < n
       ∧ log rt'
         = log rt ++ FetchSettled d (Resolves r)
                     :: invocations d c r n.
Proof.
  intros Hc Hp Hno rt'.
  exists (invoked (target c) (hookData c) r
            (internalEvent (this rt) ++ [callback])).
  split; [by apply invoked_snoc|].
  unfold rt'. cbn [step].
  by rewrite (resume_fetch_eq d _ _ c).
Qed.

(** An instance: [$onDone] between [trigger] and the response. *)
Lemma late_observer_is_called_witness :
  let H := sample_host in
  let rt := run H (start test_props)
              [CallAdd "https://myhook.com" None;
               CallTrigger "did_something" None] in
  let c := {| target := "https://myhook.com";
              hookData := Body.mk "uuid-1" "did_something" "uuid-0"
                            "2020-08-27" 1648135876829%Z None;
              point := AtFetch |} in
  let rt' := step H (step H rt (CallOnDone plain_observer))
               (FetchSettles 0 (Resolves sample_response)) in
  (posts rt !! 0 = Some c ∧ point c = AtFetch
   ∧ ∀ cb e, cb ∈ internalEvent (this rt) ->
             cb (target c) (hookData c) sample_response ≠ Throws e)
  ∧ ∃ n, length (internalEvent (this rt)) < n
         ∧ log rt'
           = log rt ++ FetchSettled 0 (Resolves sample_response)
                       :: invocations 0 c sample_response n.
Proof.
  intros H rt c rt'.
  assert (posts rt !! 0 = Some c) as Hc by (vm_compute; reflexivity).
  assert (point c = AtFetch) as Hp by reflexivity.
  assert (∀ cb e, cb ∈ internalEvent (this rt) ->
                  cb (target c) (hookData c) sample_response ≠ Throws e)
    as Hno.
  { intros cb e Hcb. change (internalEvent (this rt)) with
      (@nil onDoneCallback) in Hcb. by apply elem_of_nil in Hcb. }
  split; [by repeat split|].
  exact (late_observer_is_called H rt 0 c plain_observer sample_response
           Hc Hp Hno).
Defined.

(** X13. The constructor keeps the array it is given, and [add] pushes
    onto it: the caller's array grows by the new hook, and a second
    client constructed from the same array matches the new hook too.
    For the client itself the call is the [add] of the class on its
    view of the store. *)
Theorem hooks_array_is_shared (σ : Store) (a : nat) (arr : list Hook)
    (props1 props2 : WebhooksProps.t) (url : string)
    (events : option (list EventType)) (event : EventType) :
  σ !! a = Some arr ->
  let hook := {| url := url; events := events |} in
  let c1 := (new_WebhookClient σ props1 (Some a)).1 in
  let σ1 := (new_WebhookClient σ props1 (Some a)).2 in
  let c2 := (new_WebhookClient σ1 props2 (Some a)).1 in
  let σ2 := (new_WebhookClient σ1 props2 (Some a)).2 in
  let σ3 := shared_add σ2 c1 url events in
  σ2 = σ
  ∧ σ3 !! a = Some (arr ++ [hook])
  ∧ shared_getWebhooks σ3 c2 event
    = shared_getWebhooks σ2 c2 event
      ++ (if wants event hook then [hook] else [])
  ∧ view σ3 c1 = (add (view σ2 c1) url events).2
  ∧ shared_getWebhooks σ3 c1 event = (getWebhooks (view σ3 c1) event).1.
Proof.
  intros Ha hook c1 σ1 c2 σ2 σ3. simpl in *.
  unfold σ3, σ2, σ1, shared_add, shared_getWebhooks, view. simpl.
  rewrite list_lookup_alter_eq, Ha. simpl.
  split; [done|]. split; [done|]. split; [|done].
  apply Array_filter_snoc.
Qed.

(** An instance: one array with one hook, given to two clients. *)
Lemma hooks_array_is_shared_witness :
  let σ : Store := [[{| url := "https://a.example"; events := None |}]] in
  let arr := [{| url := "https://a.example"; events := None |}] in
  let hook := {| url := "https://b.example"; events := None |} in
  let c1 := (new_WebhookClient σ test_props (Some 0)).1 in
  let σ1 := (new_WebhookClient σ test_props (Some 0)).2 in
  let c2 := (new_WebhookClient σ1 test_props (Some 0)).1 in
  let σ2 := (new_WebhookClient σ1 test_props (Some 0)).2 in
  let σ3 := shared_add σ2 c1 "https://b.example" None in
  σ !! 0 = Some arr
  ∧ σ2 = σ
  ∧ σ3 !! 0 = Some (arr ++ [hook])
  ∧ shared_getWebhooks σ3 c2 "did_something"
    = shared_getWebhooks σ2 c2 "did_something"
      ++ (if wants "did_something" hook then [hook] else [])
  ∧ view σ3 c1 = (add (view σ2 c1) "https://b.example" None).2
  ∧ shared_getWebhooks σ3 c1 "did_something"
    = (getWebhooks (view σ3 c1) "did_something").1.
Proof.
  intros σ arr hook c1 σ1 c2 σ2 σ3.
  split; [reflexivity|].
  exact (hooks_array_is_shared σ 0 arr test_props test_props
           "https://b.example" None "did_something" eq_refl).
Defined.

(** X14. Two clients constructed without [hooks] get an array each:
    [add] on one changes neither what the other matches nor any array
    that existed before. *)
Theorem default_hooks_are_separate (σ : Store)
    (props1 props2 : WebhooksProps.t) (url : string)
    (events : option (list EventType)) (event : EventType) :
  let c1 := (new_WebhookClient σ props1 None).1 in
  let σ1 := (new_WebhookClient σ props1 None).2 in
  let c2 := (new_WebhookClient σ1 props2 None).1 in
  let σ2 := (new_WebhookClient σ1 props2 None).2 in
  let σ3 := shared_add σ2 c1 url events in
  hooks_ref c1 ≠ hooks_ref c2
  ∧ shared_getWebhooks σ3 c1 event
    = (if wants event {| url := url; events := events |}
       then [{| url := url; events := events |}] else [])
  ∧ shared_getWebhooks σ3 c2 event = []
  ∧ ∀ a arr, σ !! a = Some arr -> σ3 !! a = Some arr.
Proof.
  intros c1 σ1 c2 σ2 σ3. subst c1 σ1 c2 σ2 σ3.
  unfold shared_add, shared_getWebhooks. simpl.
  rewrite !length_app. simpl.
  split; [lia|]. split; [|split].
  - rewrite list_lookup_alter_eq.
    rewrite lookup_app_l by (rewrite length_app; simpl; lia).
    rewrite list_lookup_middle by done. simpl.
    apply (Array_filter_snoc (wants event) []).
  - rewrite list_lookup_alter_ne by lia.
    rewrite list_lookup_middle by (rewrite length_app; simpl; lia).
    done.
  - intros a arr Ha. apply lookup_lt_Some in Ha as Hlt.
    rewrite list_lookup_alter_ne by lia.
    rewrite <- app_assoc. by apply lookup_app_l_Some.
Qed.

